(** * ProDy [measure.py]: rigid-body alignment and tensor geometry

    A shallow embedding of [src/prody/measure.py] and the properties its
    specification states about it.

    Numbers.  NumPy float arrays are modelled over the real numbers [R]:
    every statement below is about the exact-arithmetic reading of the
    formulas the code evaluates, not about rounding.  Where a float
    division by zero decides a comparison ([calcADPAxes]), what IEEE
    arithmetic gives is written out.

    Arrays.  A [(3,)] array is a [Vec3], a [(3,3)] array a [Mat3] (by
    rows), an [(N,3)] array a [list Vec3], an [(N,1)] or [(N,)] array a
    [list R], a stack [(M,N,3)] a [list (list Vec3)].  Operations whose
    operand shapes NumPy checks at run time return a [result], with the
    exception Python raises.  Arrays updated in place ([mobs[i] = ...],
    [rmsd[i] = ...], [axes[i*3:(i+1)*3] = ...]) are lists updated by
    index inside the loop that updates them.

    Keyword arguments.  [**kwargs] is a finite map from names to numbers.

    Linear algebra.  [linalg.svd] and [linalg.eigh] come from NumPy, not
    from this repository: they are section variables.  [linalg.det] of a
    [(3,3)] array is written out. *)

From Stdlib Require Import Reals Lra Lia.
From stdpp Require Import base option list gmap strings.

Open Scope R_scope.

(** * Python results *)

Inductive exn : Set :=
  | TypeError
  | ValueError
  | AssertionError
  | IndexError
  | ZeroDivisionError.

Inductive result (A : Type) : Type :=
  | Ok (a : A)
  | Raise (e : exn).
Arguments Ok {A} a.
Arguments Raise {A} e.

#[global] Instance result_ret : MRet result := @Ok.
#[global] Instance result_bind : MBind result :=
  λ A B f x, match x with Ok a => f a | Raise e => Raise e end.

(** [for x in l: s = body(x, s)], stopping at the first exception. *)
Fixpoint for_each {A S : Type} (body : A → S → result S) (l : list A) (s : S)
  : result S :=
  match l with
  | [] => Ok s
  | x :: l' => s' ← body x s; for_each body l' s'
  end.

(** [l[i]] for a Python sequence. *)
Definition getitem {A : Type} (l : list A) (i : nat) : result A :=
  match l !! i with
  | Some x => Ok x
  | None => Raise IndexError
  end.

(** * NumPy arrays of the shapes the module uses *)

Record Vec3 : Set := mkVec3 { vx : R; vy : R; vz : R }.
Record Mat3 : Set := mkMat3 { row0 : Vec3; row1 : Vec3; row2 : Vec3 }.

Module Np.

Definition vzero : Vec3 := mkVec3 0 0 0.
Definition mzero : Mat3 := mkMat3 vzero vzero vzero.

Definition vmap (f : R → R) (a : Vec3) : Vec3 :=
  mkVec3 (f (vx a)) (f (vy a)) (f (vz a)).
Definition vmap2 (f : R → R → R) (a b : Vec3) : Vec3 :=
  mkVec3 (f (vx a) (vx b)) (f (vy a) (vy b)) (f (vz a) (vz b)).

Definition vadd : Vec3 → Vec3 → Vec3 := vmap2 Rplus.
Definition vsub : Vec3 → Vec3 → Vec3 := vmap2 Rminus.
Definition vmul : Vec3 → Vec3 → Vec3 := vmap2 Rmult.
Definition vscale (k : R) : Vec3 → Vec3 := vmap (Rmult k).
Definition vdivs (a : Vec3) (k : R) : Vec3 := vmap (λ x, x / k) a.
Definition vsq : Vec3 → Vec3 := vmap (λ x, x * x).
Definition vsum (a : Vec3) : R := vx a + vy a + vz a.

Definition mmap (f : Vec3 → Vec3) (m : Mat3) : Mat3 :=
  mkMat3 (f (row0 m)) (f (row1 m)) (f (row2 m)).
Definition col0 (m : Mat3) : Vec3 := mkVec3 (vx (row0 m)) (vx (row1 m)) (vx (row2 m)).
Definition col1 (m : Mat3) : Vec3 := mkVec3 (vy (row0 m)) (vy (row1 m)) (vy (row2 m)).
Definition col2 (m : Mat3) : Vec3 := mkVec3 (vz (row0 m)) (vz (row1 m)) (vz (row2 m)).

(** [m.T] *)
Definition transpose (m : Mat3) : Mat3 := mkMat3 (col0 m) (col1 m) (col2 m).

(** [np.dot(v, m)] for [v] of shape [(3,)] and [m] of shape [(3,3)]. *)
Definition dot_v_m (v : Vec3) (m : Mat3) : Vec3 :=
  mkVec3 (vsum (vmul v (col0 m))) (vsum (vmul v (col1 m))) (vsum (vmul v (col2 m))).

(** [np.dot(a, b)] for two [(3,3)] arrays. *)
Definition dot_m_m (a b : Mat3) : Mat3 := mmap (λ r, dot_v_m r b) a.

(** [np.dot(a, m)] for [a] of shape [(N,3)]. *)
Definition dot_a_m (a : list Vec3) (m : Mat3) : list Vec3 :=
  (λ r, dot_v_m r m) <$> a.

(** [linalg.det] of a [(3,3)] array. *)
Definition det (m : Mat3) : R :=
  let '(mkMat3 (mkVec3 a b c) (mkVec3 d e f) (mkVec3 g h i)) := m in
  a * (e * i - f * h) - b * (d * i - f * g) + c * (d * h - e * g).

(** [np.sign] *)
Definition sign (x : R) : R :=
  match total_order_T x 0 with
  | inleft (left _) => -1
  | inleft (right _) => 0
  | inright _ => 1
  end.

(** [l.sum()] for a one-dimensional array (or an [(N,1)] one). *)
Definition sum (l : list R) : R := foldr Rplus 0 l.

(** [a.sum(axis=0)] and [a.mean(0)] for [a] of shape [(N,3)]. *)
Definition sum0 (a : list Vec3) : Vec3 := foldr vadd vzero a.
Definition mean0 (a : list Vec3) : Vec3 := vdivs (sum0 a) (INR (length a)).

(** [a.sum()] and [a.sum(1)] for [a] of shape [(N,3)]. *)
Definition sum_all (a : list Vec3) : R := sum (vsum <$> a).
Definition sum1 (a : list Vec3) : list R := vsum <$> a.

(** [a ** 2] *)
Definition sq (a : list Vec3) : list Vec3 := vsq <$> a.

(** [a - v] and [a + v]: an [(N,3)] array and a [(3,)] array. *)
Definition sub_row (a : list Vec3) (v : Vec3) : list Vec3 := (λ r, vsub r v) <$> a.
Definition add_row (a : list Vec3) (v : Vec3) : list Vec3 := (λ r, vadd r v) <$> a.

(** Broadcasting along the first axis of two arrays whose other axes
    already agree: equal lengths pair up, a length-1 operand is
    repeated, anything else is a [ValueError]. *)
Definition bcast0 {A B C : Type} (f : A → B → C) (l1 : list A) (l2 : list B)
  : result (list C) :=
  if decide (length l1 = length l2) then Ok (zip_with f l1 l2)
  else match l1, l2 with
       | _, [y] => Ok ((λ x, f x y) <$> l1)
       | [x], _ => Ok (f x <$> l2)
       | _, _ => Raise ValueError
       end.

(** [a - b] for two [(N,3)] arrays. *)
Definition sub (a b : list Vec3) : result (list Vec3) := bcast0 vsub a b.

(** [a * w] for [a] of shape [(N,3)] and [w] of shape [(N,1)]: row [i]
    is scaled by [w[i]]. *)
Definition mul_col (a : list Vec3) (w : list R) : result (list Vec3) :=
  bcast0 (λ r k, vscale k r) a w.

(** [a * w] for [a] of shape [(N,3)] and [w] of shape [(K,)]: the
    one-dimensional operand is aligned with the LAST axis, so [K] must
    be 3 (column [j] is scaled by [w[j]]) or 1. *)
Definition mul_last (a : list Vec3) (w : list R) : result (list Vec3) :=
  match w with
  | [k] => Ok (vscale k <$> a)
  | [k0; k1; k2] => Ok ((λ r, vmul r (mkVec3 k0 k1 k2)) <$> a)
  | _ => Raise ValueError
  end.

(** [x * w] and [x / w] for two one-dimensional arrays. *)
Definition mul1 (x w : list R) : result (list R) := bcast0 Rmult x w.
Definition div1 (x w : list R) : result (list R) := bcast0 Rdiv x w.

(** Column [j] of an [(N,3)] array, a row of its transpose. *)
Definition column (p : Vec3 → R) (a : list Vec3) : list R := p <$> a.

(** [np.dot(x, y)] for two one-dimensional arrays of equal length. *)
Definition inner (x y : list R) : R := sum (zip_with Rmult x y).

(** [np.dot(a.T, b)] for [a], [b] of shape [(N,3)] and [(K,3)]: a
    [(3,3)] array, and a [ValueError] unless [N = K]. *)
Definition dot_T (a b : list Vec3) : result Mat3 :=
  if decide (length a = length b) then
    let line (p : Vec3 → R) :=
      mkVec3 (inner (column p a) (column vx b))
             (inner (column p a) (column vy b))
             (inner (column p a) (column vz b)) in
    Ok (mkMat3 (line vx) (line vy) (line vz))
  else Raise ValueError.

(** [m / k] for a [(3,3)] array and a scalar (or a [(1,1)] array). *)
Definition mdivs (m : Mat3) (k : R) : Mat3 := mmap (λ r, vdivs r k) m.

(** [v * m] for [v] of shape [(3,)] and [m] of shape [(3,3)]: column
    [j] of [m] is scaled by [v[j]]. *)
Definition mul_cols (v : Vec3) (m : Mat3) : Mat3 := mmap (λ r, vmul v r) m.

(** [(a * b).sum(0)] for two [(3,3)] arrays. *)
Definition col_dots (a b : Mat3) : Vec3 :=
  vadd (vmul (row0 a) (row0 b))
       (vadd (vmul (row1 a) (row1 b)) (vmul (row2 a) (row2 b))).

(** [m[:, [2,1,0]]] and [v[[2,1,0]]] *)
Definition vrev (v : Vec3) : Vec3 := mkVec3 (vz v) (vy v) (vx v).
Definition mrev_cols (m : Mat3) : Mat3 := mmap vrev m.

End Np.

(** * Python objects handed to [Transformation] *)

(** An [ndarray] of any shape, with its entries in row-major order. *)
Record ndarray : Set := mk_ndarray { shape : list nat; data : list R }.

Inductive pyobj : Set :=
  | PyNone
  | PyArray (a : ndarray)
  | PyOther.  (* any object that is not an [ndarray] *)

Definition array_of_Vec3 (v : Vec3) : pyobj :=
  PyArray (mk_ndarray [3%nat] [vx v; vy v; vz v]).

Definition array_of_Mat3 (m : Mat3) : pyobj :=
  PyArray (mk_ndarray [3%nat; 3%nat]
             [vx (row0 m); vy (row0 m); vz (row0 m);
              vx (row1 m); vy (row1 m); vz (row1 m);
              vx (row2 m); vy (row2 m); vz (row2 m)]).

(** Reading a stored attribute back as the array [np.dot] and [+] need:
    the attributes of a constructed [Transformation] have these shapes. *)
Definition as_Vec3 (o : pyobj) : result Vec3 :=
  match o with
  | PyArray (mk_ndarray [3%nat] [a; b; c]) => Ok (mkVec3 a b c)
  | PyArray _ => Raise ValueError
  | _ => Raise TypeError
  end.

Definition as_Mat3 (o : pyobj) : result Mat3 :=
  match o with
  | PyArray (mk_ndarray [3%nat; 3%nat] [a; b; c; d; e; f; g; h; i]) =>
      Ok (mkMat3 (mkVec3 a b c) (mkVec3 d e f) (mkVec3 g h i))
  | PyArray _ => Raise ValueError
  | _ => Raise TypeError
  end.

(** * class [Transformation] *)

Module Transformation.

Record t : Set := mk { _rotation : pyobj; _translation : pyobj }.

Definition setRotation (self : t) (rotation : pyobj) : result t :=
  match rotation with
  | PyArray a =>
      if decide (shape a = [3%nat; 3%nat])
      then Ok (mk rotation (_translation self))
      else Raise TypeError
  | _ => Raise TypeError
  end.

Definition setTranslation (self : t) (translation : pyobj) : result t :=
  match translation with
  | PyArray a =>
      if decide (shape a = [3%nat])
      then Ok (mk (_rotation self) translation)
      else Raise TypeError
  | _ => Raise TypeError
  end.

Definition __init__ (rotation translation : pyobj) : result t :=
  let self := mk PyNone PyNone in
  self ← setRotation self rotation;
  let self := mk (_rotation self) PyNone in
  setTranslation self translation.

(** The shapes the class promises for its two attributes. *)
Definition is_3x3 (o : pyobj) : bool :=
  match o with
  | PyArray a => bool_decide (shape a = [3%nat; 3%nat])
  | _ => false
  end.

Definition is_len3 (o : pyobj) : bool :=
  match o with
  | PyArray a => bool_decide (shape a = [3%nat])
  | _ => false
  end.

Definition well_shaped (x : t) : Prop :=
  is_3x3 (_rotation x) = true ∧ is_len3 (_translation x) = true.

End Transformation.

(** [_applyTransformation]: [t._translation + np.dot(coords, t._rotation)] *)
Definition _applyTransformation (t : Transformation.t) (coords : list Vec3)
  : result (list Vec3) :=
  rotation ← as_Mat3 (Transformation._rotation t);
  translation ← as_Vec3 (Transformation._translation t);
  Ok (Np.add_row (Np.dot_a_m coords rotation) translation).

(** * Shapes of the arguments and of the values returned *)

(** A coordinate argument: [ndim == 2], one [(N,3)] frame, or
    [ndim == 3], a stack [(M,N,3)]. *)
Inductive coords_t : Set :=
  | Frame (a : list Vec3)
  | Stack (s : list (list Vec3)).

(** A weight argument of [_calcRMSD]: [(N,1)], or one [(N,1)] array per
    frame, [(M,N,1)]. *)
Inductive weights_t : Set :=
  | Weights2 (w : list R)
  | Weights3 (ws : list (list R)).

(** A returned number: a scalar, or an [(M,)] array. *)
Inductive value : Set :=
  | Scalar (x : R)
  | Array1 (xs : list R).

(** One row of [getAnisoTempFactors()]: [anisou[0]] .. [anisou[5]]. *)
Record anisou : Set := mk_anisou
  { a_xx : R; a_yy : R; a_zz : R; a_xy : R; a_xz : R; a_yz : R }.

#[global] Instance Rlt_decision : RelDecision Rlt := Rlt_dec.
#[global] Instance Rle_decision : RelDecision Rle := Rle_dec.
#[global] Instance R_eq_decision : EqDecision R := Req_dec_T.

(** * The functions of [measure.py] *)

Section Measure.

(** [linalg.svd(m)] returns [(U, s, Vh)]; [linalg.eigh(m)] returns
    [(vals, vecs)], the eigenvalues in ascending order and the
    eigenvectors as the columns of [vecs]. *)
Variable svd : Mat3 → Mat3 * Vec3 * Mat3.
Variable eigh : Mat3 → Vec3 * Mat3.

(** Lines 185-189, shared by [_calcTransformation] and [_superpose]:
    the rotation read off the decomposition of [matrix]. *)
Definition rotation_of (matrix : Mat3) : Mat3 :=
  let '(U, s, Vh) := svd matrix in
  let Id := mkMat3 (mkVec3 1 0 0)
                   (mkVec3 0 1 0)
                   (mkVec3 0 0 (Np.sign (Np.det matrix))) in
  Np.dot_m_m (Np.transpose Vh) (Np.dot_m_m Id (Np.transpose U)).

(** Lines 170-183 of [_calcTransformation]: the two centres and the
    matrix handed to [linalg.svd].  Over the reals a quotient by a zero
    weight sum (or by [N = 0]) is a number; in the source it is [nan]
    or [inf], on which [linalg.svd] fails.  Statements that rest on
    such a quotient take the weight sum to be non-zero and the frames
    to have an atom. *)
Definition _calcTransformation_matrix
    (mob tar : list Vec3) (weights : option (list R))
  : result (Mat3 * Vec3 * Vec3) :=
  match weights with
  | None =>
      let mob_com := Np.mean0 mob in
      let tar_com := Np.mean0 tar in
      let mob := Np.sub_row mob mob_com in
      let tar := Np.sub_row tar tar_com in
      matrix ← Np.dot_T tar mob;
      Ok (matrix, mob_com, tar_com)
  | Some weights =>
      let weights_sum := Np.sum weights in
      let weights_dot := Np.inner weights weights in
      mob_w ← Np.mul_col mob weights;
      let mob_com := Np.vdivs (Np.sum0 mob_w) weights_sum in
      tar_w ← Np.mul_col tar weights;
      let tar_com := Np.vdivs (Np.sum0 tar_w) weights_sum in
      let mob := Np.sub_row mob mob_com in
      let tar := Np.sub_row tar tar_com in
      tar_w ← Np.mul_col tar weights;
      mob_w ← Np.mul_col mob weights;
      matrix ← Np.dot_T tar_w mob_w;
      Ok (Np.mdivs matrix weights_dot, mob_com, tar_com)
  end.

Definition _calcTransformation
    (mob tar : list Vec3) (weights : option (list R))
  : result Transformation.t :=
  '(matrix, mob_com, tar_com) ← _calcTransformation_matrix mob tar weights;
  let rotation := rotation_of matrix in
  Transformation.__init__
    (array_of_Mat3 rotation)
    (array_of_Vec3 (Np.vsub tar_com (Np.dot_v_m mob_com rotation))).

(** The body of the loop of [_superpose], on the pair of buffers
    [(mobs, movs)] it updates in place. *)
Definition _superpose_frame (tar_com : Vec3) (tar_org : list Vec3) (i : nat)
    (st : list (list Vec3) * option (list (list Vec3)))
  : result (list (list Vec3) * option (list (list Vec3))) :=
  let '(mobs, movs) := st in
  mob ← getitem mobs i;
  let mob_com := Np.mean0 mob in
  let mob_org := Np.sub_row mob mob_com in
  matrix ← Np.dot_T tar_org mob_org;
  let rotation := rotation_of matrix in
  match movs with
  | None =>
      Ok (<[i := Np.add_row (Np.dot_a_m mob_org rotation) tar_com]> mobs, None)
  | Some buf =>
      mov ← getitem buf i;
      Ok (mobs,
          Some (<[i := Np.add_row (Np.dot_a_m mov rotation)
                         (Np.vsub tar_com (Np.dot_v_m mob_com rotation))]> buf))
  end.

(** [_superpose]: returns the two buffers as the loop leaves them.
    The parameter [weights] is accepted and never read, as in the
    source. *)
Definition _superpose (mobs : list (list Vec3)) (tar : list Vec3)
    (weights : option (list R)) (movs : option (list (list Vec3)))
  : result (list (list Vec3) * option (list (list Vec3))) :=
  let tar_com := Np.mean0 tar in
  let tar_org := Np.sub_row tar tar_com in
  for_each (_superpose_frame tar_com tar_org) (seq 0 (length mobs)) (mobs, movs).

(** [for i, t in enumerate(tar): rmsd[i] = f(t)] on [rmsd = np.zeros(len(tar))]. *)
Definition fill_per_frame {A : Type} (f : nat → A → result R) (tar : list A)
  : result (list R) :=
  for_each (λ '(i, t) rmsd, x ← f i t; Ok (<[i := x]> rmsd))
           (zip (seq 0 (length tar)) tar)
           (replicate (length tar) 0).

Definition _calcRMSD (ref : list Vec3) (tar : coords_t) (weights : option weights_t)
  : result value :=
  match weights with
  | None =>
      if decide (length ref = 0%nat) then Raise ZeroDivisionError else
      let divByN := 1 / INR (length ref) in
      match tar with
      | Frame tar =>
          d ← Np.sub ref tar;
          Ok (Scalar (sqrt (Np.sum_all (Np.sq d) * divByN)))
      | Stack tar =>
          rmsd ← fill_per_frame
                   (λ _ t, d ← Np.sub ref t; Ok (Np.sum_all (Np.sq d))) tar;
          Ok (Array1 ((λ x, sqrt (x * divByN)) <$> rmsd))
      end
  | Some weights =>
      match tar with
      | Frame tar =>
          d ← Np.sub ref tar;
          match weights with
          | Weights2 w =>
              dw ← Np.mul_col (Np.sq d) w;
              Ok (Scalar (sqrt (Np.sum_all dw * (1 / Np.sum w))))
          | Weights3 ws =>
              dws ← mapM (Np.mul_col (Np.sq d)) ws;
              Ok (Scalar (sqrt (Np.sum (Np.sum_all <$> dws)
                                * (1 / Np.sum (Np.sum <$> ws)))))
          end
      | Stack tar =>
          match weights with
          | Weights2 w =>
              rmsd ← fill_per_frame
                       (λ _ t, d ← Np.sub ref t;
                               dw ← Np.mul_col (Np.sq d) w;
                               Ok (Np.sum_all dw)) tar;
              Ok (Array1 ((λ x, sqrt (x * (1 / Np.sum w))) <$> rmsd))
          | Weights3 ws =>
              rmsd ← fill_per_frame
                       (λ i t, d ← Np.sub ref t;
                               w ← getitem ws i;
                               dw ← Np.mul_col (Np.sq d) w;
                               Ok (Np.sum_all dw)) tar;
              q ← Np.div1 rmsd (Np.sum <$> ws);
              Ok (Array1 (sqrt <$> q))
          end
      end
  end.

(** [d2sum] of one frame in [calcRadiusOfGyration] (lines 451-457 and,
    inside the loop, 461-468). *)
Definition _gyration_d2sum (coords : list Vec3) (weights : option (list R))
    (wsum : R) : result R :=
  match weights with
  | None =>
      let com := Np.mean0 coords in
      Ok (Np.sum_all (Np.sq (Np.sub_row coords com)))
  | Some weights =>
      cw ← Np.mul_last coords weights;
      let com := Np.vdivs (Np.mean0 cw) wsum in
      dw ← Np.mul1 (Np.sum1 (Np.sq (Np.sub_row coords com))) weights;
      Ok (Np.sum dw)
  end.

(** [coords.shape[-2]].  A stack with no frame at all is given the
    count 0 here, where the source has the [N] of its [(0,N,3)] array;
    only the length check on [weights] can tell the two apart. *)
Definition n_atoms_of (coords : coords_t) : nat :=
  match coords with
  | Frame a => length a
  | Stack [] => 0
  | Stack (a :: _) => length a
  end.

(** [calcRadiusOfGyration], on arrays: that [coords] is an array with
    [ndim] 2 or 3 and last axis 3 is in its type; [weights] is given
    already flattened. *)
Definition calcRadiusOfGyration (coords : coords_t) (weights : option (list R))
  : result value :=
  wsum ← match weights with
         | Some weights =>
             if decide (length weights ≠ n_atoms_of coords)
             then Raise ValueError
             else Ok (Np.sum weights)
         | None => Ok (INR (n_atoms_of coords))
         end;
  match coords with
  | Frame coords =>
      d2sum ← _gyration_d2sum coords weights wsum;
      Ok (Scalar (sqrt (d2sum / wsum)))
  | Stack frames =>
      rgyr ← for_each (λ coords rgyr,
                         d2sum ← _gyration_d2sum coords weights wsum;
                         Ok (rgyr ++ [d2sum]))
                      frames [];
      Ok (Array1 ((λ d2sum, sqrt (d2sum / wsum)) <$> rgyr))
  end.

(** The symmetric [(3,3)] array [element] filled from one record. *)
Definition element_of (a : anisou) : Mat3 :=
  mkMat3 (mkVec3 (a_xx a) (a_xy a) (a_xz a))
         (mkVec3 (a_xy a) (a_yy a) (a_yz a))
         (mkVec3 (a_xz a) (a_yz a) (a_zz a)).

(** [vals[vals < 0] = 0] *)
Definition clamp (vals : Vec3) : Vec3 :=
  Np.vmap (λ x, if decide (x < 0) then 0 else x) vals.

(** The body of the loop over [range(1, n_atoms)] in [calcADPAxes], on
    the arrays [(axes, variances)], one [(3,3)] block of [axes] and one
    row of [variances] per atom.  ([stddevs] is written and never
    read.) *)
Definition _adp_step (anisous : list anisou) (i : nat)
    (st : list Mat3 * list Vec3) : result (list Mat3 * list Vec3) :=
  let '(axes, variances) := st in
  anisou ← getitem anisous i;
  let '(vals, vecs) := eigh (element_of anisou) in
  let vals := clamp vals in
  let variances := <[i := vals]> variances in
  let vals := Np.vmap sqrt vals in
  prev ← getitem axes (i - 1);
  let vals := Np.vmul vals (Np.vmap Np.sign (Np.col_dots vecs prev)) in
  Ok (<[i := Np.mul_cols vals vecs]> axes, variances).

(** Lines 551-589: the arrays [axes] and [variances] before the
    columns are sorted again. *)
Definition _adp_decompose (anisous : list anisou)
  : result (list Mat3 * list Vec3) :=
  let n_atoms := length anisous in
  let axes := replicate n_atoms Np.mzero in
  let variances := replicate n_atoms Np.vzero in
  anisou ← getitem anisous 0;
  let '(vals, vecs) := eigh (element_of anisou) in
  let vals := clamp vals in
  let variances := <[0%nat := vals]> variances in
  let vals := Np.vmap sqrt vals in
  let axes := <[0%nat := Np.mul_cols vals vecs]> axes in
  for_each (_adp_step anisous) (seq 1 (n_atoms - 1)) (axes, variances).

(** [a / b > x] and [a / b <= x] on floats.  Division by zero does
    not raise: [a / 0] is [inf], [nan] or [-inf] as [a] is positive,
    zero or negative, and every comparison with [nan] is false. *)
Definition quotient_gt (a b x : R) : bool :=
  if decide (b = 0) then bool_decide (0 < a) else bool_decide (x < a / b).
Definition quotient_le (a b x : R) : bool :=
  if decide (b = 0) then bool_decide (a < 0) else bool_decide (a / b <= x).

(** Lines 592-608: the boolean column [torf], if a filter is asked for. *)
Definition _adp_torf (kwargs : gmap string R) (variances : list Vec3)
  : result (option (list bool)) :=
  match kwargs !! "fract"%string with
  | Some fract =>
      if decide (33 / 100 < fract ∧ fract < 1) then
        let variances := Np.vrev <$> variances in
        Ok (Some ((λ v, quotient_gt (vx v) (Np.vsum v) fract) <$> variances))
      else Raise AssertionError
  | None =>
      match kwargs !! "ratio2"%string with
      | Some ratio =>
          if decide (0 < ratio ∧ ratio < 1) then
            let variances := Np.vrev <$> variances in
            Ok (Some ((λ v, quotient_le (vy v) (vx v) ratio) <$> variances))
          else Raise AssertionError
      | None =>
          match kwargs !! "ratio"%string, kwargs !! "ratio3"%string with
          | Some ratio, _ | None, Some ratio =>
              if decide (0 < ratio ∧ ratio < 1) then
                let variances := Np.vrev <$> variances in
                Ok (Some ((λ v, quotient_le (vz v) (vx v) ratio) <$> variances))
              else Raise AssertionError
          | None, None => Ok None
          end
      end
  end.

(** [True] is 1 and [False] is 0 in [axes * torf]. *)
Definition mask (b : bool) (m : Mat3) : Mat3 :=
  Np.mmap (Np.vscale (if b then 1 else 0)) m.

(** [calcADPAxes], on the array [atoms.getAnisoTempFactors()] returns
    ([None] if the factors are not set).  The [(3N,3)] array it
    returns is given as its [N] blocks of shape [(3,3)]. *)
Definition calcADPAxes (anisous : option (list anisou)) (kwargs : gmap string R)
  : result (list Mat3) :=
  match anisous with
  | None => Raise ValueError
  | Some anisous =>
      '(axes, variances) ← _adp_decompose anisous;
      let axes := Np.mrev_cols <$> axes in
      torf ← _adp_torf kwargs variances;
      match torf with
      | Some torf => Ok (zip_with (λ m b, mask b m) axes torf)
      | None => Ok axes
      end
  end.

End Measure.

(** * The public entry points on arrays *)

Section Public.

Variable svd : Mat3 → Mat3 * Vec3 * Mat3.

(** [calcTransformation] on arrays: the shape checks, then the solver.
    That both arrays have three columns is in their type. *)
Definition calcTransformation (mobile target : list Vec3) (weights : option (list R))
  : result Transformation.t :=
  if decide (length mobile ≠ length target) then Raise ValueError else
  match weights with
  | Some w =>
      if decide (length w ≠ length mobile) then Raise ValueError
      else _calcTransformation svd mobile target weights
  | None => _calcTransformation svd mobile target weights
  end.

(** [applyTransformation] on an array. *)
Definition applyTransformation (t : Transformation.t) (coords : list Vec3)
  : result (list Vec3) :=
  _applyTransformation t coords.

(** [superpose]: solve, apply to [mobile], return both. *)
Definition superpose (mobile target : list Vec3) (weights : option (list R))
  : result (list Vec3 * Transformation.t) :=
  t ← calcTransformation mobile target weights;
  result ← applyTransformation t mobile;
  Ok (result, t).

End Public.

Arguments Np.sign : simpl never.
Arguments Rlt_decision : simpl never.
Arguments Rle_decision : simpl never.
Arguments R_eq_decision : simpl never.

(** * The formulas of the specification *)

(** [Σ_{i<n} f i] *)
Fixpoint bigsum (n : nat) (f : nat → R) : R :=
  match n with
  | O => 0
  | S n' => bigsum n' f + f n'
  end.

(** Entry [i] of an array, for use under a sum over its indices. *)
Definition at3 (a : list Vec3) (i : nat) : Vec3 := default Np.vzero (a !! i).
Definition at1 (w : list R) (i : nat) : R := default 0 (w !! i).

Inductive axis : Set := X | Y | Z.

Definition coord (k : axis) (v : Vec3) : R :=
  match k with X => vx v | Y => vy v | Z => vz v end.

Definition entry (m : Mat3) (r c : axis) : R :=
  coord c (match r with X => row0 m | Y => row1 m | Z => row2 m end).

Definition vec_of (f : axis → R) : Vec3 := mkVec3 (f X) (f Y) (f Z).
Definition mat_of (f : axis → axis → R) : Mat3 :=
  mkMat3 (vec_of (f X)) (vec_of (f Y)) (vec_of (f Z)).

(** [‖p − q‖²] *)
Definition sqdist (p q : Vec3) : R :=
  (vx p - vx q) ^ 2 + (vy p - vy q) ^ 2 + (vz p - vz q) ^ 2.

(** ** Solver *)

(** The mean [Σ x / N] and the weighted mean [Σ w·x / Σ w] of the rows. *)
Definition centroid (a : list Vec3) : Vec3 :=
  vec_of (λ k, bigsum (length a) (λ i, coord k (at3 a i)) / INR (length a)).

Definition weighted_centroid (w : list R) (a : list Vec3) : Vec3 :=
  vec_of (λ k, bigsum (length a) (λ i, at1 w i * coord k (at3 a i))
               / bigsum (length a) (at1 w)).

(** Coordinate [k] of row [i] of [a], measured from the centre [c]. *)
Definition centered (a : list Vec3) (c : Vec3) (k : axis) (i : nat) : R :=
  coord k (at3 a i) - coord k c.

(** [target_centered^T · mobile_centered], both centred at their means. *)
Definition cross_covariance (mob tar : list Vec3) : Mat3 :=
  mat_of (λ r c,
    bigsum (length mob)
      (λ i, centered tar (centroid tar) r i * centered mob (centroid mob) c i)).

(** [(target_centered · w)^T · (mobile_centered · w)], both centred at
    their weighted means, over the divisor [d]. *)
Definition weighted_cross_covariance (d : R) (w : list R) (mob tar : list Vec3) : Mat3 :=
  mat_of (λ r c,
    bigsum (length mob)
      (λ i, (at1 w i * centered tar (weighted_centroid w tar) r i)
            * (at1 w i * centered mob (weighted_centroid w mob) c i))
    / d).

(** The two divisors: [(Σ w)·(Σ w)], and [Σ w²]. *)
Definition square_of_sum (w : list R) : R :=
  bigsum (length w) (at1 w) * bigsum (length w) (at1 w).
Definition sum_of_squares (w : list R) : R :=
  bigsum (length w) (λ i, at1 w i * at1 w i).

(** [diag(1, 1, d)], and [V · diag(1,1,d) · Uᵀ] with [V = Vhᵀ]. *)
Definition diag11 (d : R) : Mat3 :=
  mkMat3 (mkVec3 1 0 0) (mkVec3 0 1 0) (mkVec3 0 0 d).

Definition kabsch_rotation (U Vh : Mat3) (d : R) : Mat3 :=
  Np.dot_m_m (Np.transpose Vh) (Np.dot_m_m (diag11 d) (Np.transpose U)).

(** The [Transformation] holding rotation [R] and translation [t]. *)
Definition transformation (rot : Mat3) (t : Vec3) : Transformation.t :=
  Transformation.mk (array_of_Mat3 rot) (array_of_Vec3 t).

(** What the comparison of the weighted and the unweighted solver asks
    of [linalg.svd]: dividing its argument by a positive number leaves
    [U] and [Vh] as they are (only the singular values are divided). *)
Definition svd_scale_invariant (svd : Mat3 → Mat3 * Vec3 * Mat3) : Prop :=
  ∀ (k : R) (m : Mat3), 0 < k →
    (svd (Np.mdivs m k)).1.1 = (svd m).1.1 ∧ (svd (Np.mdivs m k)).2 = (svd m).2.

(** Frame [mob] after [_superpose] has moved it onto [tar]. *)
Definition superposed (svd : Mat3 → Mat3 * Vec3 * Mat3) (tar mob : list Vec3)
  : list Vec3 :=
  Np.add_row
    (Np.dot_a_m (Np.sub_row mob (Np.mean0 mob))
                (rotation_of svd (cross_covariance mob tar)))
    (Np.mean0 tar).

(** ** RMSD and radius of gyration *)

(** Frame [i] of a stack, and the weights [_calcRMSD] uses for frame [i]. *)
Definition frame {A : Type} (s : list (list A)) (i : nat) : list A :=
  default [] (s !! i).

Definition frame_weights (weights : option weights_t) (i : nat) : option (list R) :=
  match weights with
  | None => None
  | Some (Weights2 w) => Some w
  | Some (Weights3 ws) => Some (frame ws i)
  end.

(** The weight shapes [calcRMSD] lets through for [N] atoms and [M] frames. *)
Definition weights_shape (N M : nat) (weights : option weights_t) : Prop :=
  match weights with
  | None => True
  | Some (Weights2 w) => length w = N
  | Some (Weights3 ws) => length ws = M ∧ Forall (λ w, length w = N) ws
  end.

(** [sqrt(Σ ‖ref − t‖² / N)], and [sqrt(Σ w·‖ref − t‖² / Σ w)] under weights. *)
Definition rmsd_of (ref t : list Vec3) (w : option (list R)) : R :=
  let N := length ref in
  match w with
  | None => sqrt (bigsum N (λ j, sqdist (at3 ref j) (at3 t j)) / INR N)
  | Some w =>
      sqrt (bigsum N (λ j, at1 w j * sqdist (at3 ref j) (at3 t j)) / bigsum N (at1 w))
  end.

(** [sqrt(Σ w·‖x − c‖² / Σ w)] about the weighted centroid [c]. *)
Definition gyration_of (w : list R) (a : list Vec3) : R :=
  let c := weighted_centroid w a in
  sqrt (bigsum (length a) (λ i, at1 w i * sqdist (at3 a i) c)
        / bigsum (length a) (at1 w)).

(** ** Principal axes *)

(** The variances of one atom as [calcADPAxes] compares them: the
    clamped eigenvalues, largest first. *)
Definition variances_of (eigh : Mat3 → Vec3 * Mat3) (a : anisou) : Vec3 :=
  Np.vrev (clamp (eigh (element_of a)).1).

(** The block of one atom before any continuity or filter step: the
    eigenvectors scaled by the root of the clamped eigenvalues, largest
    first. *)
Definition axes_of (eigh : Mat3 → Vec3 * Mat3) (a : anisou) : Mat3 :=
  let '(vals, vecs) := eigh (element_of a) in
  Np.mrev_cols (Np.mul_cols (Np.vmap sqrt (clamp vals)) vecs).

(** The variance a ratio keyword compares with the largest one:
    [ratio2] the second largest, [ratio] and [ratio3] the smallest. *)
Definition ratio_numerator (name : string) (v : Vec3) : R :=
  if decide (name = "ratio2"%string) then vy v else vz v.

(** * Concrete inputs *)

(** For a diagonal array with non-negative entries in descending order,
    [(I, diagonal, I)] is a singular value decomposition; for a
    diagonal array with entries in ascending order, the diagonal and
    the identity are its eigenvalues and eigenvectors.  These two stand
    for [linalg.svd] and [linalg.eigh] on the diagonal arrays below. *)
Definition identity3 : Mat3 :=
  mkMat3 (mkVec3 1 0 0) (mkVec3 0 1 0) (mkVec3 0 0 1).

Definition diagonal (m : Mat3) : Vec3 :=
  mkVec3 (vx (row0 m)) (vy (row1 m)) (vz (row2 m)).

Definition svd_diag (m : Mat3) : Mat3 * Vec3 * Mat3 :=
  (identity3, diagonal m, identity3).

Definition eigh_diag (m : Mat3) : Vec3 * Mat3 := (diagonal m, identity3).

(** A frame of three atoms on a line, a target with its middle atom
    lifted, and weights that favour the middle atom. *)
Definition line_frame : list Vec3 := [mkVec3 (-1) 0 0; mkVec3 0 0 0; mkVec3 1 0 0].
Definition bent_target : list Vec3 := [mkVec3 (-1) 0 0; mkVec3 0 3 0; mkVec3 1 0 0].
Definition middle_weights : list R := [1; 3; 1].

(** Two unit masses at [(−1,0,0)] and [(1,0,0)]; three at a corner. *)
Definition two_points : list Vec3 := [mkVec3 (-1) 0 0; mkVec3 1 0 0].
Definition corner : list Vec3 := [mkVec3 1 0 0; mkVec3 0 0 0; mkVec3 0 0 0].

(** Two atoms at [0] and [3] on the first axis, weighted 1 and 2. *)
Definition pair_frame : list Vec3 := [mkVec3 0 0 0; mkVec3 3 0 0].
Definition pair_weights : list R := [1; 2].

(** Reference [[0,0,0],[2,0,0]] and target [[0,0,0],[0,0,0]]. *)
Definition spread_pair : list Vec3 := [mkVec3 0 0 0; mkVec3 2 0 0].
Definition origin_pair : list Vec3 := [mkVec3 0 0 0; mkVec3 0 0 0].

(** A tensor with a negative eigenvalue, a positive definite one, and
    one with three equal eigenvalues; all diagonal, entries ascending. *)
Definition indefinite_atom : anisou := mk_anisou (-1) 1 4 0 0 0.
Definition definite_atom : anisou := mk_anisou 1 4 9 0 0 0.
Definition isotropic_atom : anisou := mk_anisou 9 9 9 0 0 0.

(** * The rest of [measure.py] *)

(** ** Two-dimensional arrays of other sizes, by their rows *)

(** [np.eye(n)] and [np.zeros((n, m))] *)
Definition eye (n : nat) : list (list R) :=
  (λ i, (λ j, if decide (i = j) then 1 else 0) <$> seq 0 n) <$> seq 0 n.

Definition zeros2 (n m : nat) : list (list R) := replicate n (replicate m 0).

(** [m[r, c] = x] *)
Definition set_entry (m : list (list R)) (r c : nat) (x : R) : list (list R) :=
  alter (λ row, <[c := x]> row) r m.

(** [m[r, c:c+3] = v], [m[r:r+3, c] = v] and [m[r:r+3, c:c+3] = b],
    for slices that lie inside [m]. *)
Definition set_row3 (m : list (list R)) (r c : nat) (v : Vec3) : list (list R) :=
  set_entry (set_entry (set_entry m r c (vx v)) r (c + 1) (vy v)) r (c + 2) (vz v).

Definition set_col3 (m : list (list R)) (r c : nat) (v : Vec3) : list (list R) :=
  set_entry (set_entry (set_entry m r c (vx v)) (r + 1) c (vy v)) (r + 2) c (vz v).

Definition set_block3 (m : list (list R)) (r c : nat) (b : Mat3) : list (list R) :=
  set_row3 (set_row3 (set_row3 m r c (row0 b)) (r + 1) c (row1 b)) (r + 2) c (row2 b).

(** [Transformation.ge4x4Matrix] *)
Definition ge4x4Matrix (self : Transformation.t) : result (list (list R)) :=
  let fourby4 := eye 4 in
  rotation ← as_Mat3 (Transformation._rotation self);
  let fourby4 := set_block3 fourby4 0 0 rotation in
  translation ← as_Vec3 (Transformation._translation self);
  let fourby4 := set_col3 fourby4 0 3 translation in
  Ok fourby4.

(** ** [calcRMSD] and [calcDistance] on arrays *)

(** [c.shape] *)
Definition shape_of (c : coords_t) : list nat :=
  match c with
  | Frame a => [length a; 3%nat]
  | Stack s => [length s; n_atoms_of c; 3%nat]
  end.

(** [weights.shape[:2]] of a weight array with three axes. *)
Definition shape2_of (ws : list (list R)) : list nat :=
  [length ws; match ws with [] => 0%nat | w :: _ => length w end].

(** [calcRMSD] on arrays: the shape checks, then [_calcRMSD].  That
    the reference has two axes, the target two or three, and that the
    last axis is 3 for the coordinates and 1 for the weights, is in the
    types. *)
Definition calcRMSD (reference : list Vec3) (target : coords_t)
    (weights : option weights_t) : result value :=
  let ref := reference in
  let tar := target in
  if decide (length ref ≠ n_atoms_of tar) then Raise ValueError else
  match weights with
  | None => _calcRMSD ref tar weights
  | Some (Weights2 w) =>
      if decide (length w = length ref) then _calcRMSD ref tar weights
      else Raise ValueError
  | Some (Weights3 ws) =>
      if decide (shape2_of ws = take 2 (shape_of target))
      then _calcRMSD ref tar weights
      else Raise ValueError
  end.

(** What [calcDistance] returns: an [(N,)] array, or an [(M,N)] one. *)
Inductive distances : Set :=
  | Distances1 (d : list R)
  | Distances2 (d : list (list R)).

(** [np.sqrt(np.power(d, 2).sum(axis=-1))] for [d] of shape [(N,3)]. *)
Definition row_norms (d : list Vec3) : list R := sqrt <$> Np.sum1 (Np.sq d).

(** [calcDistance] on arrays of shape [(N,3)] or [(M,N,3)]. *)
Definition calcDistance (one two : coords_t) : result distances :=
  if decide (shape_of one ≠ shape_of two) then Raise ValueError else
  match one, two with
  | Frame a, Frame b =>
      d ← Np.sub a b;
      Ok (Distances1 (row_norms d))
  | Stack s, Stack t =>
      ds ← mapM (λ '(a, b), d ← Np.sub a b; Ok (row_norms d)) (zip s t);
      Ok (Distances2 ds)
  | _, _ => Raise ValueError
  end.

(** ** [calcDeformVector] *)

(** What the function reads from an atoms object: [str(atoms)] and
    [atoms.getCoordinates()]. *)
Record atoms_t : Set := mk_atoms { atoms_str : string; atoms_coordinates : list Vec3 }.

(** [a.flatten()] for [a] of shape [(N,3)]. *)
Definition flatten (a : list Vec3) : list R := a ≫= (λ v, [vx v; vy v; vz v]).

Definition double_quote : string := String (Ascii.ascii_of_nat 34) EmptyString.

(** [calcDeformVector]: the array and the name it hands to
    [prody.Vector]. *)
Definition calcDeformVector (from_atoms to_atoms : atoms_t) : result (list R * string) :=
  let name :=
    String.append double_quote
      (String.append (atoms_str from_atoms)
         (String.append double_quote
            (String.append " => "
               (String.append double_quote
                  (String.append (atoms_str to_atoms) double_quote))))) in
  let name := if decide (30 < String.length name)%nat
              then "Deformation"%string else name in
  d ← Np.sub (atoms_coordinates to_atoms) (atoms_coordinates from_atoms);
  Ok (flatten d, name).

(** ** [calcADPs] and [buildADPMatrix] *)

Section Tensors.

Variable eigh : Mat3 → Vec3 * Mat3.

(** [calcADPs], on [atom.getAnisoTempFactor()] ([None] if not set). *)
Definition calcADPs (anisou : option anisou) : result (Vec3 * Mat3) :=
  match anisou with
  | None => Raise ValueError
  | Some anisou =>
      let '(vals, vecs) := eigh (element_of anisou) in
      Ok (Np.vrev vals, Np.mrev_cols vecs)
  end.

End Tensors.

(** [buildADPMatrix], on [atoms.getAnisoTempFactors()] ([None] if the
    factors are not set); [atoms.getNumOfAtoms()] is the number of its
    records.  The [(3N,3N)] array is given by its rows. *)
Definition buildADPMatrix (anisous : option (list anisou)) : result (list (list R)) :=
  match anisous with
  | None => Raise ValueError
  | Some anisous =>
      let n_atoms := length anisous in
      let n_dof := (n_atoms * 3)%nat in
      let adp := zeros2 n_dof n_dof in
      for_each (λ i adp,
                  anisou ← getitem anisous i;
                  Ok (set_block3 adp (i * 3) (i * 3) (element_of anisou)))
               (seq 0 n_atoms) adp
  end.

(** ** Notions used in the statements about them *)

(** [p · R + t], the image of one point. *)
Definition move (rot : Mat3) (t : Vec3) (p : Vec3) : Vec3 :=
  Np.vadd (Np.dot_v_m p rot) t.

(** [R · Rᵀ = Rᵀ · R = I] *)
Definition orthogonal (m : Mat3) : Prop :=
  Np.dot_m_m m (Np.transpose m) = identity3
  ∧ Np.dot_m_m (Np.transpose m) m = identity3.

(** [m @ v] for an array given by its rows, and the column [(x, y, z, 1)]. *)
Definition mat_vec (m : list (list R)) (v : list R) : list R :=
  (λ row, Np.inner row v) <$> m.

Definition homogeneous (p : Vec3) : list R := [vx p; vy p; vz p; 1].

(** A quarter turn about the third axis, and a shift. *)
Definition quarter_turn : Mat3 :=
  mkMat3 (mkVec3 0 1 0) (mkVec3 (-1) 0 0) (mkVec3 0 0 1).
Definition shift_2_3_0 : Vec3 := mkVec3 2 3 0.


(** [diag(s)] *)
Definition diag3 (s : Vec3) : Mat3 :=
  mkMat3 (mkVec3 (vx s) 0 0) (mkVec3 0 (vy s) 0) (mkVec3 0 0 (vz s)).

(** What [linalg.svd] promises about the matrix [m] it is given:
    [m = U · diag(s) · Vh] with [U] and [Vh] orthogonal and no singular
    value negative. *)
Definition svd_decomposes (svd : Mat3 → Mat3 * Vec3 * Mat3) (m : Mat3) : Prop :=
  m = Np.dot_m_m (svd m).1.1 (Np.dot_m_m (diag3 (svd m).1.2) (svd m).2)
  ∧ orthogonal (svd m).1.1 ∧ orthogonal (svd m).2
  ∧ 0 <= vx (svd m).1.2 ∧ 0 <= vy (svd m).1.2 ∧ 0 <= vz (svd m).1.2.

(** The centre the solver uses for a frame: the mean of its rows, or
    their weighted mean. *)
Definition centre_of (weights : option (list R)) (a : list Vec3) : Vec3 :=
  match weights with
  | None => centroid a
  | Some w => weighted_centroid w a
  end.

(** The four corners of a cube that span a regular tetrahedron. *)
Definition tetrahedron : list Vec3 :=
  [mkVec3 1 1 1; mkVec3 1 (-1) (-1); mkVec3 (-1) 1 (-1); mkVec3 (-1) (-1) 1].

(** Frame [mov] after [_superpose] has moved it the way it would move
    [mob] onto [tar]. *)
Definition moved_along (svd : Mat3 → Mat3 * Vec3 * Mat3) (tar mob mov : list Vec3)
  : list Vec3 :=
  let rotation := rotation_of svd (cross_covariance mob tar) in
  Np.add_row (Np.dot_a_m mov rotation)
             (Np.vsub (Np.mean0 tar) (Np.dot_v_m (Np.mean0 mob) rotation)).

(** ** The loop of [calcADPAxes] as a recursion over the atoms *)

Section Chain.

Variable eigh : Mat3 → Vec3 * Mat3.

(** The block stored for the first atom, and the block stored for an
    atom when the block of the atom before it is [prev] (both before
    the columns are sorted again). *)
Definition first_block (a : anisou) : Mat3 :=
  Np.mul_cols (Np.vmap sqrt (clamp (eigh (element_of a)).1)) (eigh (element_of a)).2.

Definition next_block (prev : Mat3) (a : anisou) : Mat3 :=
  Np.mul_cols
    (Np.vmul (Np.vmap sqrt (clamp (eigh (element_of a)).1))
       (Np.vmap Np.sign (Np.col_dots (eigh (element_of a)).2 prev)))
    (eigh (element_of a)).2.

Fixpoint adp_chain (prev : Mat3) (l : list anisou) : list Mat3 :=
  match l with
  | [] => []
  | a :: l' => next_block prev a :: adp_chain (next_block prev a) l'
  end.

End Chain.

(** Column [c] of a [(3,3)] array, and the column it becomes under
    [[:, [2,1,0]]]. *)
Definition column_of (c : axis) (m : Mat3) : Vec3 := vec_of (λ r, entry m r c).

Definition mirrored (c : axis) : axis :=
  match c with X => Z | Y => Y | Z => X end.

(** A factor [np.sign] can return. *)
Definition is_sign (x : R) : Prop := x = -1 ∨ x = 0 ∨ x = 1.

(** What [linalg.eigh] promises about [m]: [m · vecs = vecs · diag(vals)],
    column [j] of [vecs] being an eigenvector for [vals[j]]. *)
Definition eigenpairs (m : Mat3) (vals : Vec3) (vecs : Mat3) : Prop :=
  Np.dot_m_m m vecs = Np.mul_cols vals vecs.

(** ** Entries of an array given by its rows *)

(** [m[r, c]], and the position of an axis in a block of three. *)
Definition entry2 (m : list (list R)) (r c : nat) : R :=
  default 0 (m !! r ≫= (.!! c)).

Definition index_of (k : axis) : nat :=
  match k with X => 0 | Y => 1 | Z => 2 end.

(** An array of shape [(n, n)]. *)
Definition square (n : nat) (m : list (list R)) : Prop :=
  length m = n ∧ Forall (λ row, length row = n) m.

(** [array.reshape((-1, 3))] for a one-dimensional array. *)
Fixpoint unflatten (l : list R) : list Vec3 :=
  match l with
  | a :: b :: c :: l' => mkVec3 a b c :: unflatten l'
  | _ => []
  end.

(** * Proof steps used throughout *)

(** Unfold the array operations on [Vec3] and [Mat3] down to their
    entries.  Reduction is kept to the record projections: the numbers
    themselves are left alone. *)
Ltac np_unfold :=
  unfold Np.dot_m_m, Np.dot_v_m, Np.mdivs, Np.mul_cols, Np.col_dots,
    Np.mrev_cols, Np.vrev, Np.transpose, Np.col0, Np.col1, Np.col2, Np.mmap,
    Np.vsum, Np.vsq, Np.vsub, Np.vadd, Np.vmul, Np.vscale, Np.vdivs,
    Np.vmap, Np.vmap2, Np.mzero, Np.vzero;
  cbn [vx vy vz row0 row1 row2].

(** Settle every comparison of two numerals under an [if]. *)
Ltac settle_ifs :=
  repeat match goal with
         | |- context [decide (?x < ?y)] => destruct (decide (x < y)); try lra
         end.

(** * Sums and broadcasting *)


Lemma bind_Ok {A B : Type} (f : A → result B) (a : A) : (Ok a ≫= f) = f a.
Proof. reflexivity. Qed.

Lemma bcast0_same {A B C : Type} (f : A → B → C) (l1 : list A) (l2 : list B) :
  length l1 = length l2 → Np.bcast0 f l1 l2 = Ok (zip_with f l1 l2).
Proof. intros H. unfold Np.bcast0. by rewrite decide_True. Qed.

Lemma dot_T_same (a b : list Vec3) :
  length a = length b →
  Np.dot_T a b =
    Ok (mat_of (λ r c, Np.inner (Np.column (coord r) a) (Np.column (coord c) b))).
Proof. intros H. unfold Np.dot_T. by rewrite decide_True. Qed.

Lemma bigsum_ext (n : nat) (f g : nat → R) :
  (∀ i, (i < n)%nat → f i = g i) → bigsum n f = bigsum n g.
Proof.
  induction n as [|n IH]; intros H; simpl; [done|].
  rewrite IH, H; [done | lia | intros; apply H; lia].
Qed.

Lemma sum_app (l1 l2 : list R) : Np.sum (l1 ++ l2) = Np.sum l1 + Np.sum l2.
Proof.
  unfold Np.sum. induction l1 as [|x l1 IH]; simpl; [lra|]. rewrite IH. lra.
Qed.

Lemma at1_lookup (l : list R) (i : nat) (x : R) : l !! i = Some x → at1 l i = x.
Proof. unfold at1. by intros ->. Qed.

Lemma at3_lookup (l : list Vec3) (i : nat) (x : Vec3) : l !! i = Some x → at3 l i = x.
Proof. unfold at3. by intros ->. Qed.

Lemma sum_bigsum (l : list R) : Np.sum l = bigsum (length l) (at1 l).
Proof.
  induction l as [|x l IH] using rev_ind; [done|].
  rewrite sum_app, length_app, Nat.add_comm, IH. cbn [bigsum length Nat.add].
  replace (Np.sum [x]) with x by (unfold Np.sum; simpl; lra). f_equal.
  - apply bigsum_ext. intros i Hi. unfold at1. by rewrite lookup_app_l.
  - symmetry. apply at1_lookup. by apply list_lookup_middle.
Qed.

(** A sum over a list, as a sum over its indices. *)
Lemma sum_indexed (l : list R) (n : nat) (f : nat → R) :
  length l = n → (∀ i x, l !! i = Some x → x = f i) → Np.sum l = bigsum n f.
Proof.
  intros <- H. rewrite sum_bigsum. apply bigsum_ext. intros i Hi.
  destruct (lookup_lt_is_Some_2 l i Hi) as [x Hx].
  rewrite (at1_lookup _ _ _ Hx). by apply H.
Qed.

(** * The [Transformation] constructor *)

Lemma setRotation_spec (self : Transformation.t) (rotation : pyobj) :
  Transformation.setRotation self rotation =
    if Transformation.is_3x3 rotation
    then Ok (Transformation.mk rotation (Transformation._translation self))
    else Raise TypeError.
Proof.
  destruct rotation as [|a|]; simpl; try done.
  case_decide; [by rewrite bool_decide_eq_true_2 | by rewrite bool_decide_eq_false_2].
Qed.

Lemma setTranslation_spec (self : Transformation.t) (translation : pyobj) :
  Transformation.setTranslation self translation =
    if Transformation.is_len3 translation
    then Ok (Transformation.mk (Transformation._rotation self) translation)
    else Raise TypeError.
Proof.
  destruct translation as [|a|]; simpl; try done.
  case_decide; [by rewrite bool_decide_eq_true_2 | by rewrite bool_decide_eq_false_2].
Qed.

(** The setters keep a well-shaped object well shaped, and leave no
    object behind when they raise. *)
Lemma setRotation_well_shaped (self self' : Transformation.t) (rotation : pyobj) :
  Transformation.well_shaped self →
  Transformation.setRotation self rotation = Ok self' →
  Transformation.well_shaped self'.
Proof.
  intros [_ Ht]. rewrite setRotation_spec.
  destruct (Transformation.is_3x3 rotation) eqn:Hr; [|done].
  intros [= <-]. by split.
Qed.

Lemma setTranslation_well_shaped (self self' : Transformation.t) (translation : pyobj) :
  Transformation.well_shaped self →
  Transformation.setTranslation self translation = Ok self' →
  Transformation.well_shaped self'.
Proof.
  intros [Hr _]. rewrite setTranslation_spec.
  destruct (Transformation.is_len3 translation) eqn:Ht; [|done].
  intros [= <-]. by split.
Qed.

(** C9.  [Transformation(rotation, translation)] raises [TypeError]
    unless [rotation] is an array of shape [(3,3)] and [translation] an
    array of shape [(3,)], and otherwise returns the object holding
    exactly these two; so every object it returns is well shaped. *)
Theorem C9_constructor_validates (rotation translation : pyobj) :
  Transformation.__init__ rotation translation =
    (if Transformation.is_3x3 rotation && Transformation.is_len3 translation
     then Ok (Transformation.mk rotation translation)
     else Raise TypeError)
  ∧ (∀ t, Transformation.__init__ rotation translation = Ok t →
          Transformation.well_shaped t).
Proof.
  assert (Transformation.__init__ rotation translation =
    (if Transformation.is_3x3 rotation && Transformation.is_len3 translation
     then Ok (Transformation.mk rotation translation)
     else Raise TypeError)) as E.
  { unfold Transformation.__init__. rewrite setRotation_spec.
    destruct (Transformation.is_3x3 rotation); [|done].
    rewrite bind_Ok, setTranslation_spec. simpl.
    by destruct (Transformation.is_len3 translation). }
  split; [done|]. intros t. rewrite E.
  destruct (Transformation.is_3x3 rotation) eqn:Hr; [|done].
  destruct (Transformation.is_len3 translation) eqn:Ht; [|done].
  intros [= <-]. by split.
Qed.

Lemma C9_constructor_validates_witness :
  Transformation.__init__ (array_of_Mat3 identity3) (array_of_Vec3 Np.vzero)
    = Ok (transformation identity3 Np.vzero)
  ∧ Transformation.well_shaped (transformation identity3 Np.vzero).
Proof.
  split; [reflexivity|].
  exact (proj2 (C9_constructor_validates (array_of_Mat3 identity3)
                  (array_of_Vec3 Np.vzero)) _ eq_refl).
Defined.

(** * RMSD *)

Lemma for_each_fill {A : Type} (f : nat → A → result R) (g : nat → A → R)
    (l : list A) (k : nat) (acc : list R) :
  length acc = (k + length l)%nat →
  (∀ i t, l !! i = Some t → f (k + i)%nat t = Ok (g (k + i)%nat t)) →
  for_each (λ '(i, t) rmsd, x ← f i t; Ok (<[i := x]> rmsd))
           (zip (seq k (length l)) l) acc
  = Ok (take k acc ++ imap (λ i, g (k + i)%nat) l).
Proof.
  revert k acc. induction l as [|t l IH]; intros k acc Hlen Hf; simpl.
  - rewrite take_ge by (simpl in Hlen; lia). by rewrite app_nil_r.
  - simpl in Hlen. specialize (Hf 0%nat t eq_refl) as Hf0.
    rewrite Nat.add_0_r in Hf0. rewrite Hf0, !bind_Ok.
    rewrite (IH (S k)).
    + f_equal. rewrite Nat.add_0_r.
      rewrite (take_S_r _ _ (g k t)) by (apply list_lookup_insert_eq; lia).
      rewrite take_insert_ge by lia. rewrite <- app_assoc. simpl.
      do 2 f_equal. apply imap_ext. intros i x _. simpl. f_equal. lia.
    + rewrite length_insert. lia.
    + intros i x Hx. replace (S k + i)%nat with (k + S i)%nat by lia.
      by apply Hf.
Qed.

Lemma fill_per_frame_ok {A : Type} (f : nat → A → result R) (g : nat → A → R)
    (tar : list A) :
  (∀ i t, tar !! i = Some t → f i t = Ok (g i t)) →
  fill_per_frame f tar = Ok (imap g tar).
Proof.
  intros Hf. unfold fill_per_frame.
  rewrite (for_each_fill f g tar 0); [done | by rewrite length_replicate | done].
Qed.

Lemma vsum_vsq_vsub (p q : Vec3) : Np.vsum (Np.vsq (Np.vsub p q)) = sqdist p q.
Proof. unfold sqdist. destruct p, q. np_unfold. ring. Qed.

Lemma sum_all_sq_sub (ref t : list Vec3) :
  length t = length ref →
  Np.sum_all (Np.sq (zip_with Np.vsub ref t))
  = bigsum (length ref) (λ j, sqdist (at3 ref j) (at3 t j)).
Proof.
  intros Hlen. unfold Np.sum_all, Np.sq. apply sum_indexed.
  - rewrite !length_fmap, length_zip_with. lia.
  - intros i x. rewrite !list_lookup_fmap, lookup_zip_with.
    destruct (ref !! i) as [p|] eqn:Hp; [|done].
    destruct (t !! i) as [q|] eqn:Hq; [|done]. simpl. intros [= <-].
    rewrite (at3_lookup _ _ _ Hp), (at3_lookup _ _ _ Hq). apply vsum_vsq_vsub.
Qed.

Lemma sum_all_sq_sub_weighted (ref t : list Vec3) (w : list R) :
  length t = length ref → length w = length ref →
  Np.sum_all (zip_with (λ r k, Np.vscale k r) (Np.sq (zip_with Np.vsub ref t)) w)
  = bigsum (length ref) (λ j, at1 w j * sqdist (at3 ref j) (at3 t j)).
Proof.
  intros Hlen Hw. unfold Np.sum_all, Np.sq. apply sum_indexed.
  - rewrite length_fmap, length_zip_with, length_fmap, length_zip_with. lia.
  - intros i x. rewrite list_lookup_fmap, lookup_zip_with, list_lookup_fmap, lookup_zip_with.
    destruct (ref !! i) as [p|] eqn:Hp; [|done].
    destruct (t !! i) as [q|] eqn:Hq; [|done]. simpl.
    destruct (w !! i) as [k|] eqn:Hk; [|done]. simpl. intros [= <-].
    rewrite (at3_lookup _ _ _ Hp), (at3_lookup _ _ _ Hq), (at1_lookup _ _ _ Hk).
    rewrite <- vsum_vsq_vsub. destruct p, q. np_unfold. ring.
Qed.

Lemma sum_weights (w : list R) (n : nat) : length w = n → Np.sum w = bigsum n (at1 w).
Proof. intros <-. apply sum_bigsum. Qed.

Lemma calcRMSD_frame_unweighted (ref tar : list Vec3) :
  ref ≠ [] → length tar = length ref →
  _calcRMSD ref (Frame tar) None = Ok (Scalar (rmsd_of ref tar None)).
Proof.
  intros Hne Hlen. unfold _calcRMSD.
  rewrite decide_False by (by destruct ref).
  unfold Np.sub. rewrite bcast0_same by done. rewrite bind_Ok.
  rewrite sum_all_sq_sub by done. unfold rmsd_of. do 3 f_equal.
  unfold Rdiv. ring.
Qed.

Lemma calcRMSD_frame_weighted (ref tar : list Vec3) (w : list R) :
  length tar = length ref → length w = length ref →
  _calcRMSD ref (Frame tar) (Some (Weights2 w))
  = Ok (Scalar (rmsd_of ref tar (Some w))).
Proof.
  intros Hlen Hw. unfold _calcRMSD, Np.sub, Np.mul_col.
  rewrite bcast0_same by done. rewrite bind_Ok.
  rewrite bcast0_same
    by (unfold Np.sq; rewrite length_fmap, length_zip_with; lia).
  rewrite bind_Ok, sum_all_sq_sub_weighted by done.
  unfold rmsd_of. do 3 f_equal.
  rewrite (sum_weights w (length ref)) by done. unfold Rdiv. ring.
Qed.

Lemma calcRMSD_stack (ref : list Vec3) (tars : list (list Vec3))
    (weights : option weights_t) :
  (weights = None → ref ≠ []) →
  Forall (λ t, length t = length ref) tars →
  weights_shape (length ref) (length tars) weights →
  _calcRMSD ref (Stack tars) weights
  = Ok (Array1 (imap (λ i t, rmsd_of ref t (frame_weights weights i)) tars)).
Proof.
  intros Hne Hall Hshape.
  assert (∀ i t, tars !! i = Some t → length t = length ref) as Hfr.
  { intros i t Ht. by eapply (Forall_lookup_1 _ _ _ _ Hall). }
  destruct weights as [[w|ws]|]; simpl in Hshape.
  - (* one weight vector for all frames *)
    unfold _calcRMSD.
    rewrite (fill_per_frame_ok _
               (λ _ t, bigsum (length ref)
                         (λ j, at1 w j * sqdist (at3 ref j) (at3 t j)))).
    + rewrite bind_Ok. do 2 f_equal. apply list_eq. intros i.
      rewrite list_lookup_fmap, !list_lookup_imap.
      destruct (tars !! i) as [t|]; [|done]. simpl.
      do 2 f_equal. rewrite (sum_weights w (length ref)) by done.
      unfold Rdiv. ring.
    + intros i t Ht. unfold Np.sub, Np.mul_col.
      rewrite bcast0_same by (symmetry; eauto). rewrite bind_Ok.
      rewrite bcast0_same
        by (unfold Np.sq; rewrite length_fmap, length_zip_with;
            specialize (Hfr i t Ht); lia).
      rewrite bind_Ok. f_equal. apply sum_all_sq_sub_weighted; eauto.
  - (* one weight vector per frame *)
    destruct Hshape as [HM Hws].
    assert (∀ i w, ws !! i = Some w → length w = length ref) as Hwl.
    { intros i w Hw. by eapply (Forall_lookup_1 _ _ _ _ Hws). }
    unfold _calcRMSD.
    rewrite (fill_per_frame_ok _
               (λ i t, bigsum (length ref)
                         (λ j, at1 (frame ws i) j
                               * sqdist (at3 ref j) (at3 t j)))).
    + rewrite bind_Ok. unfold Np.div1.
      rewrite bcast0_same by (by rewrite length_imap, length_fmap).
      rewrite bind_Ok. do 2 f_equal. apply list_eq. intros i.
      rewrite list_lookup_fmap, lookup_zip_with, !list_lookup_imap.
      rewrite list_lookup_fmap.
      destruct (tars !! i) as [t|] eqn:Ht; [|done]. simpl.
      destruct (lookup_lt_is_Some_2 ws i) as [w Hw].
      { rewrite HM. eapply lookup_lt_Some, Ht. }
      unfold frame. rewrite Hw. simpl.
      do 3 f_equal. by apply sum_weights, (Hwl i).
    + intros i t Ht. unfold Np.sub, Np.mul_col.
      rewrite bcast0_same by (symmetry; eauto). rewrite bind_Ok.
      destruct (lookup_lt_is_Some_2 ws i) as [w Hw].
      { rewrite HM. eapply lookup_lt_Some, Ht. }
      unfold getitem, frame. rewrite Hw, bind_Ok. simpl.
      rewrite bcast0_same
        by (unfold Np.sq; rewrite length_fmap, length_zip_with;
            specialize (Hfr i t Ht); specialize (Hwl i w Hw); lia).
      rewrite bind_Ok. f_equal. apply sum_all_sq_sub_weighted; eauto.
  - (* no weights *)
    specialize (Hne eq_refl).
    unfold _calcRMSD. rewrite decide_False by (by destruct ref).
    rewrite (fill_per_frame_ok _
               (λ _ t, bigsum (length ref)
                         (λ j, sqdist (at3 ref j) (at3 t j)))).
    + rewrite bind_Ok. do 2 f_equal. apply list_eq. intros i.
      rewrite list_lookup_fmap, !list_lookup_imap.
      destruct (tars !! i) as [t|]; [|done]. simpl.
      do 2 f_equal. unfold Rdiv. ring.
    + intros i t Ht. unfold Np.sub.
      rewrite bcast0_same by (symmetry; eauto). rewrite bind_Ok.
      f_equal. apply sum_all_sq_sub; eauto.
Qed.

(** C6.  [_calcRMSD] on a reference of [N >= 1] atoms: for one
    unweighted [(N,3)] target it returns the scalar
    [sqrt(Σ ‖ref − target‖² / N)]; for a stack of [M] targets it
    returns an array of [M] numbers, entry [i] being the RMSD of frame
    [i], and with a weight stack [(M,N,1)] the divisor inside entry [i]
    is the sum of [weights[i]] alone. *)
Theorem C6_rmsd (ref : list Vec3) :
  ref ≠ [] →
  (∀ tar, length tar = length ref →
     _calcRMSD ref (Frame tar) None
     = Ok (Scalar (sqrt (bigsum (length ref)
                           (λ j, sqdist (at3 ref j) (at3 tar j))
                         / INR (length ref)))))
  ∧ (∀ tars weights,
       Forall (λ t, length t = length ref) tars →
       weights_shape (length ref) (length tars) weights →
       ∃ xs, _calcRMSD ref (Stack tars) weights = Ok (Array1 xs)
             ∧ length xs = length tars
             ∧ ∀ i t, tars !! i = Some t →
                 xs !! i = Some (rmsd_of ref t (frame_weights weights i)))
  ∧ (∀ ws i w t,
       ws !! i = Some w →
       rmsd_of ref t (frame_weights (Some (Weights3 ws)) i)
       = sqrt (bigsum (length ref)
                 (λ j, at1 w j * sqdist (at3 ref j) (at3 t j))
               / bigsum (length ref) (at1 w))).
Proof.
  intros Hne. split; [|split].
  - intros tar Hlen. by apply calcRMSD_frame_unweighted.
  - intros tars weights Hall Hshape. eexists. split; [|split].
    + by apply calcRMSD_stack.
    + by rewrite length_imap.
    + intros i t Ht. by rewrite list_lookup_imap, Ht.
  - intros ws i w t Hw. simpl. unfold frame. by rewrite Hw.
Qed.

(** * The optimal-rotation solver *)

Lemma vec_ext (u v : Vec3) : (∀ k, coord k u = coord k v) → u = v.
Proof.
  intros H. destruct u, v. pose proof (H X). pose proof (H Y). pose proof (H Z).
  simpl in *. by subst.
Qed.

Lemma mat_ext (a b : Mat3) : (∀ r c, entry a r c = entry b r c) → a = b.
Proof.
  intros H. destruct a as [a0 a1 a2], b as [b0 b1 b2].
  f_equal; apply vec_ext; intros k; [apply (H X k) | apply (H Y k) | apply (H Z k)].
Qed.

Lemma coord_vec_of (f : axis → R) (k : axis) : coord k (vec_of f) = f k.
Proof. by destruct k. Qed.

Lemma entry_mat_of (f : axis → axis → R) (r c : axis) : entry (mat_of f) r c = f r c.
Proof. by destruct r, c. Qed.

Lemma coord_vsub (k : axis) (p q : Vec3) : coord k (Np.vsub p q) = coord k p - coord k q.
Proof. by destruct k. Qed.

Lemma coord_vscale (k : axis) (c : R) (p : Vec3) : coord k (Np.vscale c p) = c * coord k p.
Proof. by destruct k. Qed.

Lemma coord_vdivs (k : axis) (p : Vec3) (c : R) : coord k (Np.vdivs p c) = coord k p / c.
Proof. by destruct k. Qed.

Lemma entry_mdivs (m : Mat3) (d : R) (r c : axis) :
  entry (Np.mdivs m d) r c = entry m r c / d.
Proof. by destruct r, c. Qed.

Lemma coord_sum0 (k : axis) (a : list Vec3) :
  coord k (Np.sum0 a) = Np.sum (coord k <$> a).
Proof.
  induction a as [|p a IH].
  - by destruct k.
  - change (Np.sum0 (p :: a)) with (Np.vadd p (Np.sum0 a)).
    change (Np.sum (coord k <$> p :: a)) with (coord k p + Np.sum (coord k <$> a)).
    rewrite <- IH. by destruct k.
Qed.

Lemma mean0_centroid (a : list Vec3) : Np.mean0 a = centroid a.
Proof.
  apply vec_ext. intros k. unfold Np.mean0, centroid.
  rewrite coord_vdivs, coord_vec_of, coord_sum0. f_equal.
  apply sum_indexed; [by rewrite length_fmap|].
  intros i x. rewrite list_lookup_fmap. destruct (a !! i) as [p|] eqn:Hp; [|done].
  intros [= <-]. by rewrite (at3_lookup _ _ _ Hp).
Qed.

Lemma weighted_mean_centroid (a : list Vec3) (w : list R) :
  length w = length a →
  Np.vdivs (Np.sum0 (zip_with (λ r k, Np.vscale k r) a w)) (Np.sum w)
  = weighted_centroid w a.
Proof.
  intros Hw. apply vec_ext. intros k. unfold weighted_centroid.
  rewrite coord_vdivs, coord_vec_of, coord_sum0. f_equal.
  - apply sum_indexed; [rewrite length_fmap, length_zip_with; lia|].
    intros i x. rewrite list_lookup_fmap, lookup_zip_with.
    destruct (a !! i) as [p|] eqn:Hp; [|done].
    destruct (w !! i) as [c|] eqn:Hc; [|done]. simpl. intros [= <-].
    by rewrite (at3_lookup _ _ _ Hp), (at1_lookup _ _ _ Hc), coord_vscale.
  - by apply sum_weights.
Qed.

Lemma inner_indexed (x y : list R) (n : nat) (f : nat → R) :
  length x = n → length y = n →
  (∀ i a b, x !! i = Some a → y !! i = Some b → a * b = f i) →
  Np.inner x y = bigsum n f.
Proof.
  intros Hx Hy H. unfold Np.inner. apply sum_indexed.
  - rewrite length_zip_with. lia.
  - intros i z. rewrite lookup_zip_with.
    destruct (x !! i) as [a|] eqn:Ha; [|done].
    destruct (y !! i) as [b|] eqn:Hb; [|done]. simpl. intros [= <-]. eauto.
Qed.

Lemma lookup_centered (a : list Vec3) (c : Vec3) (k : axis) (i : nat) (x : R) :
  Np.column (coord k) (Np.sub_row a c) !! i = Some x → x = centered a c k i.
Proof.
  unfold Np.column, Np.sub_row, centered. rewrite !list_lookup_fmap.
  destruct (a !! i) as [p|] eqn:Hp; [|done]. simpl. intros [= <-].
  by rewrite (at3_lookup _ _ _ Hp), coord_vsub.
Qed.

Lemma lookup_weighted_centered (a : list Vec3) (c : Vec3) (w : list R)
    (k : axis) (i : nat) (x : R) :
  Np.column (coord k) (zip_with (λ r s, Np.vscale s r) (Np.sub_row a c) w) !! i = Some x →
  x = at1 w i * centered a c k i.
Proof.
  unfold Np.column, Np.sub_row, centered.
  rewrite list_lookup_fmap, lookup_zip_with, list_lookup_fmap.
  destruct (a !! i) as [p|] eqn:Hp; [|done]. simpl.
  destruct (w !! i) as [s|] eqn:Hs; [|done]. simpl. intros [= <-].
  by rewrite (at3_lookup _ _ _ Hp), (at1_lookup _ _ _ Hs), coord_vscale, coord_vsub.
Qed.

Lemma init_transformation (rot : Mat3) (t : Vec3) :
  Transformation.__init__ (array_of_Mat3 rot) (array_of_Vec3 t)
  = Ok (transformation rot t).
Proof. reflexivity. Qed.

Section Solver.

Variable svd : Mat3 → Mat3 * Vec3 * Mat3.

Lemma matrix_unweighted (mob tar : list Vec3) :
  length tar = length mob →
  _calcTransformation_matrix mob tar None
  = Ok (cross_covariance mob tar, centroid mob, centroid tar).
Proof.
  intros Hlen. unfold _calcTransformation_matrix.
  rewrite dot_T_same by (unfold Np.sub_row; by rewrite !length_fmap).
  rewrite bind_Ok, !mean0_centroid. do 3 f_equal.
  apply mat_ext. intros r c. unfold cross_covariance. rewrite !entry_mat_of.
  apply inner_indexed.
  - unfold Np.column, Np.sub_row. by rewrite !length_fmap.
  - unfold Np.column, Np.sub_row. by rewrite !length_fmap.
  - intros i a b Ha Hb.
    by rewrite (lookup_centered _ _ _ _ _ Ha), (lookup_centered _ _ _ _ _ Hb).
Qed.

(** C5.  Without weights, [_calcTransformation] centres both arrays
    at their means, forms [H = target_centered^T · mobile_centered],
    takes [U, s, Vh = svd(H)], and returns the [Transformation] with
    rotation [R = V · diag(1,1,d) · Uᵀ], [d = sign(det H)], and
    translation [target_centroid − mobile_centroid · R]. *)
Theorem C5_unweighted_solver (mob tar : list Vec3) (U Vh : Mat3) (s : Vec3) :
  mob ≠ [] →
  length tar = length mob →
  svd (cross_covariance mob tar) = (U, s, Vh) →
  let H := cross_covariance mob tar in
  let rot := kabsch_rotation U Vh (Np.sign (Np.det H)) in
  _calcTransformation svd mob tar None
  = Ok (transformation rot
          (Np.vsub (centroid tar) (Np.dot_v_m (centroid mob) rot))).
Proof.
  intros _ Hlen Hsvd H rot. unfold _calcTransformation.
  rewrite matrix_unweighted by done. rewrite bind_Ok.
  unfold rotation_of. fold H. subst H. rewrite Hsvd.
  apply init_transformation.
Qed.

Lemma matrix_weighted (mob tar : list Vec3) (w : list R) :
  length tar = length mob →
  length w = length mob →
  _calcTransformation_matrix mob tar (Some w)
  = Ok (weighted_cross_covariance (sum_of_squares w) w mob tar,
        weighted_centroid w mob, weighted_centroid w tar).
Proof.
  intros Hlen Hw. unfold _calcTransformation_matrix, Np.mul_col.
  rewrite (bcast0_same _ mob) by done. rewrite bind_Ok.
  rewrite (bcast0_same _ tar) by lia. rewrite bind_Ok.
  rewrite !weighted_mean_centroid by lia.
  rewrite (bcast0_same _ (Np.sub_row tar _))
    by (unfold Np.sub_row; rewrite length_fmap; lia).
  rewrite bind_Ok.
  rewrite (bcast0_same _ (Np.sub_row mob _))
    by (unfold Np.sub_row; rewrite length_fmap; lia).
  rewrite bind_Ok.
  rewrite dot_T_same
    by (unfold Np.sub_row; rewrite !length_zip_with, !length_fmap; lia).
  rewrite bind_Ok. do 3 f_equal.
  apply mat_ext. intros r c. unfold weighted_cross_covariance.
  rewrite entry_mdivs, !entry_mat_of. f_equal.
  - apply inner_indexed.
    + unfold Np.column, Np.sub_row.
      rewrite length_fmap, length_zip_with, length_fmap. lia.
    + unfold Np.column, Np.sub_row.
      rewrite length_fmap, length_zip_with, length_fmap. lia.
    + intros i a b Ha Hb.
      by rewrite (lookup_weighted_centered _ _ _ _ _ _ Ha),
                 (lookup_weighted_centered _ _ _ _ _ _ Hb).
  - unfold sum_of_squares. apply inner_indexed; [done..|].
    intros i a b Ha Hb. cbv beta. rewrite (at1_lookup _ _ _ Ha).
    rewrite Ha in Hb. by injection Hb as <-.
Qed.

(** C1, as the code has it.  With weights of positive sum,
    [_calcTransformation] hands to [linalg.svd] the array
    [(target_centered · w)^T · (mobile_centered · w)] divided by
    [Σ wᵢ²], the dot product of the weight vector with itself, both
    arrays centred at their weighted means; the transformation it
    returns is read off that array. *)
Theorem C1_weighted_covariance (mob tar : list Vec3) (w : list R) :
  length tar = length mob →
  length w = length mob →
  0 < Np.sum w →
  let H := weighted_cross_covariance (sum_of_squares w) w mob tar in
  _calcTransformation_matrix mob tar (Some w)
  = Ok (H, weighted_centroid w mob, weighted_centroid w tar)
  ∧ _calcTransformation svd mob tar (Some w)
    = Ok (transformation (rotation_of svd H)
            (Np.vsub (weighted_centroid w tar)
               (Np.dot_v_m (weighted_centroid w mob) (rotation_of svd H)))).
Proof.
  intros Hlen Hw _ H. split.
  - by apply matrix_weighted.
  - unfold _calcTransformation. rewrite matrix_weighted by done.
    rewrite bind_Ok. apply init_transformation.
Qed.

End Solver.

(** * Uniform weights *)

Lemma bigsum_scale (c : R) (f : nat → R) (n : nat) :
  bigsum n (λ i, c * f i) = c * bigsum n f.
Proof. induction n as [|n IH]; simpl; [lra|]. rewrite IH. lra. Qed.

Lemma bigsum_const (c : R) (n : nat) : bigsum n (λ _, c) = c * INR n.
Proof. induction n as [|n IH]; [simpl; lra|]. rewrite S_INR. simpl. rewrite IH. lra. Qed.

Lemma at1_replicate (n i : nat) (c : R) : (i < n)%nat → at1 (replicate n c) i = c.
Proof. intros Hi. apply at1_lookup. by apply lookup_replicate_2. Qed.

Lemma INR_length_pos {A : Type} (l : list A) : l ≠ [] → 0 < INR (length l).
Proof. intros Hne. apply lt_0_INR. destruct l; [done | simpl; lia]. Qed.

Lemma rmsd_of_uniform (c : R) (ref t : list Vec3) :
  0 < c → ref ≠ [] →
  rmsd_of ref t (Some (replicate (length ref) c)) = rmsd_of ref t None.
Proof.
  intros Hc Hne. unfold rmsd_of. f_equal.
  rewrite (bigsum_ext _ _ (λ j, c * sqdist (at3 ref j) (at3 t j)))
    by (intros i Hi; by rewrite at1_replicate).
  rewrite (bigsum_ext _ (at1 _) (λ _, c)) by (intros i Hi; by rewrite at1_replicate).
  rewrite bigsum_scale, bigsum_const.
  pose proof (INR_length_pos ref Hne). field. split; lra.
Qed.

Lemma weighted_centroid_uniform (c : R) (a : list Vec3) (n : nat) :
  0 < c → a ≠ [] → n = length a →
  weighted_centroid (replicate n c) a = centroid a.
Proof.
  intros Hc Hne ->. unfold weighted_centroid, centroid. apply vec_ext. intros k.
  rewrite !coord_vec_of.
  rewrite (bigsum_ext _ _ (λ i, c * coord k (at3 a i)))
    by (intros i Hi; by rewrite at1_replicate).
  rewrite (bigsum_ext _ (at1 _) (λ _, c)) by (intros i Hi; by rewrite at1_replicate).
  rewrite bigsum_scale, bigsum_const.
  pose proof (INR_length_pos a Hne). field. split; lra.
Qed.

Lemma weighted_covariance_uniform (c : R) (mob tar : list Vec3) :
  0 < c → mob ≠ [] → length tar = length mob →
  let w := replicate (length mob) c in
  weighted_cross_covariance (sum_of_squares w) w mob tar
  = Np.mdivs (cross_covariance mob tar) (INR (length mob)).
Proof.
  intros Hc Hne Hlen w. subst w. apply mat_ext. intros r k.
  unfold weighted_cross_covariance, cross_covariance, sum_of_squares.
  rewrite entry_mdivs, !entry_mat_of, length_replicate.
  assert (tar ≠ []) as Hne' by (by destruct tar, mob).
  rewrite (weighted_centroid_uniform c mob), (weighted_centroid_uniform c tar) by done.
  rewrite (bigsum_ext _ _
             (λ i, (c * c) * (centered tar (centroid tar) r i
                              * centered mob (centroid mob) k i)))
    by (intros i Hi; rewrite at1_replicate by done; ring).
  rewrite (bigsum_ext _ (λ i, at1 _ i * at1 _ i) (λ _, c * c))
    by (intros i Hi; by rewrite at1_replicate).
  rewrite bigsum_scale, bigsum_const.
  pose proof (INR_length_pos mob Hne). field. split; lra.
Qed.

Lemma sign_scale_pos (k x : R) : 0 < k → Np.sign (x / k) = Np.sign x.
Proof.
  intros Hk. assert (0 < / k) by (by apply Rinv_0_lt_compat).
  unfold Np.sign, Rdiv.
  destruct (total_order_T (x * / k) 0) as [[?|?]|?],
           (total_order_T x 0) as [[?|?]|?]; try done; nra.
Qed.

Lemma det_mdivs (m : Mat3) (k : R) :
  k ≠ 0 → Np.det (Np.mdivs m k) = Np.det m / (k * k * k).
Proof.
  intros Hk. destruct m as [[a b c] [d e f] [g h i]].
  unfold Np.det. np_unfold. field. done.
Qed.

Lemma rotation_of_mdivs (svd : Mat3 → Mat3 * Vec3 * Mat3) (m : Mat3) (k : R) :
  svd_scale_invariant svd → 0 < k →
  rotation_of svd (Np.mdivs m k) = rotation_of svd m.
Proof.
  intros Hsvd Hk. unfold rotation_of.
  destruct (Hsvd k m Hk) as [HU HVh].
  destruct (svd (Np.mdivs m k)) as [[U' s'] Vh'], (svd m) as [[U s] Vh].
  simpl in HU, HVh. subst U' Vh'.
  rewrite det_mdivs by lra. rewrite sign_scale_pos; [done|].
  apply Rmult_lt_0_compat; [apply Rmult_lt_0_compat|]; done.
Qed.

Section Uniform.

Variable svd : Mat3 → Mat3 * Vec3 * Mat3.

(** C8.  With the weight vector whose [N] entries all equal a
    positive [c], [_calcRMSD] returns what it returns without
    weights, for one target frame and for a stack; and, for a
    [linalg.svd] that returns the same [U] and [Vh] when its argument
    is divided by a positive number, [_calcTransformation] returns the
    transformation it returns without weights. *)
Theorem C8_uniform_weights (c : R) (ref : list Vec3) :
  0 < c → ref ≠ [] →
  let w := replicate (length ref) c in
  (∀ tar, length tar = length ref →
     ∃ v, _calcRMSD ref (Frame tar) (Some (Weights2 w)) = Ok v
          ∧ _calcRMSD ref (Frame tar) None = Ok v)
  ∧ (∀ tars, Forall (λ t, length t = length ref) tars →
       ∃ v, _calcRMSD ref (Stack tars) (Some (Weights2 w)) = Ok v
            ∧ _calcRMSD ref (Stack tars) None = Ok v)
  ∧ (svd_scale_invariant svd →
     ∀ tar, length tar = length ref →
       ∃ t, _calcTransformation svd ref tar (Some w) = Ok t
            ∧ _calcTransformation svd ref tar None = Ok t).
Proof.
  intros Hc Hne w. split; [|split].
  - intros tar Hlen. exists (Scalar (rmsd_of ref tar None)). split.
    + rewrite calcRMSD_frame_weighted; [|done|by apply length_replicate].
      subst w. by rewrite rmsd_of_uniform.
    + by apply calcRMSD_frame_unweighted.
  - intros tars Hall.
    exists (Array1 (imap (λ _ t, rmsd_of ref t None) tars)). split.
    + rewrite calcRMSD_stack; [|done|done|by apply length_replicate].
      do 2 f_equal. apply imap_ext. intros i t _. simpl.
      subst w. by apply rmsd_of_uniform.
    + by rewrite calcRMSD_stack.
  - intros Hsvd tar Hlen.
    set (rot := rotation_of svd (cross_covariance ref tar)).
    exists (transformation rot
              (Np.vsub (centroid tar) (Np.dot_v_m (centroid ref) rot))).
    assert (tar ≠ []) as Hne' by (by destruct tar, ref).
    split.
    + unfold _calcTransformation.
      rewrite matrix_weighted; [|done|by apply length_replicate].
      rewrite bind_Ok. subst w.
      rewrite weighted_covariance_uniform by done.
      rewrite rotation_of_mdivs by (done || by apply INR_length_pos).
      rewrite (weighted_centroid_uniform c ref), (weighted_centroid_uniform c tar) by done.
      apply init_transformation.
    + unfold _calcTransformation. rewrite matrix_unweighted by done.
      rewrite bind_Ok. apply init_transformation.
Qed.

End Uniform.

(** * Batch superposition *)

Lemma apply_transformation (rot : Mat3) (t : Vec3) (coords : list Vec3) :
  _applyTransformation (transformation rot t) coords
  = Ok (Np.add_row (Np.dot_a_m coords rot) t).
Proof. by destruct rot as [[] [] []], t. Qed.

Lemma dot_T_centered (mob tar : list Vec3) :
  length tar = length mob →
  Np.dot_T (Np.sub_row tar (Np.mean0 tar)) (Np.sub_row mob (Np.mean0 mob))
  = Ok (cross_covariance mob tar).
Proof.
  intros Hlen. pose proof (matrix_unweighted mob tar Hlen) as H.
  unfold _calcTransformation_matrix in H.
  destruct (Np.dot_T _ _) as [m|e]; [|done]. by injection H as ->.
Qed.

(** Moving the centred frame and adding the target's centre, or moving
    the frame itself and adding the translation, is the same. *)
Lemma move_centered (mob : list Vec3) (rot : Mat3) (mc tc : Vec3) :
  Np.add_row (Np.dot_a_m mob rot) (Np.vsub tc (Np.dot_v_m mc rot))
  = Np.add_row (Np.dot_a_m (Np.sub_row mob mc) rot) tc.
Proof.
  unfold Np.add_row, Np.dot_a_m, Np.sub_row. rewrite <- !list_fmap_compose.
  apply list_fmap_ext. intros _ p _. simpl.
  destruct rot as [[] [] []], mc, tc, p. np_unfold. f_equal; ring.
Qed.

Section Superpose.

Variable svd : Mat3 → Mat3 * Vec3 * Mat3.

Lemma superpose_loop (tar : list Vec3) (n k : nat) (mobs : list (list Vec3)) :
  (k + n)%nat = length mobs →
  Forall (λ m, length m = length tar) mobs →
  for_each (_superpose_frame svd (Np.mean0 tar) (Np.sub_row tar (Np.mean0 tar)))
           (seq k n) (mobs, None)
  = Ok (take k mobs ++ (superposed svd tar <$> drop k mobs), None).
Proof.
  revert k mobs. induction n as [|n IH]; intros k mobs Hk Hall; simpl.
  - rewrite drop_ge by lia. rewrite take_ge by lia. by rewrite app_nil_r.
  - destruct (lookup_lt_is_Some_2 mobs k) as [mob Hmob]; [lia|].
    assert (length mob = length tar) as Hlen
      by (by eapply (Forall_lookup_1 _ _ _ _ Hall)).
    unfold getitem. rewrite Hmob, bind_Ok.
    rewrite dot_T_centered by done. rewrite !bind_Ok.
    fold (superposed svd tar mob). rewrite IH.
    + do 2 f_equal.
      rewrite (take_S_r _ _ (superposed svd tar mob))
        by (apply list_lookup_insert_eq; lia).
      rewrite take_insert_ge by lia. rewrite drop_insert_lt by lia.
      rewrite <- app_assoc. f_equal.
      by rewrite (drop_S _ _ _ Hmob).
    + rewrite length_insert. lia.
    + apply Forall_insert; [done|].
      unfold superposed, Np.add_row, Np.dot_a_m, Np.sub_row.
      by rewrite !length_fmap.
Qed.

(** [_superpose] without a [movs] buffer replaces every frame by its
    superposed copy, whatever [weights] is. *)
Lemma superpose_in_place (mobs : list (list Vec3)) (tar : list Vec3)
    (weights : option (list R)) :
  Forall (λ m, length m = length tar) mobs →
  _superpose svd mobs tar weights None = Ok (superposed svd tar <$> mobs, None).
Proof.
  intros Hall. unfold _superpose. rewrite superpose_loop by done.
  by rewrite take_0, drop_0.
Qed.

Lemma superpose_unweighted (mob tar : list Vec3) :
  length mob = length tar →
  superpose svd mob tar None
  = Ok (superposed svd tar mob,
        transformation (rotation_of svd (cross_covariance mob tar))
          (Np.vsub (centroid tar)
             (Np.dot_v_m (centroid mob) (rotation_of svd (cross_covariance mob tar))))).
Proof.
  intros Hlen. unfold superpose, calcTransformation, applyTransformation.
  rewrite decide_False by (intros ?; done).
  unfold _calcTransformation. rewrite matrix_unweighted by done.
  rewrite bind_Ok, init_transformation, bind_Ok, apply_transformation, bind_Ok.
  do 2 f_equal. unfold superposed. rewrite !mean0_centroid. apply move_centered.
Qed.

(** Without weights, frame [i] of the in-place result is what
    [superpose] returns for frame [i] alone. *)
Lemma superpose_refines_unweighted (mobs : list (list Vec3)) (tar : list Vec3) :
  Forall (λ m, length m = length tar) mobs →
  ∃ out, _superpose svd mobs tar None None = Ok (out, None)
         ∧ length out = length mobs
         ∧ ∀ i mob, mobs !! i = Some mob →
             ∃ x t, out !! i = Some x ∧ superpose svd mob tar None = Ok (x, t).
Proof.
  intros Hall. eexists. split; [by apply superpose_in_place|].
  split; [by rewrite length_fmap|].
  intros i mob Hmob. do 2 eexists. split.
  - by rewrite list_lookup_fmap, Hmob.
  - apply superpose_unweighted. by eapply (Forall_lookup_1 _ _ _ _ Hall).
Qed.

End Superpose.

Lemma mean0_line_frame : Np.mean0 line_frame = mkVec3 0 0 0.
Proof. unfold Np.mean0, line_frame. simpl. np_unfold. f_equal; lra. Qed.

Lemma mean0_bent_target : Np.mean0 bent_target = mkVec3 0 1 0.
Proof. unfold Np.mean0, bent_target. simpl. np_unfold. f_equal; lra. Qed.

Lemma weighted_centroid_line_frame :
  weighted_centroid middle_weights line_frame = mkVec3 0 0 0.
Proof.
  unfold weighted_centroid, vec_of, at1, at3, middle_weights. simpl.
  f_equal; lra.
Qed.

Lemma weighted_centroid_bent_target :
  weighted_centroid middle_weights bent_target = mkVec3 0 (9 / 5) 0.
Proof.
  unfold weighted_centroid, vec_of, at1, at3, middle_weights. simpl.
  f_equal; lra.
Qed.

Section SuperposeWeights.

Variable svd : Mat3 → Mat3 * Vec3 * Mat3.

(** C4, where the code departs from it.  [_superpose] never reads
    [weights]: on [line_frame] against [bent_target] with
    [middle_weights] it puts the middle atom at the unweighted centre
    [(0,1,0)] of the target, while solving the frame with these
    weights and applying the result puts it at the weighted centre
    [(0,9/5,0)]; and this for every [linalg.svd]. *)
Theorem C4_superpose_ignores_weights :
  ∃ out moved t,
    _superpose svd [line_frame] bent_target (Some middle_weights) None
      = Ok ([out], None)
    ∧ superpose svd line_frame bent_target (Some middle_weights) = Ok (moved, t)
    ∧ out !! 1%nat = Some (mkVec3 0 1 0)
    ∧ moved !! 1%nat = Some (mkVec3 0 (9 / 5) 0).
Proof.
  do 3 eexists. split; [|split; [|split]].
  - rewrite superpose_in_place by (by repeat constructor). reflexivity.
  - unfold superpose, calcTransformation, applyTransformation.
    rewrite !decide_False by (intros ?; done).
    unfold _calcTransformation. rewrite matrix_weighted by done.
    rewrite bind_Ok, init_transformation, bind_Ok, apply_transformation, bind_Ok.
    reflexivity.
  - unfold superposed. rewrite mean0_line_frame, mean0_bent_target.
    destruct (rotation_of svd _) as [[] [] []].
    unfold line_frame. simpl. f_equal. np_unfold. f_equal; lra.
  - rewrite weighted_centroid_line_frame, weighted_centroid_bent_target.
    destruct (rotation_of svd _) as [[] [] []].
    unfold line_frame. simpl. f_equal. np_unfold. f_equal; lra.
Qed.

End SuperposeWeights.

(** * Radius of gyration *)

(** C3, where the code departs from it.  With weights,
    [calcRadiusOfGyration] multiplies the [(N,3)] coordinates by the
    flattened [(N,)] weights, which NumPy aligns with the three
    columns, and takes [mean(0) / wsum] of the product.  For the two
    unit masses at [(−1,0,0)] and [(1,0,0)], whose radius of gyration is
    1, it raises [ValueError]; for three unit masses at [corner] it
    returns [sqrt(22/81)] where the formula gives [sqrt(2/9)]. *)
Theorem C3_weighted_gyration_departs :
  calcRadiusOfGyration (Frame two_points) (Some [1; 1]) = Raise ValueError
  ∧ gyration_of [1; 1] two_points = 1
  ∧ calcRadiusOfGyration (Frame corner) (Some [1; 1; 1]) = Ok (Scalar (sqrt (22 / 81)))
  ∧ gyration_of [1; 1; 1] corner = sqrt (2 / 9)
  ∧ sqrt (22 / 81) ≠ sqrt (2 / 9).
Proof.
  split; [|split; [|split; [|split]]].
  - reflexivity.
  - unfold gyration_of, weighted_centroid, sqdist, vec_of, at1, at3. simpl.
    transitivity (sqrt 1); [f_equal; lra | apply sqrt_1].
  - unfold calcRadiusOfGyration. simpl. do 3 f_equal. unfold Np.sum, Np.mean0. np_unfold. simpl. lra.
  - unfold gyration_of, weighted_centroid, sqdist, vec_of, at1, at3. simpl.
    f_equal. lra.
  - intros H. apply sqrt_inj in H; lra.
Qed.

(** * Principal axes of the displacement tensors *)

Lemma sign_zero : Np.sign 0 = 0.
Proof. unfold Np.sign. destruct (total_order_T 0 0) as [[?|?]|?]; lra. Qed.

Lemma sign_pos (x : R) : 0 < x → Np.sign x = 1.
Proof. intros H. unfold Np.sign. destruct (total_order_T x 0) as [[?|?]|?]; lra. Qed.

Lemma sign_neg (x : R) : x < 0 → Np.sign x = -1.
Proof. intros H. unfold Np.sign. destruct (total_order_T x 0) as [[?|?]|?]; lra. Qed.

Lemma sqrt_4 : sqrt 4 = 2.
Proof. replace 4 with (2 * 2) by lra. apply sqrt_square. lra. Qed.

Lemma sqrt_9 : sqrt 9 = 3.
Proof. replace 9 with (3 * 3) by lra. apply sqrt_square. lra. Qed.


Lemma adp_torf_no_filter (variances : list Vec3) : _adp_torf ∅ variances = Ok None.
Proof. unfold _adp_torf. by rewrite !lookup_empty. Qed.

Section Axes.

Variable eigh : Mat3 → Vec3 * Mat3.

(** The arrays [axes] and [variances] for one atom, and for two. *)
Lemma adp_decompose_one (a : anisou) :
  _adp_decompose eigh [a]
  = Ok ([Np.mul_cols (Np.vmap sqrt (clamp (eigh (element_of a)).1))
                     (eigh (element_of a)).2],
        [clamp (eigh (element_of a)).1]).
Proof.
  unfold _adp_decompose. cbn [getitem lookup list_lookup length].
  rewrite bind_Ok. by destruct (eigh (element_of a)) as [vals vecs].
Qed.

Lemma adp_decompose_two (a b : anisou) :
  let first := Np.mul_cols (Np.vmap sqrt (clamp (eigh (element_of a)).1))
                           (eigh (element_of a)).2 in
  let '(vals, vecs) := eigh (element_of b) in
  let signs := Np.vmap Np.sign (Np.col_dots vecs first) in
  _adp_decompose eigh [a; b]
  = Ok ([first;
         Np.mul_cols (Np.vmul (Np.vmap sqrt (clamp vals)) signs) vecs],
        [clamp (eigh (element_of a)).1; clamp vals]).
Proof.
  unfold _adp_decompose, _adp_step. cbn [getitem lookup list_lookup length].
  rewrite bind_Ok.
  destruct (eigh (element_of a)) as [vals0 vecs0].
  destruct (eigh (element_of b)) as [vals vecs] eqn:Hb.
  cbn [Nat.sub seq for_each getitem lookup list_lookup replicate
       insert list_insert fst snd].
  rewrite !bind_Ok. rewrite Hb.
  cbn [Nat.sub getitem lookup list_lookup insert list_insert].
  by rewrite !bind_Ok.
Qed.

End Axes.

Lemma clamp_indefinite : clamp (mkVec3 (-1) 1 4) = mkVec3 0 1 4.
Proof. unfold clamp, Np.vmap. cbn [vx vy vz]. by settle_ifs. Qed.

Lemma clamp_definite : clamp (mkVec3 1 4 9) = mkVec3 1 4 9.
Proof. unfold clamp, Np.vmap. cbn [vx vy vz]. by settle_ifs. Qed.

Lemma roots_indefinite : Np.vmap sqrt (mkVec3 0 1 4) = mkVec3 0 1 2.
Proof. unfold Np.vmap. cbn [vx vy vz]. by rewrite sqrt_0, sqrt_1, sqrt_4. Qed.

Lemma roots_definite : Np.vmap sqrt (mkVec3 1 4 9) = mkVec3 1 2 3.
Proof. unfold Np.vmap. cbn [vx vy vz]. by rewrite sqrt_1, sqrt_4, sqrt_9. Qed.

Lemma mul_cols_identity (a b c : R) :
  Np.mul_cols (mkVec3 a b c) identity3
  = mkMat3 (mkVec3 a 0 0) (mkVec3 0 b 0) (mkVec3 0 0 c).
Proof. unfold identity3. np_unfold. f_equal; f_equal; lra. Qed.

Lemma col_dots_identity (a b c : R) :
  Np.col_dots identity3 (mkMat3 (mkVec3 a 0 0) (mkVec3 0 b 0) (mkVec3 0 0 c))
  = mkVec3 a b c.
Proof. unfold identity3. np_unfold. f_equal; lra. Qed.

Lemma signs_0_1_2 : Np.vmap Np.sign (mkVec3 0 1 2) = mkVec3 0 1 1.
Proof.
  unfold Np.vmap. cbn [vx vy vz].
  by rewrite sign_zero, (sign_pos 1), (sign_pos 2) by lra.
Qed.

(** C7, where the code departs from it.  The first atom's tensor has
    the eigenvalues [−1, 1, 4]; the negative one is set to 0, so the
    atom's smallest axis is stored as the zero vector.  For the next
    atom (eigenvalues [1, 4, 9]) the dot products with the stored axes
    are [0, 1, 2], none negative; [np.sign] of the first is 0, and the
    atom's smallest axis, which is [(1,0,0)] unflipped, comes out as
    [(0,0,0)]. *)
Theorem C7_zero_dot_product_erases_axis :
  Np.col_dots identity3 (mkMat3 (mkVec3 0 0 0) (mkVec3 0 1 0) (mkVec3 0 0 2))
    = mkVec3 0 1 2
  ∧ axes_of eigh_diag definite_atom
    = mkMat3 (mkVec3 0 0 1) (mkVec3 0 2 0) (mkVec3 3 0 0)
  ∧ calcADPAxes eigh_diag (Some [indefinite_atom; definite_atom]) ∅
    = Ok [mkMat3 (mkVec3 0 0 0) (mkVec3 0 1 0) (mkVec3 2 0 0);
          mkMat3 (mkVec3 0 0 0) (mkVec3 0 2 0) (mkVec3 3 0 0)].
Proof.
  split; [|split].
  - apply col_dots_identity.
  - unfold axes_of.
    change (eigh_diag (element_of definite_atom)) with (mkVec3 1 4 9, identity3).
    cbv beta iota.
    replace (mkMat3 (mkVec3 0 0 1) (mkVec3 0 2 0) (mkVec3 3 0 0))
      with (Np.mrev_cols (mkMat3 (mkVec3 1 0 0) (mkVec3 0 2 0) (mkVec3 0 0 3)))
      by reflexivity.
    by rewrite clamp_definite, roots_definite, mul_cols_identity.
  - unfold calcADPAxes.
    pose proof (adp_decompose_two eigh_diag indefinite_atom definite_atom) as H.
    change (eigh_diag (element_of definite_atom))
      with (mkVec3 1 4 9, identity3) in H.
    change (eigh_diag (element_of indefinite_atom))
      with (mkVec3 (-1) 1 4, identity3) in H.
    cbv beta iota zeta in H. cbn [fst snd] in H.
    rewrite H, bind_Ok, adp_torf_no_filter, bind_Ok.
    rewrite clamp_indefinite, clamp_definite, roots_indefinite, roots_definite.
    rewrite mul_cols_identity, col_dots_identity, signs_0_1_2.
    replace (Np.vmul (mkVec3 1 2 3) (mkVec3 0 1 1)) with (mkVec3 0 2 3)
      by (np_unfold; f_equal; lra).
    rewrite mul_cols_identity. reflexivity.
Qed.

Lemma mask_true (m : Mat3) : mask true m = m.
Proof. destruct m as [[] [] []]. unfold mask. np_unfold. f_equal; f_equal; lra. Qed.

Lemma mask_false (m : Mat3) : mask false m = Np.mzero.
Proof. destruct m as [[] [] []]. unfold mask. np_unfold. f_equal; f_equal; lra. Qed.

Lemma quotient_le_defined (a b x : R) :
  0 < b → quotient_le a b x = bool_decide (a / b <= x).
Proof. intros Hb. unfold quotient_le. rewrite decide_False by lra. done. Qed.

Lemma adp_torf_ratio (name : string) (ratio : R) (variances : list Vec3) :
  name ∈ ["ratio"; "ratio2"; "ratio3"]%string →
  0 < ratio < 1 →
  _adp_torf {[name := ratio]} variances
  = Ok (Some ((λ v, quotient_le (ratio_numerator name v) (vx v) ratio)
                <$> (Np.vrev <$> variances))).
Proof.
  intros Hname Hr. unfold _adp_torf, ratio_numerator.
  repeat (apply elem_of_cons in Hname as [->|Hname]);
    [| | |by apply elem_of_nil in Hname].
  - rewrite (lookup_singleton_ne "ratio"%string "fract"%string) by done.
    rewrite (lookup_singleton_ne "ratio"%string "ratio2"%string) by done.
    rewrite lookup_singleton_eq. cbv beta iota.
    repeat case_decide; first [done | tauto].
  - rewrite (lookup_singleton_ne "ratio2"%string "fract"%string) by done.
    rewrite lookup_singleton_eq. cbv beta iota.
    repeat case_decide; first [done | tauto].
  - rewrite (lookup_singleton_ne "ratio3"%string "fract"%string) by done.
    rewrite (lookup_singleton_ne "ratio3"%string "ratio2"%string) by done.
    rewrite (lookup_singleton_ne "ratio3"%string "ratio"%string) by done.
    rewrite lookup_singleton_eq. cbv beta iota.
    repeat case_decide; first [done | tauto].
Qed.

Lemma quotient_gt_defined (a b x : R) :
  0 < b → quotient_gt a b x = bool_decide (x < a / b).
Proof. intros Hb. unfold quotient_gt. rewrite decide_False by lra. done. Qed.

Lemma adp_torf_fract (kwargs : gmap string R) (fract : R) (variances : list Vec3) :
  kwargs !! "fract"%string = Some fract →
  33 / 100 < fract < 1 →
  _adp_torf kwargs variances
  = Ok (Some ((λ v, quotient_gt (vx v) (Np.vsum v) fract)
                <$> (Np.vrev <$> variances))).
Proof.
  intros Hf Hr. unfold _adp_torf. rewrite Hf. cbv beta iota.
  case_decide; first [done | tauto].
Qed.

Section Filters.

Variable eigh : Mat3 → Vec3 * Mat3.

Lemma adp_step_ok (anisous : list anisou) (k : nat) (axes : list Mat3)
    (vars : list Vec3) (a : anisou) (prev : Mat3) :
  anisous !! k = Some a → axes !! (k - 1)%nat = Some prev →
  let vals := clamp (eigh (element_of a)).1 in
  let vecs := (eigh (element_of a)).2 in
  _adp_step eigh anisous k (axes, vars)
  = Ok (<[k := Np.mul_cols
                 (Np.vmul (Np.vmap sqrt vals)
                    (Np.vmap Np.sign (Np.col_dots vecs prev))) vecs]> axes,
        <[k := vals]> vars).
Proof.
  intros Ha Hprev. unfold _adp_step, getitem. rewrite Ha, bind_Ok.
  destruct (eigh (element_of a)) as [vals vecs]. by rewrite Hprev, bind_Ok.
Qed.

Lemma adp_loop (anisous : list anisou) (n k : nat)
    (axes : list Mat3) (vars : list Vec3) :
  (1 ≤ k)%nat → (k + n)%nat = length anisous →
  length axes = length anisous → length vars = length anisous →
  ∃ axes' vars',
    for_each (_adp_step eigh anisous) (seq k n) (axes, vars) = Ok (axes', vars')
    ∧ length axes' = length anisous ∧ length vars' = length anisous
    ∧ (∀ i, (i < k)%nat → vars' !! i = vars !! i)
    ∧ (∀ i a, (k ≤ i)%nat → anisous !! i = Some a →
              vars' !! i = Some (clamp (eigh (element_of a)).1)).
Proof.
  revert k axes vars. induction n as [|n IH]; intros k axes vars Hk Hkn Ha Hv.
  - exists axes, vars. repeat split; try done.
    intros i a Hi Hia. apply lookup_lt_Some in Hia. lia.
  - cbn [seq for_each].
    destruct (lookup_lt_is_Some_2 anisous k) as [a Hka]; [lia|].
    destruct (lookup_lt_is_Some_2 axes (k - 1)) as [prev Hprev]; [lia|].
    rewrite (adp_step_ok _ _ _ _ _ _ Hka Hprev), bind_Ok.
    destruct (IH (S k)
                (<[k := Np.mul_cols
                          (Np.vmul (Np.vmap sqrt (clamp (eigh (element_of a)).1))
                             (Np.vmap Np.sign
                                (Np.col_dots (eigh (element_of a)).2 prev)))
                          (eigh (element_of a)).2]> axes)
                (<[k := clamp (eigh (element_of a)).1]> vars))
      as (axes' & vars' & Hrun & Ha' & Hv' & Hlow & Hhigh);
      [lia | lia | by rewrite length_insert | by rewrite length_insert |].
    exists axes', vars'. rewrite Hrun. repeat split; try done.
    + intros i Hi. rewrite Hlow by lia. apply list_lookup_insert_ne. lia.
    + intros i b Hi Hib. destruct (decide (i = k)) as [->|Hne].
      * rewrite Hlow by lia. rewrite list_lookup_insert_eq by lia.
        rewrite Hka in Hib. by injection Hib as <-.
      * apply Hhigh; [lia|done].
Qed.

(** For at least one atom, the loop of [calcADPAxes] runs to its end
    and leaves in [variances] the clamped eigenvalues of every atom. *)
Lemma adp_decompose_ok (anisous : list anisou) :
  anisous ≠ [] →
  ∃ axes vars,
    _adp_decompose eigh anisous = Ok (axes, vars)
    ∧ length axes = length anisous ∧ length vars = length anisous
    ∧ ∀ i a, anisous !! i = Some a →
             vars !! i = Some (clamp (eigh (element_of a)).1).
Proof.
  intros Hne. destruct anisous as [|a0 rest]; [done|].
  unfold _adp_decompose. cbn [getitem lookup list_lookup].
  rewrite bind_Ok. destruct (eigh (element_of a0)) as [vals vecs] eqn:E0.
  set (axes0 := <[0%nat := _]> (replicate _ Np.mzero)).
  set (vars0 := <[0%nat := clamp vals]> (replicate _ Np.vzero)).
  destruct (adp_loop (a0 :: rest) (length (a0 :: rest) - 1) 1 axes0 vars0)
    as (axes' & vars' & Hrun & Ha' & Hv' & Hlow & Hhigh).
  { done. }
  { simpl. lia. }
  { subst axes0. by rewrite length_insert, length_replicate. }
  { subst vars0. by rewrite length_insert, length_replicate. }
  exists axes', vars'. repeat split; try done.
  intros i a Hia. destruct i as [|i].
  - rewrite Hlow by lia. injection Hia as <-. rewrite E0. done.
  - apply Hhigh; [lia|done].
Qed.

(** C2, as the code has it.  Called with one of [ratio], [ratio2],
    [ratio3] set to a threshold in [(0,1)], [calcADPAxes] returns for
    every atom whose largest variance is positive the axes it returns
    without a filter if the ratio (second largest to largest for
    [ratio2], smallest to largest otherwise) is at or below the
    threshold, and three zero axes if the ratio is above it. *)
Theorem C2_ratio_filter_keeps_low_ratios
    (anisous : list anisou) (name : string) (ratio : R) :
  anisous ≠ [] →
  name ∈ ["ratio"; "ratio2"; "ratio3"]%string →
  0 < ratio < 1 →
  ∃ unfiltered filtered,
    calcADPAxes eigh (Some anisous) ∅ = Ok unfiltered
    ∧ calcADPAxes eigh (Some anisous) {[name := ratio]} = Ok filtered
    ∧ length filtered = length anisous
    ∧ ∀ i a, anisous !! i = Some a →
        let v := variances_of eigh a in
        0 < vx v →
        filtered !! i
        = if decide (ratio_numerator name v / vx v <= ratio)
          then unfiltered !! i
          else Some Np.mzero.
Proof.
  intros Hne Hname Hr.
  destruct (adp_decompose_ok anisous Hne) as (axes & vars & Hrun & Ha & Hv & Hvars).
  exists (Np.mrev_cols <$> axes).
  exists (zip_with (λ m b, mask b m) (Np.mrev_cols <$> axes)
            ((λ v, quotient_le (ratio_numerator name v) (vx v) ratio)
               <$> (Np.vrev <$> vars))).
  split; [|split; [|split]].
  - unfold calcADPAxes. by rewrite Hrun, bind_Ok, adp_torf_no_filter.
  - unfold calcADPAxes. by rewrite Hrun, bind_Ok, adp_torf_ratio.
  - rewrite length_zip_with, !length_fmap. lia.
  - intros i a Hia v Hpos.
    destruct (lookup_lt_is_Some_2 axes i) as [m Hm].
    { rewrite Ha. by eapply lookup_lt_Some. }
    rewrite lookup_zip_with, !list_lookup_fmap, Hm, (Hvars i a Hia).
    cbn [fmap option_fmap option_map mbind option_bind].
    fold (variances_of eigh a). fold v.
    rewrite quotient_le_defined by done.
    destruct (decide (ratio_numerator name v / vx v <= ratio)) as [Hle|Hgt].
    + by rewrite bool_decide_eq_true_2, mask_true.
    + by rewrite bool_decide_eq_false_2, mask_false.
Qed.

(** C10.  When [fract] is among the keyword arguments, the fraction
    filter is the one applied and [ratio], [ratio2] and [ratio3] are
    neither read nor checked, whatever they hold.  [calcADPAxes] returns
    (or raises) what it does for [fract] alone.  For at least one atom:
    with [fract] outside [(0.33, 1)] that is [AssertionError]; with
    [fract] inside, every atom whose clamped eigenvalues have a positive
    sum keeps the axes of the call without a filter if its largest
    variance is more than the fraction [fract] of their sum, and gets
    three zero axes otherwise. *)
Theorem C10_fract_takes_precedence
    (anisous : list anisou) (kwargs : gmap string R) (fract : R) :
  anisous ≠ [] →
  kwargs !! "fract"%string = Some fract →
  (∀ factors, calcADPAxes eigh factors kwargs
              = calcADPAxes eigh factors {["fract"%string := fract]})
  ∧ (¬ 33 / 100 < fract < 1 →
     calcADPAxes eigh (Some anisous) kwargs = Raise AssertionError)
  ∧ (33 / 100 < fract < 1 →
     ∃ unfiltered filtered,
       calcADPAxes eigh (Some anisous) ∅ = Ok unfiltered
       ∧ calcADPAxes eigh (Some anisous) kwargs = Ok filtered
       ∧ length filtered = length anisous
       ∧ ∀ i a, anisous !! i = Some a →
           let v := variances_of eigh a in
           0 < Np.vsum v →
           filtered !! i
           = if decide (fract < vx v / Np.vsum v)
             then unfiltered !! i
             else Some Np.mzero).
Proof.
  intros Hne Hf.
  destruct (adp_decompose_ok anisous Hne) as (axes & vars & Hrun & Ha & Hv & Hvars).
  split; [|split].
  - intros factors. unfold calcADPAxes. destruct factors as [factors|]; [|done].
    destruct (_adp_decompose eigh factors) as [[axes' vars']|e]; [|done].
    rewrite !bind_Ok. unfold _adp_torf. rewrite Hf, lookup_singleton_eq. done.
  - intros Hout. unfold calcADPAxes. rewrite Hrun, bind_Ok.
    unfold _adp_torf. rewrite Hf. cbv beta iota. case_decide; [tauto|done].
  - intros Hr.
    exists (Np.mrev_cols <$> axes).
    exists (zip_with (λ m b, mask b m) (Np.mrev_cols <$> axes)
              ((λ v, quotient_gt (vx v) (Np.vsum v) fract) <$> (Np.vrev <$> vars))).
    split; [|split; [|split]].
    + unfold calcADPAxes. by rewrite Hrun, bind_Ok, adp_torf_no_filter.
    + unfold calcADPAxes. by rewrite Hrun, bind_Ok, (adp_torf_fract _ fract).
    + rewrite length_zip_with, !length_fmap. lia.
    + intros i a Hia v Hpos.
      destruct (lookup_lt_is_Some_2 axes i) as [m Hm].
      { rewrite Ha. by eapply lookup_lt_Some. }
      rewrite lookup_zip_with, !list_lookup_fmap, Hm, (Hvars i a Hia).
      cbn [fmap option_fmap option_map mbind option_bind].
      fold (variances_of eigh a). fold v.
      rewrite quotient_gt_defined by done.
      destruct (decide (fract < vx v / Np.vsum v)) as [Hlt|Hge].
      * by rewrite bool_decide_eq_true_2, mask_true.
      * by rewrite bool_decide_eq_false_2, mask_false.
Qed.

End Filters.

(** ** Continuity of the axes *)

(** What line 588 does to an axis of length [s] whose dot product with
    the previous atom's axis is [d]: flipped for [d < 0], kept for
    [d > 0], erased for [d = 0]. *)
Lemma continuity_sign_cases (s d v : R) :
  (d < 0 → s * Np.sign d * v = - (s * v))
  ∧ (0 < d → s * Np.sign d * v = s * v)
  ∧ (d = 0 → s * Np.sign d * v = 0).
Proof.
  repeat split; intros H.
  - rewrite sign_neg by done. ring.
  - rewrite sign_pos by done. ring.
  - subst d. rewrite sign_zero. ring.
Qed.

(** An axis of length [s] along [(x, y, z)] keeps its direction when
    compared with itself. *)
Lemma keep_direction (s x y z v : R) :
  0 <= s → v = x ∨ v = y ∨ v = z →
  s * Np.sign (x * (s * x) + (y * (s * y) + z * (s * z))) * v = s * v.
Proof.
  intros Hs Hv.
  destruct (Rle_lt_or_eq_dec 0 s Hs) as [Hpos|Heq]; [|subst s; ring].
  destruct (Req_dec (x * x + y * y + z * z) 0) as [Hq|Hq].
  - assert (x = 0 ∧ y = 0 ∧ z = 0) as (-> & -> & ->) by (repeat split; nra).
    destruct Hv as [-> | [-> | ->]]; ring.
  - rewrite sign_pos; [ring|].
    replace (x * (s * x) + (y * (s * y) + z * (s * z)))
      with (s * (x * x + y * y + z * z)) by ring.
    apply Rmult_lt_0_compat; [done|]. nra.
Qed.

Lemma clamp_roots_nonneg (vals : Vec3) :
  let s := Np.vmap sqrt (clamp vals) in 0 <= vx s ∧ 0 <= vy s ∧ 0 <= vz s.
Proof. unfold Np.vmap. cbn [vx vy vz]. repeat split; apply sqrt_pos. Qed.

(** The second half of C7: for two equal tensor records in a row, the
    second atom's axes are the first atom's, whatever [linalg.eigh]
    returns for the record. *)
Lemma adp_identical_records (eigh : Mat3 → Vec3 * Mat3) (a : anisou) :
  calcADPAxes eigh (Some [a; a]) ∅ = Ok [axes_of eigh a; axes_of eigh a].
Proof.
  unfold calcADPAxes, axes_of.
  pose proof (adp_decompose_two eigh a a) as H.
  destruct (eigh (element_of a)) as [vals vecs]. cbv beta iota zeta in H.
  cbn [fst snd] in H. rewrite H, bind_Ok, adp_torf_no_filter, bind_Ok.
  cbn [fmap list_fmap]. do 3 f_equal.
  destruct (clamp_roots_nonneg vals) as (H0 & H1 & H2).
  destruct (Np.vmap sqrt (clamp vals)) as [s0 s1 s2].
  destruct vecs as [[a0 b0 c0] [a1 b1 c1] [a2 b2 c2]]. cbn [vx vy vz] in *.
  np_unfold. f_equal; f_equal; apply keep_direction; auto.
Qed.

(** * The claims at concrete inputs *)

(** C1 as the specification words it fails.  For atoms at 0 and 3 on
    the first axis, aligned with themselves under the weights 1 and 2,
    the weighted centre is 2 and the weighted centred product is 8; the
    code divides it by [1² + 2² = 5], not by [(1 + 2)² = 9]. *)
Lemma C1_counterexample :
  _calcTransformation_matrix pair_frame pair_frame (Some pair_weights)
    = Ok (mkMat3 (mkVec3 (8 / 5) 0 0) (mkVec3 0 0 0) (mkVec3 0 0 0),
          mkVec3 2 0 0, mkVec3 2 0 0)
  ∧ weighted_cross_covariance (square_of_sum pair_weights)
      pair_weights pair_frame pair_frame
    = mkMat3 (mkVec3 (8 / 9) 0 0) (mkVec3 0 0 0) (mkVec3 0 0 0)
  ∧ _calcTransformation_matrix pair_frame pair_frame (Some pair_weights)
    ≠ Ok (weighted_cross_covariance (square_of_sum pair_weights)
            pair_weights pair_frame pair_frame,
          weighted_centroid pair_weights pair_frame,
          weighted_centroid pair_weights pair_frame).
Proof.
  assert (weighted_centroid pair_weights pair_frame = mkVec3 2 0 0) as Hc.
  { unfold weighted_centroid, vec_of, at1, at3, pair_weights. simpl.
    f_equal; lra. }
  assert (weighted_cross_covariance (sum_of_squares pair_weights)
            pair_weights pair_frame pair_frame
          = mkMat3 (mkVec3 (8 / 5) 0 0) (mkVec3 0 0 0) (mkVec3 0 0 0)) as Hcode.
  { unfold weighted_cross_covariance. rewrite Hc.
    unfold sum_of_squares, centered, mat_of, vec_of, at1, at3, pair_weights.
    simpl. f_equal; f_equal; lra. }
  assert (weighted_cross_covariance (square_of_sum pair_weights)
            pair_weights pair_frame pair_frame
          = mkMat3 (mkVec3 (8 / 9) 0 0) (mkVec3 0 0 0) (mkVec3 0 0 0)) as Hspec.
  { unfold weighted_cross_covariance. rewrite Hc.
    unfold square_of_sum, centered, mat_of, vec_of, at1, at3, pair_weights.
    simpl. f_equal; f_equal; lra. }
  rewrite matrix_weighted by done. rewrite Hc, Hcode, Hspec.
  split; [done|]. split; [done|].
  intros H. injection H as H. lra.
Qed.

Lemma C1_weighted_covariance_witness :
  0 < Np.sum pair_weights
  ∧ _calcTransformation_matrix pair_frame pair_frame (Some pair_weights)
    = Ok (weighted_cross_covariance (sum_of_squares pair_weights)
            pair_weights pair_frame pair_frame,
          weighted_centroid pair_weights pair_frame,
          weighted_centroid pair_weights pair_frame).
Proof.
  assert (0 < Np.sum pair_weights) as Hpos
    by (unfold Np.sum, pair_weights; simpl; lra).
  split; [exact Hpos|].
  exact (proj1 (C1_weighted_covariance svd_diag pair_frame pair_frame
                  pair_weights eq_refl eq_refl Hpos)).
Defined.

(** C2 as the specification words it fails, in both directions.  With
    [ratio=0.5], an atom with eigenvalues [1, 4, 9] (ratio 1/9, below
    the threshold) keeps its axes, and an atom with three eigenvalues 9
    (ratio 1, above the threshold) has them set to zero. *)
Lemma C2_counterexample :
  ratio_numerator "ratio" (variances_of eigh_diag definite_atom)
    / vx (variances_of eigh_diag definite_atom) = 1 / 9
  ∧ calcADPAxes eigh_diag (Some [definite_atom]) {["ratio"%string := 1 / 2]}
    = Ok [mkMat3 (mkVec3 0 0 1) (mkVec3 0 2 0) (mkVec3 3 0 0)]
  ∧ ratio_numerator "ratio" (variances_of eigh_diag isotropic_atom)
    / vx (variances_of eigh_diag isotropic_atom) = 1
  ∧ calcADPAxes eigh_diag (Some [isotropic_atom]) ∅
    = Ok [mkMat3 (mkVec3 0 0 3) (mkVec3 0 3 0) (mkVec3 3 0 0)]
  ∧ calcADPAxes eigh_diag (Some [isotropic_atom]) {["ratio"%string := 1 / 2]}
    = Ok [Np.mzero].
Proof.
  assert (clamp (mkVec3 9 9 9) = mkVec3 9 9 9) as Hiso
    by (unfold clamp, Np.vmap; cbn [vx vy vz]; by settle_ifs).
  assert (Np.vmap sqrt (mkVec3 9 9 9) = mkVec3 3 3 3) as Hroots
    by (unfold Np.vmap; cbn [vx vy vz]; by rewrite sqrt_9).
  assert ("ratio" ∈ ["ratio"; "ratio2"; "ratio3"]%string) as Hname
    by (apply elem_of_cons; by left).
  assert (0 < 1 / 2 < 1) as Hr by lra.
  pose proof (adp_decompose_one eigh_diag definite_atom) as Hdef.
  pose proof (adp_decompose_one eigh_diag isotropic_atom) as Hrun.
  change (eigh_diag (element_of definite_atom))
    with (mkVec3 1 4 9, identity3) in Hdef.
  change (eigh_diag (element_of isotropic_atom))
    with (mkVec3 9 9 9, identity3) in Hrun.
  cbn [fst snd] in Hdef, Hrun.
  rewrite clamp_definite, roots_definite, mul_cols_identity in Hdef.
  rewrite Hiso, Hroots, mul_cols_identity in Hrun.
  unfold variances_of, ratio_numerator.
  change (eigh_diag (element_of definite_atom)) with (mkVec3 1 4 9, identity3).
  change (eigh_diag (element_of isotropic_atom)) with (mkVec3 9 9 9, identity3).
  cbn [fst snd]. rewrite clamp_definite, Hiso.
  rewrite !decide_False by done. unfold Np.vrev. cbn [vx vy vz].
  split; [lra|]. split; [|split; [lra|split]].
  - unfold calcADPAxes.
    rewrite Hdef, bind_Ok, adp_torf_ratio, bind_Ok by done.
    cbn [fmap list_fmap zip_with]. unfold ratio_numerator.
    rewrite decide_False by done. unfold Np.vrev. cbn [vx vy vz].
    rewrite quotient_le_defined by lra.
    rewrite bool_decide_eq_true_2 by lra. by rewrite mask_true.
  - unfold calcADPAxes. by rewrite Hrun, bind_Ok, adp_torf_no_filter.
  - unfold calcADPAxes.
    rewrite Hrun, bind_Ok, adp_torf_ratio, bind_Ok by done.
    cbn [fmap list_fmap zip_with]. unfold ratio_numerator.
    rewrite decide_False by done. unfold Np.vrev. cbn [vx vy vz].
    rewrite quotient_le_defined by lra.
    rewrite bool_decide_eq_false_2 by lra. by rewrite mask_false.
Qed.

Lemma C2_ratio_filter_keeps_low_ratios_witness :
  [definite_atom] ≠ []
  ∧ "ratio2"%string ∈ ["ratio"; "ratio2"; "ratio3"]%string
  ∧ 0 < 1 / 2 < 1
  ∧ 0 < vx (variances_of eigh_diag definite_atom)
  ∧ ∃ unfiltered filtered,
      calcADPAxes eigh_diag (Some [definite_atom]) ∅ = Ok unfiltered
      ∧ calcADPAxes eigh_diag (Some [definite_atom]) {["ratio2"%string := 1 / 2]}
        = Ok filtered
      ∧ filtered !! 0%nat
        = if decide (ratio_numerator "ratio2" (variances_of eigh_diag definite_atom)
                     / vx (variances_of eigh_diag definite_atom) <= 1 / 2)
          then unfiltered !! 0%nat
          else Some Np.mzero.
Proof.
  assert ([definite_atom] ≠ []) as H1 by discriminate.
  assert ("ratio2"%string ∈ ["ratio"; "ratio2"; "ratio3"]%string) as H2
    by (apply elem_of_cons; right; apply elem_of_cons; by left).
  assert (0 < 1 / 2 < 1) as H3 by lra.
  assert (0 < vx (variances_of eigh_diag definite_atom)) as H4.
  { unfold variances_of.
    change (eigh_diag (element_of definite_atom)) with (mkVec3 1 4 9, identity3).
    cbn [fst]. rewrite clamp_definite. unfold Np.vrev. cbn [vx vz]. lra. }
  split; [exact H1|]. split; [exact H2|]. split; [exact H3|]. split; [exact H4|].
  destruct (C2_ratio_filter_keeps_low_ratios eigh_diag [definite_atom]
              "ratio2" (1 / 2) H1 H2 H3)
    as (unfiltered & filtered & Hu & Hf & _ & Hat).
  exists unfiltered, filtered. split; [exact Hu|]. split; [exact Hf|].
  exact (Hat 0%nat definite_atom eq_refl H4).
Defined.

Lemma C5_unweighted_solver_witness :
  two_points ≠ []
  ∧ svd_diag (cross_covariance two_points two_points)
    = (identity3, diagonal (cross_covariance two_points two_points), identity3)
  ∧ _calcTransformation svd_diag two_points two_points None
    = Ok (transformation
            (kabsch_rotation identity3 identity3
               (Np.sign (Np.det (cross_covariance two_points two_points))))
            (Np.vsub (centroid two_points)
               (Np.dot_v_m (centroid two_points)
                  (kabsch_rotation identity3 identity3
                     (Np.sign (Np.det (cross_covariance two_points two_points))))))).
Proof.
  assert (two_points ≠ []) as H1 by discriminate.
  split; [exact H1|]. split; [reflexivity|].
  exact (C5_unweighted_solver svd_diag two_points two_points identity3 identity3
           (diagonal (cross_covariance two_points two_points))
           H1 eq_refl eq_refl).
Defined.

(** The specification's example: reference [[0,0,0],[2,0,0]] against
    [[0,0,0],[0,0,0]] is at [sqrt((0 + 4) / 2) = sqrt 2]; and the same
    target as a stack of one frame, with its own weights [1, 3]. *)
Lemma C6_rmsd_witness :
  spread_pair ≠ []
  ∧ Forall (λ t, length t = length spread_pair) [origin_pair]
  ∧ weights_shape (length spread_pair) 1 (Some (Weights3 [[1; 3]]))
  ∧ _calcRMSD spread_pair (Frame origin_pair) None = Ok (Scalar (sqrt 2))
  ∧ ∃ xs, _calcRMSD spread_pair (Stack [origin_pair]) (Some (Weights3 [[1; 3]]))
          = Ok (Array1 xs)
          ∧ length xs = 1%nat
          ∧ xs !! 0%nat = Some (sqrt 3).
Proof.
  assert (spread_pair ≠ []) as H1 by discriminate.
  assert (Forall (λ t, length t = length spread_pair) [origin_pair]) as H2
    by (by repeat constructor).
  assert (weights_shape (length spread_pair) 1 (Some (Weights3 [[1; 3]]))) as H3
    by (split; [done | by repeat constructor]).
  destruct (C6_rmsd spread_pair H1) as (Hframe & Hstack & Hdiv).
  split; [exact H1|]. split; [exact H2|]. split; [exact H3|]. split.
  - rewrite (Hframe origin_pair eq_refl).
    do 3 f_equal. unfold sqdist, at3. simpl. lra.
  - destruct (Hstack [origin_pair] (Some (Weights3 [[1; 3]])) H2 H3)
      as (xs & Hrun & Hlen & Hat).
    exists xs. split; [exact Hrun|]. split; [exact Hlen|].
    rewrite (Hat 0%nat origin_pair eq_refl).
    rewrite (Hdiv [[1; 3]] 0%nat [1; 3] origin_pair eq_refl).
    do 2 f_equal. unfold sqdist, at1, at3. simpl. lra.
Defined.

Lemma svd_diag_scale_invariant : svd_scale_invariant svd_diag.
Proof. intros k m Hk. by split. Qed.

Lemma C8_uniform_weights_witness :
  0 < 2
  ∧ spread_pair ≠ []
  ∧ svd_scale_invariant svd_diag
  ∧ (∃ v, _calcRMSD spread_pair (Frame origin_pair) (Some (Weights2 [2; 2])) = Ok v
          ∧ _calcRMSD spread_pair (Frame origin_pair) None = Ok v)
  ∧ (∃ v, _calcRMSD spread_pair (Stack [origin_pair; spread_pair])
            (Some (Weights2 [2; 2])) = Ok v
          ∧ _calcRMSD spread_pair (Stack [origin_pair; spread_pair]) None = Ok v)
  ∧ (∃ t, _calcTransformation svd_diag spread_pair spread_pair (Some [2; 2]) = Ok t
          ∧ _calcTransformation svd_diag spread_pair spread_pair None = Ok t).
Proof.
  assert (0 < 2) as H1 by lra.
  assert (spread_pair ≠ []) as H2 by discriminate.
  assert (Forall (λ t, length t = length spread_pair) [origin_pair; spread_pair])
    as H3 by (by repeat constructor).
  pose proof (C8_uniform_weights svd_diag 2 spread_pair H1 H2) as (Hf & Hst & Hs).
  split; [exact H1|]. split; [exact H2|].
  split; [exact svd_diag_scale_invariant|]. split; [|split].
  - exact (Hf origin_pair eq_refl).
  - exact (Hst [origin_pair; spread_pair] H3).
  - exact (Hs svd_diag_scale_invariant spread_pair eq_refl).
Defined.

Lemma C10_fract_takes_precedence_witness :
  [definite_atom; isotropic_atom] ≠ []
  ∧ ({["fract"%string := 1 / 2; "ratio"%string := 5]} : gmap string R) !! "fract"%string
    = Some (1 / 2)
  ∧ 33 / 100 < 1 / 2 < 1
  ∧ calcADPAxes eigh_diag (Some [definite_atom; isotropic_atom])
      {["fract"%string := 1 / 2; "ratio"%string := 5]}
    = calcADPAxes eigh_diag (Some [definite_atom; isotropic_atom])
        {["fract"%string := 1 / 2]}
  ∧ ∃ unfiltered filtered,
      calcADPAxes eigh_diag (Some [definite_atom; isotropic_atom]) ∅ = Ok unfiltered
      ∧ calcADPAxes eigh_diag (Some [definite_atom; isotropic_atom])
          {["fract"%string := 1 / 2; "ratio"%string := 5]} = Ok filtered
      ∧ length filtered = length [definite_atom; isotropic_atom]
      ∧ ∀ i a, [definite_atom; isotropic_atom] !! i = Some a →
          let v := variances_of eigh_diag a in
          0 < Np.vsum v →
          filtered !! i
          = if decide (1 / 2 < vx v / Np.vsum v)
            then unfiltered !! i
            else Some Np.mzero.
Proof.
  assert ([definite_atom; isotropic_atom] ≠ []) as H0 by discriminate.
  assert (({["fract"%string := 1 / 2; "ratio"%string := 5]} : gmap string R)
            !! "fract"%string = Some (1 / 2)) as H1
    by apply lookup_insert_eq.
  assert (33 / 100 < 1 / 2 < 1) as H2 by lra.
  split; [exact H0|]. split; [exact H1|]. split; [exact H2|]. split.
  - exact (proj1 (C10_fract_takes_precedence eigh_diag
                    [definite_atom; isotropic_atom] _ (1 / 2) H0 H1)
             (Some [definite_atom; isotropic_atom])).
  - exact (proj2 (proj2 (C10_fract_takes_precedence eigh_diag
                           [definite_atom; isotropic_atom] _ (1 / 2) H0 H1)) H2).
Defined.

(** * Further properties of [measure.py] *)

(** * Applying transformations *)

Lemma move_rows (rot : Mat3) (t : Vec3) (coords : list Vec3) :
  _applyTransformation (transformation rot t) coords = Ok (move rot t <$> coords).
Proof.
  rewrite apply_transformation. unfold Np.add_row, Np.dot_a_m, move.
  by rewrite <- list_fmap_compose.
Qed.

Lemma move_compose (rot1 rot2 : Mat3) (t1 t2 p : Vec3) :
  move rot2 t2 (move rot1 t1 p)
  = move (Np.dot_m_m rot1 rot2) (Np.vadd (Np.dot_v_m t1 rot2) t2) p.
Proof.
  destruct rot1 as [[] [] []], rot2 as [[] [] []], t1, t2, p.
  unfold move. np_unfold. f_equal; ring.
Qed.

Lemma move_identity (p : Vec3) : move identity3 Np.vzero p = p.
Proof. destruct p. unfold move, identity3. np_unfold. f_equal; ring. Qed.

(** X1.  Applying [(R1, t1)] and then [(R2, t2)] is applying
    [(R1 · R2, t1 · R2 + t2)]; applying [(I, 0)] changes nothing; and
    the result has one row per row of the input. *)
Theorem apply_composes (rot1 rot2 : Mat3) (t1 t2 : Vec3) (coords : list Vec3) :
  (_applyTransformation (transformation rot1 t1) coords
     ≫= _applyTransformation (transformation rot2 t2))
  = _applyTransformation
      (transformation (Np.dot_m_m rot1 rot2) (Np.vadd (Np.dot_v_m t1 rot2) t2))
      coords
  ∧ _applyTransformation (transformation identity3 Np.vzero) coords = Ok coords
  ∧ ∃ moved, _applyTransformation (transformation rot1 t1) coords = Ok moved
             ∧ length moved = length coords.
Proof.
  rewrite !move_rows, bind_Ok, move_rows. split; [|split].
  - f_equal. rewrite <- list_fmap_compose. apply list_fmap_ext.
    intros _ p _. apply move_compose.
  - f_equal. rewrite <- (list_fmap_id coords) at 2. apply list_fmap_ext.
    intros _ p _. apply move_identity.
  - eexists. split; [done|]. by rewrite length_fmap.
Qed.

(** X2.  [ge4x4Matrix] puts the rotation in the top left block, the
    translation in the last column and [0 0 0 1] in the last row.  On a
    column [(p, 1)] this matrix gives [R · p + t], which is where
    [_applyTransformation] takes [p] for the transformation that holds
    the transposed rotation: the matrix acts on columns, where
    [_applyTransformation] multiplies rows from the right. *)
Theorem ge4x4Matrix_acts_on_columns (rot : Mat3) (t p : Vec3) :
  let M := [[vx (row0 rot); vy (row0 rot); vz (row0 rot); vx t];
            [vx (row1 rot); vy (row1 rot); vz (row1 rot); vy t];
            [vx (row2 rot); vy (row2 rot); vz (row2 rot); vz t];
            [0; 0; 0; 1]] in
  ge4x4Matrix (transformation rot t) = Ok M
  ∧ mat_vec M (homogeneous p) = homogeneous (move (Np.transpose rot) t p)
  ∧ _applyTransformation (transformation (Np.transpose rot) t) [p]
    = Ok [move (Np.transpose rot) t p].
Proof.
  intros M. split; [reflexivity|]. split.
  - subst M. destruct rot as [[] [] []], t, p.
    unfold mat_vec, homogeneous, move, Np.inner, Np.sum. np_unfold.
    cbn [fmap list_fmap zip_with foldr].
    repeat (apply (f_equal2 cons); [ring|]). reflexivity.
  - by rewrite move_rows.
Qed.

(** * Distances, and what rigid motions keep *)

Lemma sqdist_sym (p q : Vec3) : sqdist p q = sqdist q p.
Proof. unfold sqdist. ring. Qed.

Lemma sqdist_nonneg (p q : Vec3) : 0 <= sqdist p q.
Proof.
  unfold sqdist.
  pose proof (pow2_ge_0 (vx p - vx q)). pose proof (pow2_ge_0 (vy p - vy q)).
  pose proof (pow2_ge_0 (vz p - vz q)). lra.
Qed.

Lemma sqdist_zero (p q : Vec3) : sqdist p q = 0 ↔ p = q.
Proof.
  destruct p as [a b c], q as [d e f]. unfold sqdist. cbn [vx vy vz]. split.
  - intros H.
    pose proof (pow2_ge_0 (a - d)). pose proof (pow2_ge_0 (b - e)).
    pose proof (pow2_ge_0 (c - f)).
    assert ((a - d) * (a - d) = 0 ∧ (b - e) * (b - e) = 0 ∧ (c - f) * (c - f) = 0)
      as (Ha & Hb & Hc) by (simpl in *; repeat split; lra).
    apply Rmult_integral in Ha, Hb, Hc.
    assert (a = d) as -> by (destruct Ha; lra).
    assert (b = e) as -> by (destruct Hb; lra).
    assert (c = f) as -> by (destruct Hc; lra). done.
  - intros [= -> -> ->]. ring.
Qed.

(** An orthogonal matrix keeps the length of a row vector. *)
Lemma orthogonal_keeps_norm (rot : Mat3) (v : Vec3) :
  orthogonal rot →
  Np.vsum (Np.vsq (Np.dot_v_m v rot)) = Np.vsum (Np.vsq v).
Proof.
  intros [H _]. destruct rot as [[a b c] [d e f] [g h i]], v as [x y z].
  unfold identity3 in H. revert H. np_unfold. intros H.
  injection H as H00 H01 H02 H10 H11 H12 H20 H21 H22.
  pose proof (f_equal (Rmult (x * x)) H00).
  pose proof (f_equal (Rmult (y * y)) H11).
  pose proof (f_equal (Rmult (z * z)) H22).
  pose proof (f_equal (Rmult (2 * x * y)) H01).
  pose proof (f_equal (Rmult (2 * x * z)) H02).
  pose proof (f_equal (Rmult (2 * y * z)) H12).
  cbv beta in *. lra.
Qed.

Lemma move_difference (rot : Mat3) (t p q : Vec3) :
  Np.vsub (move rot t p) (move rot t q) = Np.dot_v_m (Np.vsub p q) rot.
Proof.
  destruct rot as [[] [] []], t, p, q. unfold move. np_unfold. f_equal; ring.
Qed.

Lemma move_keeps_sqdist (rot : Mat3) (t p q : Vec3) :
  orthogonal rot → sqdist (move rot t p) (move rot t q) = sqdist p q.
Proof.
  intros H. rewrite <- !vsum_vsq_vsub, move_difference. by apply orthogonal_keeps_norm.
Qed.

Lemma at3_move (rot : Mat3) (t : Vec3) (a : list Vec3) (i : nat) :
  (i < length a)%nat → at3 (move rot t <$> a) i = move rot t (at3 a i).
Proof.
  intros Hi. destruct (lookup_lt_is_Some_2 a i Hi) as [p Hp].
  rewrite (at3_lookup _ _ _ Hp). apply at3_lookup.
  by rewrite list_lookup_fmap, Hp.
Qed.

Lemma bigsum_nonneg (n : nat) (f : nat → R) :
  (∀ i, (i < n)%nat → 0 <= f i) → 0 <= bigsum n f.
Proof.
  induction n as [|n IH]; intros H; simpl; [lra|].
  specialize (H n (Nat.lt_succ_diag_r n)) as Hn.
  assert (0 <= bigsum n f) by (apply IH; intros; apply H; lia). lra.
Qed.

Lemma bigsum_zero_terms (n : nat) (f : nat → R) :
  (∀ i, (i < n)%nat → 0 <= f i) → bigsum n f = 0 →
  ∀ i, (i < n)%nat → f i = 0.
Proof.
  induction n as [|n IH]; intros H Hsum i Hi; [lia|]. simpl in Hsum.
  specialize (H n (Nat.lt_succ_diag_r n)) as Hn.
  assert (0 <= bigsum n f) by (apply bigsum_nonneg; intros; apply H; lia).
  destruct (decide (i = n)) as [->|Hne]; [lra|].
  apply IH; [intros; apply H; lia | lra | lia].
Qed.

Lemma rmsd_of_sym (a b : list Vec3) :
  length b = length a → rmsd_of b a None = rmsd_of a b None.
Proof.
  intros Hlen. unfold rmsd_of. rewrite Hlen. do 2 f_equal.
  apply bigsum_ext. intros. apply sqdist_sym.
Qed.

Lemma rmsd_of_zero (a b : list Vec3) :
  a ≠ [] → length b = length a → rmsd_of a b None = 0 ↔ a = b.
Proof.
  intros Hne Hlen. pose proof (INR_length_pos a Hne) as HN. unfold rmsd_of.
  assert (0 <= bigsum (length a) (λ j, sqdist (at3 a j) (at3 b j))) as Hs
    by (apply bigsum_nonneg; intros; apply sqdist_nonneg).
  split.
  - intros H. apply sqrt_eq_0 in H.
    + assert (bigsum (length a) (λ j, sqdist (at3 a j) (at3 b j)) = 0) as H0.
      { apply (Rmult_eq_compat_r (INR (length a))) in H.
        unfold Rdiv in H. rewrite Rmult_assoc, Rinv_l in H by lra. lra. }
      apply list_eq. intros i. destruct (decide (i < length a)%nat) as [Hi|Hi].
      * pose proof (bigsum_zero_terms _ _
                      (λ j _, sqdist_nonneg (at3 a j) (at3 b j)) H0 i Hi) as Hz.
        apply sqdist_zero in Hz.
        destruct (lookup_lt_is_Some_2 a i Hi) as [p Hp].
        destruct (lookup_lt_is_Some_2 b i) as [q Hq]; [lia|].
        rewrite (at3_lookup _ _ _ Hp), (at3_lookup _ _ _ Hq) in Hz.
        by rewrite Hp, Hq, Hz.
      * rewrite !lookup_ge_None_2 by lia. done.
    + apply Rmult_le_pos; [done|]. apply Rlt_le. by apply Rinv_0_lt_compat.
  - intros <-.
    rewrite (bigsum_ext _ _ (λ _, 0)).
    + rewrite bigsum_const. unfold Rdiv. rewrite !Rmult_0_l. apply sqrt_0.
    + intros i _. by apply sqdist_zero.
Qed.

(** X3.  [_calcRMSD] of two frames of [N >= 1] atoms does not depend on
    their order, is never negative, and is 0 exactly when the frames
    are equal. *)
Theorem rmsd_symmetric_and_zero_iff_equal (a b : list Vec3) :
  a ≠ [] → length b = length a →
  ∃ v, _calcRMSD a (Frame b) None = Ok (Scalar v)
       ∧ _calcRMSD b (Frame a) None = Ok (Scalar v)
       ∧ 0 <= v
       ∧ (v = 0 ↔ a = b).
Proof.
  intros Hne Hlen. exists (rmsd_of a b None).
  assert (b ≠ []) as Hne' by (by destruct a, b).
  split; [by apply calcRMSD_frame_unweighted|]. split; [|split].
  - rewrite calcRMSD_frame_unweighted by done. by rewrite rmsd_of_sym.
  - unfold rmsd_of. apply sqrt_pos.
  - by apply rmsd_of_zero.
Qed.

Lemma rmsd_symmetric_and_zero_iff_equal_witness :
  spread_pair ≠ [] ∧ length origin_pair = length spread_pair
  ∧ ∃ v, _calcRMSD spread_pair (Frame origin_pair) None = Ok (Scalar v)
         ∧ _calcRMSD origin_pair (Frame spread_pair) None = Ok (Scalar v)
         ∧ 0 <= v
         ∧ (v = 0 ↔ spread_pair = origin_pair).
Proof.
  assert (spread_pair ≠ []) as H1 by discriminate.
  split; [exact H1|]. split; [reflexivity|].
  exact (rmsd_symmetric_and_zero_iff_equal spread_pair origin_pair H1 eq_refl).
Defined.

Lemma rmsd_of_moved (rot : Mat3) (t : Vec3) (ref tar : list Vec3)
    (w : option (list R)) :
  orthogonal rot → length tar = length ref →
  rmsd_of (move rot t <$> ref) (move rot t <$> tar) w = rmsd_of ref tar w.
Proof.
  intros Hrot Hlen. unfold rmsd_of. rewrite length_fmap.
  assert (∀ i, (i < length ref)%nat →
            sqdist (at3 (move rot t <$> ref) i) (at3 (move rot t <$> tar) i)
            = sqdist (at3 ref i) (at3 tar i)) as Hd.
  { intros i Hi. rewrite !at3_move by lia. by apply move_keeps_sqdist. }
  destruct w as [w|]; do 2 f_equal.
  - apply bigsum_ext. intros i Hi. by rewrite Hd.
  - apply bigsum_ext. intros i Hi. by rewrite Hd.
Qed.

(** X4.  Moving the reference and the target by the same transformation
    with an orthogonal rotation leaves [_calcRMSD] as it is, with or
    without an [(N,1)] weight array. *)
Theorem rmsd_rigid_invariant (rot : Mat3) (t : Vec3) (ref tar : list Vec3)
    (w : option (list R)) :
  orthogonal rot → ref ≠ [] → length tar = length ref →
  (∀ w', w = Some w' → length w' = length ref) →
  ∃ ref' tar' v,
    _applyTransformation (transformation rot t) ref = Ok ref'
    ∧ _applyTransformation (transformation rot t) tar = Ok tar'
    ∧ _calcRMSD ref' (Frame tar') (Weights2 <$> w) = Ok v
    ∧ _calcRMSD ref (Frame tar) (Weights2 <$> w) = Ok v.
Proof.
  intros Hrot Hne Hlen Hw.
  exists (move rot t <$> ref), (move rot t <$> tar), (Scalar (rmsd_of ref tar w)).
  split; [apply move_rows|]. split; [apply move_rows|].
  destruct w as [w|]; cbn [fmap option_fmap option_map].
  - specialize (Hw w eq_refl). split.
    + rewrite calcRMSD_frame_weighted by (rewrite !length_fmap; lia).
      by rewrite rmsd_of_moved.
    + by apply calcRMSD_frame_weighted.
  - split.
    + rewrite calcRMSD_frame_unweighted;
        [by rewrite rmsd_of_moved | by destruct ref | rewrite !length_fmap; lia].
    + by apply calcRMSD_frame_unweighted.
Qed.

Lemma orthogonal_quarter_turn : orthogonal quarter_turn.
Proof. unfold orthogonal, quarter_turn, identity3. np_unfold. split; f_equal; f_equal; lra. Qed.

Lemma rmsd_rigid_invariant_witness :
  orthogonal quarter_turn
  ∧ spread_pair ≠ []
  ∧ ∃ ref' tar' v,
      _applyTransformation (transformation quarter_turn shift_2_3_0) spread_pair = Ok ref'
      ∧ _applyTransformation (transformation quarter_turn shift_2_3_0) origin_pair = Ok tar'
      ∧ _calcRMSD ref' (Frame tar') (Some (Weights2 [1; 3])) = Ok v
      ∧ _calcRMSD spread_pair (Frame origin_pair) (Some (Weights2 [1; 3])) = Ok v.
Proof.
  assert (spread_pair ≠ []) as H1 by discriminate.
  split; [exact orthogonal_quarter_turn|]. split; [exact H1|].
  refine (rmsd_rigid_invariant quarter_turn shift_2_3_0 spread_pair origin_pair
            (Some [1; 3]) orthogonal_quarter_turn H1 eq_refl _).
  intros w' [= <-]. reflexivity.
Defined.

(** ** [calcDistance] *)

Lemma row_norms_sub (a b : list Vec3) :
  row_norms (zip_with Np.vsub a b) = zip_with (λ p q, sqrt (sqdist p q)) a b.
Proof.
  unfold row_norms, Np.sum1, Np.sq. apply list_eq. intros i.
  rewrite !list_lookup_fmap, !lookup_zip_with.
  destruct (a !! i) as [p|]; [|done]. destruct (b !! i) as [q|]; [|done].
  simpl. by rewrite vsum_vsq_vsub.
Qed.

Lemma calcDistance_frames (a b : list Vec3) :
  length a = length b →
  calcDistance (Frame a) (Frame b)
  = Ok (Distances1 (zip_with (λ p q, sqrt (sqdist p q)) a b)).
Proof.
  intros Hlen. unfold calcDistance, shape_of. rewrite Hlen.
  rewrite decide_False by (intros H; by apply H).
  unfold Np.sub. rewrite bcast0_same by done. by rewrite bind_Ok, row_norms_sub.
Qed.

(** The length of the sum of two vectors is at most the sum of their
    lengths. *)
Lemma norm_triangle (p q r : Vec3) :
  sqrt (sqdist p r) <= sqrt (sqdist p q) + sqrt (sqdist q r).
Proof.
  pose proof (sqdist_nonneg p q) as HA. pose proof (sqdist_nonneg q r) as HB.
  pose proof (sqrt_pos (sqdist p q)) as HsA. pose proof (sqrt_pos (sqdist q r)) as HsB.
  pose proof (sqrt_sqrt _ HA) as HAA. pose proof (sqrt_sqrt _ HB) as HBB.
  set (sA := sqrt (sqdist p q)) in *. set (sB := sqrt (sqdist q r)) in *.
  rewrite <- (sqrt_square (sA + sB)) by lra.
  apply sqrt_le_1_alt.
  destruct p as [p1 p2 p3], q as [q1 q2 q3], r as [r1 r2 r3].
  unfold sqdist in *. cbn [vx vy vz] in *.
  set (u1 := p1 - q1) in *. set (u2 := p2 - q2) in *. set (u3 := p3 - q3) in *.
  set (v1 := q1 - r1) in *. set (v2 := q2 - r2) in *. set (v3 := q3 - r3) in *.
  replace (p1 - r1) with (u1 + v1) by (subst u1 v1; ring).
  replace (p2 - r2) with (u2 + v2) by (subst u2 v2; ring).
  replace (p3 - r3) with (u3 + v3) by (subst u3 v3; ring).
  clearbody u1 u2 u3 v1 v2 v3 sA sB.
  assert (u1 * v1 + u2 * v2 + u3 * v3 <= sA * sB) as Hcs.
  { destruct (Rle_lt_dec (u1 * v1 + u2 * v2 + u3 * v3) (sA * sB)) as [|Hgt]; [done|].
    exfalso.
    assert (0 <= sA * sB) by (by apply Rmult_le_pos).
    assert ((u1 * v1 + u2 * v2 + u3 * v3) * (u1 * v1 + u2 * v2 + u3 * v3)
            <= (sA * sB) * (sA * sB)) as Hle.
    { replace (sA * sB * (sA * sB)) with ((sA * sA) * (sB * sB)) by ring.
      rewrite HAA, HBB.
      pose proof (pow2_ge_0 (u1 * v2 - u2 * v1)).
      pose proof (pow2_ge_0 (u1 * v3 - u3 * v1)).
      pose proof (pow2_ge_0 (u2 * v3 - u3 * v2)).
      simpl in *. nra. }
    nra. }
  simpl in *. nra.
Qed.

(** X5.  For two frames of the same shape [calcDistance] returns one
    distance per atom; these do not depend on the order of the
    arguments, are 0 exactly for coinciding atoms, and obey the
    triangle inequality through any third frame. *)
Theorem calcDistance_is_a_metric (a b c : list Vec3) :
  length a = length b → length b = length c →
  ∃ dab dba dbc dac,
    calcDistance (Frame a) (Frame b) = Ok (Distances1 dab)
    ∧ calcDistance (Frame b) (Frame a) = Ok (Distances1 dba)
    ∧ calcDistance (Frame b) (Frame c) = Ok (Distances1 dbc)
    ∧ calcDistance (Frame a) (Frame c) = Ok (Distances1 dac)
    ∧ length dab = length a
    ∧ dba = dab
    ∧ (∀ i p q x, a !! i = Some p → b !! i = Some q → dab !! i = Some x →
         0 <= x ∧ (x = 0 ↔ p = q))
    ∧ (∀ i x y z, dab !! i = Some x → dbc !! i = Some y → dac !! i = Some z →
         z <= x + y).
Proof.
  intros Hab Hbc. do 4 eexists.
  split; [by apply calcDistance_frames|]. split; [by apply calcDistance_frames|].
  split; [by apply calcDistance_frames|].
  split; [apply calcDistance_frames; lia|].
  split; [rewrite length_zip_with; lia|]. split; [|split].
  - apply list_eq. intros i. rewrite !lookup_zip_with.
    destruct (a !! i) as [p|], (b !! i) as [q|]; try done. simpl.
    by rewrite sqdist_sym.
  - intros i p q x Hp Hq. rewrite lookup_zip_with, Hp, Hq. simpl. intros [= <-].
    split; [apply sqrt_pos|]. rewrite <- sqdist_zero. split.
    + intros H. apply sqrt_eq_0 in H; [done | apply sqdist_nonneg].
    + intros ->. apply sqrt_0.
  - intros i x y z. rewrite !lookup_zip_with.
    destruct (a !! i) as [p|]; [|done]. destruct (b !! i) as [q|]; [|done].
    destruct (c !! i) as [r|]; [|done]. simpl. intros [= <-] [= <-] [= <-].
    apply norm_triangle.
Qed.

Lemma calcDistance_is_a_metric_witness :
  length spread_pair = length origin_pair
  ∧ length origin_pair = length pair_frame
  ∧ ∃ dab dba dbc dac,
      calcDistance (Frame spread_pair) (Frame origin_pair) = Ok (Distances1 dab)
      ∧ calcDistance (Frame origin_pair) (Frame spread_pair) = Ok (Distances1 dba)
      ∧ calcDistance (Frame origin_pair) (Frame pair_frame) = Ok (Distances1 dbc)
      ∧ calcDistance (Frame spread_pair) (Frame pair_frame) = Ok (Distances1 dac)
      ∧ length dab = length spread_pair
      ∧ dba = dab
      ∧ (∀ i p q x, spread_pair !! i = Some p → origin_pair !! i = Some q →
                    dab !! i = Some x → 0 <= x ∧ (x = 0 ↔ p = q))
      ∧ (∀ i x y z, dab !! i = Some x → dbc !! i = Some y → dac !! i = Some z →
                    z <= x + y).
Proof.
  split; [reflexivity|]. split; [reflexivity|].
  exact (calcDistance_is_a_metric spread_pair origin_pair pair_frame eq_refl eq_refl).
Defined.

(** X6.  Moving both frames by the same transformation with an orthogonal
    rotation leaves every distance as it is. *)
Theorem calcDistance_rigid_invariant (rot : Mat3) (t : Vec3) (a b : list Vec3) :
  orthogonal rot → length a = length b →
  ∃ a' b' d,
    _applyTransformation (transformation rot t) a = Ok a'
    ∧ _applyTransformation (transformation rot t) b = Ok b'
    ∧ calcDistance (Frame a') (Frame b') = Ok (Distances1 d)
    ∧ calcDistance (Frame a) (Frame b) = Ok (Distances1 d).
Proof.
  intros Hrot Hlen.
  exists (move rot t <$> a), (move rot t <$> b),
         (zip_with (λ p q, sqrt (sqdist p q)) a b).
  split; [apply move_rows|]. split; [apply move_rows|]. split.
  - rewrite calcDistance_frames by (by rewrite !length_fmap).
    do 2 f_equal. apply list_eq. intros i.
    rewrite !lookup_zip_with, !list_lookup_fmap.
    destruct (a !! i) as [p|]; [|done]. destruct (b !! i) as [q|]; [|done].
    simpl. by rewrite move_keeps_sqdist.
  - by apply calcDistance_frames.
Qed.

Lemma calcDistance_rigid_invariant_witness :
  orthogonal quarter_turn
  ∧ length spread_pair = length origin_pair
  ∧ ∃ a' b' d,
      _applyTransformation (transformation quarter_turn shift_2_3_0) spread_pair = Ok a'
      ∧ _applyTransformation (transformation quarter_turn shift_2_3_0) origin_pair = Ok b'
      ∧ calcDistance (Frame a') (Frame b') = Ok (Distances1 d)
      ∧ calcDistance (Frame spread_pair) (Frame origin_pair) = Ok (Distances1 d).
Proof.
  split; [exact orthogonal_quarter_turn|]. split; [reflexivity|].
  exact (calcDistance_rigid_invariant quarter_turn shift_2_3_0 spread_pair
           origin_pair orthogonal_quarter_turn eq_refl).
Defined.

(** X7.  The unweighted RMSD of two frames is the root of the mean of the
    squared per-atom distances [calcDistance] returns for them. *)
Theorem rmsd_from_distances (a b : list Vec3) :
  a ≠ [] → length b = length a →
  ∃ d v,
    calcDistance (Frame a) (Frame b) = Ok (Distances1 d)
    ∧ _calcRMSD a (Frame b) None = Ok (Scalar v)
    ∧ v = sqrt (Np.sum ((λ x, x * x) <$> d) / INR (length a)).
Proof.
  intros Hne Hlen. do 2 eexists.
  split; [by apply calcDistance_frames|].
  split; [by apply calcRMSD_frame_unweighted|].
  unfold rmsd_of. do 2 f_equal. symmetry. apply sum_indexed.
  - rewrite length_fmap, length_zip_with. lia.
  - intros i x. rewrite list_lookup_fmap, lookup_zip_with.
    destruct (a !! i) as [p|] eqn:Hp; [|done].
    destruct (b !! i) as [q|] eqn:Hq; [|done]. simpl. intros [= <-].
    rewrite (at3_lookup _ _ _ Hp), (at3_lookup _ _ _ Hq).
    apply sqrt_sqrt, sqdist_nonneg.
Qed.

Lemma rmsd_from_distances_witness :
  spread_pair ≠ [] ∧ length origin_pair = length spread_pair
  ∧ ∃ d v,
      calcDistance (Frame spread_pair) (Frame origin_pair) = Ok (Distances1 d)
      ∧ _calcRMSD spread_pair (Frame origin_pair) None = Ok (Scalar v)
      ∧ v = sqrt (Np.sum ((λ x, x * x) <$> d) / INR (length spread_pair)).
Proof.
  assert (spread_pair ≠ []) as H1 by discriminate.
  split; [exact H1|]. split; [reflexivity|].
  exact (rmsd_from_distances spread_pair origin_pair H1 eq_refl).
Defined.

(** ** The shape checks of [calcRMSD] *)

(** X8.  For a reference of [N >= 1] atoms, a stack of [M >= 1] frames of
    [n] atoms each and, if given, [(N',1)] weights or an [(M',k,1)]
    weight stack, [calcRMSD] returns [M] numbers, frame by frame, when
    [n = N], [N' = N], [M' = M] and [k = n]; in every other case it
    raises [ValueError].  No other exception can come out of it. *)
Theorem calcRMSD_checks_shapes (ref : list Vec3) (tars : list (list Vec3))
    (weights : option weights_t) (n k : nat) :
  ref ≠ [] → tars ≠ [] →
  Forall (λ t, length t = n) tars →
  (∀ ws, weights = Some (Weights3 ws) → Forall (λ w, length w = k) ws) →
  let fits :=
    n = length ref
    ∧ match weights with
      | None => True
      | Some (Weights2 w) => length w = length ref
      | Some (Weights3 ws) => length ws = length tars ∧ k = n
      end in
  (fits → ∃ xs, calcRMSD ref (Stack tars) weights = Ok (Array1 xs)
                ∧ length xs = length tars
                ∧ ∀ i t, tars !! i = Some t →
                    xs !! i = Some (rmsd_of ref t (frame_weights weights i)))
  ∧ (¬ fits → calcRMSD ref (Stack tars) weights = Raise ValueError).
Proof.
  intros Hne Hne' Hrect Hw fits.
  assert (n_atoms_of (Stack tars) = n) as Hn.
  { destruct tars as [|t0 tars]; [done|]. simpl. by inversion Hrect. }
  split.
  - intros (-> & Hfit).
    assert (calcRMSD ref (Stack tars) weights = _calcRMSD ref (Stack tars) weights) as ->.
    { unfold calcRMSD. rewrite Hn. rewrite decide_False by (intros H; by apply H).
      destruct weights as [[w|ws]|]; [| |done].
      - by rewrite decide_True.
      - destruct Hfit as [HM Hk]. rewrite decide_True; [done|].
        unfold shape2_of, shape_of. rewrite Hn. simpl. f_equal; [done|]. f_equal.
        destruct ws as [|w0 ws]; [by destruct tars|].
        specialize (Hw _ eq_refl). inversion Hw. lia. }
    assert (weights_shape (length ref) (length tars) weights) as Hshape.
    { destruct weights as [[w|ws]|]; simpl; [done| |done].
      destruct Hfit as [HM Hk]. split; [done|].
      specialize (Hw _ eq_refl). by rewrite <- Hk. }
    eexists. split; [by apply calcRMSD_stack|]. split; [by rewrite length_imap|].
    intros i t Ht. by rewrite list_lookup_imap, Ht.
  - intros Hno. unfold calcRMSD. rewrite Hn. case_decide as Hlen; [done|].
    destruct weights as [[w|ws]|].
    + case_decide; [|done]. exfalso. apply Hno. by split.
    + case_decide as Hs; [|done]. exfalso. apply Hno. split; [done|].
      unfold shape2_of, shape_of in Hs. rewrite Hn in Hs. simpl in Hs.
      injection Hs as HM Hk. split; [done|].
      destruct ws as [|w0 ws]; [by destruct tars|].
      specialize (Hw _ eq_refl). inversion Hw. lia.
    + exfalso. apply Hno. by split.
Qed.

Lemma calcRMSD_checks_shapes_witness :
  spread_pair ≠ [] ∧ [origin_pair; spread_pair] ≠ []
  ∧ Forall (λ t, length t = 2%nat) [origin_pair; spread_pair]
  ∧ (∃ xs, calcRMSD spread_pair (Stack [origin_pair; spread_pair])
             (Some (Weights3 [[1; 3]; [1; 1]])) = Ok (Array1 xs)
           ∧ length xs = 2%nat)
  ∧ calcRMSD spread_pair (Stack [origin_pair; spread_pair])
      (Some (Weights3 [[1; 3]])) = Raise ValueError.
Proof.
  assert (spread_pair ≠ []) as H1 by discriminate.
  assert ([origin_pair; spread_pair] ≠ []) as H2 by discriminate.
  assert (Forall (λ t, length t = 2%nat) [origin_pair; spread_pair]) as H3
    by (by repeat constructor).
  split; [exact H1|]. split; [exact H2|]. split; [exact H3|]. split.
  - assert (∀ ws, Some (Weights3 [[1; 3]; [1; 1]]) = Some (Weights3 ws) →
                  Forall (λ w, length w = 2%nat) ws) as H4
      by (intros ws [= <-]; by repeat constructor).
    destruct (proj1 (calcRMSD_checks_shapes spread_pair [origin_pair; spread_pair]
                       (Some (Weights3 [[1; 3]; [1; 1]])) 2 2 H1 H2 H3 H4))
      as (xs & Hrun & Hlen & _).
    { split; [reflexivity|]. split; reflexivity. }
    exists xs. split; [exact Hrun | exact Hlen].
  - assert (∀ ws, Some (Weights3 [[1; 3]]) = Some (Weights3 ws) →
                  Forall (λ w, length w = 2%nat) ws) as H4
      by (intros ws [= <-]; by repeat constructor).
    apply (proj2 (calcRMSD_checks_shapes spread_pair [origin_pair; spread_pair]
                    (Some (Weights3 [[1; 3]])) 2 2 H1 H2 H3 H4)).
    intros (_ & HM & _). discriminate HM.
Defined.

(** * [calcDistance] on stacks *)

Lemma mapM_Ok {A B : Type} (f : A → result B) (g : A → B) (l : list A) :
  (∀ x, x ∈ l → f x = Ok (g x)) → mapM f l = Ok (g <$> l).
Proof.
  induction l as [|x l IH]; intros Hf; [done|].
  cbn [mapM]. rewrite Hf by (by left). rewrite bind_Ok.
  rewrite IH by (intros y Hy; apply Hf; by right). by rewrite bind_Ok.
Qed.

(** X9.  For two stacks of the same shape [calcDistance] returns, frame by
    frame, the distances it returns for the two frames alone; a frame
    and a stack are refused with [ValueError]. *)
Theorem calcDistance_stack_per_frame (s t : list (list Vec3)) (n : nat) :
  length s = length t →
  Forall (λ a, length a = n) s → Forall (λ b, length b = n) t →
  ∃ ds,
    calcDistance (Stack s) (Stack t) = Ok (Distances2 ds)
    ∧ length ds = length s
    ∧ (∀ i a b, s !! i = Some a → t !! i = Some b →
         ∃ d, ds !! i = Some d
              ∧ calcDistance (Frame a) (Frame b) = Ok (Distances1 d))
    ∧ (∀ a, calcDistance (Frame a) (Stack s) = Raise ValueError
            ∧ calcDistance (Stack s) (Frame a) = Raise ValueError).
Proof.
  intros Hlen Hs Ht.
  assert (shape_of (Stack s) = shape_of (Stack t)) as Hshape.
  { unfold shape_of, n_atoms_of. rewrite Hlen. do 2 f_equal.
    destruct s as [|a s], t as [|b t]; try done.
    inversion Hs; inversion Ht; congruence. }
  exists ((λ '(a, b), zip_with (λ p q, sqrt (sqdist p q)) a b) <$> zip s t).
  split; [|split; [|split]].
  - unfold calcDistance. rewrite decide_False by (by intros ?).
    rewrite (mapM_Ok _ (λ '(a, b), zip_with (λ p q, sqrt (sqdist p q)) a b)).
    + by rewrite bind_Ok.
    + intros [a b] Hin. apply elem_of_zip_l in Hin as Ha.
      apply elem_of_zip_r in Hin as Hb.
      rewrite (Forall_forall _ s) in Hs. rewrite (Forall_forall _ t) in Ht.
      unfold Np.sub. rewrite bcast0_same by (rewrite (Hs a Ha), (Ht b Hb); done).
      rewrite bind_Ok. by rewrite row_norms_sub.
  - rewrite length_fmap, length_zip. lia.
  - intros i a b Ha Hb. eexists. split.
    + rewrite list_lookup_fmap, lookup_zip_with, Ha. cbn. rewrite Hb. cbn. reflexivity.
    + apply calcDistance_frames.
      rewrite (Forall_lookup_1 _ _ _ _ Hs Ha), (Forall_lookup_1 _ _ _ _ Ht Hb). done.
  - intros a. split; unfold calcDistance; by rewrite decide_True.
Qed.

Lemma calcDistance_stack_per_frame_witness :
  length [spread_pair; two_points] = length [origin_pair; pair_frame]
  ∧ Forall (λ a, length a = 2%nat) [spread_pair; two_points]
  ∧ Forall (λ b, length b = 2%nat) [origin_pair; pair_frame]
  ∧ ∃ ds,
      calcDistance (Stack [spread_pair; two_points]) (Stack [origin_pair; pair_frame])
      = Ok (Distances2 ds)
      ∧ length ds = length [spread_pair; two_points]
      ∧ (∀ i a b, [spread_pair; two_points] !! i = Some a →
           [origin_pair; pair_frame] !! i = Some b →
           ∃ d, ds !! i = Some d
                ∧ calcDistance (Frame a) (Frame b) = Ok (Distances1 d))
      ∧ (∀ a, calcDistance (Frame a) (Stack [spread_pair; two_points])
              = Raise ValueError
              ∧ calcDistance (Stack [spread_pair; two_points]) (Frame a)
                = Raise ValueError).
Proof.
  assert (Forall (λ a, length a = 2%nat) [spread_pair; two_points]) as H1
    by (by repeat constructor).
  assert (Forall (λ b, length b = 2%nat) [origin_pair; pair_frame]) as H2
    by (by repeat constructor).
  split; [reflexivity|]. split; [exact H1|]. split; [exact H2|].
  exact (calcDistance_stack_per_frame [spread_pair; two_points]
           [origin_pair; pair_frame] 2 eq_refl H1 H2).
Defined.

(** * Radius of gyration, beyond the weighted centre *)

(** X10.  With weights, [calcRadiusOfGyration] raises [ValueError] for every
    frame whose number of atoms is neither 1 nor 3, whatever the
    weights are: a weight array of another length fails the length
    check, and one of the right length cannot be multiplied with the
    coordinates.  The same holds for a stack of such frames. *)
Theorem weighted_gyration_raises (coords : list Vec3) (weights : list R)
    (rest : list (list Vec3)) :
  length coords ≠ 1%nat → length coords ≠ 3%nat →
  calcRadiusOfGyration (Frame coords) (Some weights) = Raise ValueError
  ∧ calcRadiusOfGyration (Stack (coords :: rest)) (Some weights) = Raise ValueError.
Proof.
  intros H1 H3.
  assert (length weights = length coords →
          Np.mul_last coords weights = Raise ValueError) as Hmul.
  { intros Hlen. rewrite <- Hlen in H1, H3.
    by destruct weights as [|? [|? [|? [|? ?]]]]. }
  unfold calcRadiusOfGyration. cbn [n_atoms_of].
  destruct (decide (length weights ≠ length coords)) as [Hne|Heq]; [done|].
  apply dec_stable in Heq. rewrite bind_Ok. cbn [for_each].
  unfold _gyration_d2sum. by rewrite Hmul.
Qed.

Lemma weighted_gyration_raises_witness :
  length two_points ≠ 1%nat ∧ length two_points ≠ 3%nat
  ∧ calcRadiusOfGyration (Frame two_points) (Some [1; 1]) = Raise ValueError
  ∧ calcRadiusOfGyration (Stack [two_points; two_points]) (Some [1; 1])
    = Raise ValueError.
Proof.
  assert (length two_points ≠ 1%nat) as H1 by discriminate.
  assert (length two_points ≠ 3%nat) as H3 by discriminate.
  split; [exact H1|]. split; [exact H3|].
  exact (weighted_gyration_raises two_points [1; 1] [two_points] H1 H3).
Defined.

Lemma sum_all_sq_centered (a : list Vec3) (c : Vec3) :
  Np.sum_all (Np.sq (Np.sub_row a c))
  = bigsum (length a) (λ i, sqdist (at3 a i) c).
Proof.
  unfold Np.sum_all, Np.sq, Np.sub_row. apply sum_indexed.
  - by rewrite !length_fmap.
  - intros i x. rewrite !list_lookup_fmap.
    destruct (a !! i) as [p|] eqn:Hp; [|done]. simpl. intros [= <-].
    rewrite (at3_lookup _ _ _ Hp). apply vsum_vsq_vsub.
Qed.

(** Without weights the radius of gyration is
    [sqrt(Σ ‖x − mean‖² / N)]. *)
Lemma gyration_unweighted (a : list Vec3) :
  calcRadiusOfGyration (Frame a) None
  = Ok (Scalar (sqrt (bigsum (length a) (λ i, sqdist (at3 a i) (centroid a))
                      / INR (length a)))).
Proof.
  unfold calcRadiusOfGyration, _gyration_d2sum. cbn [n_atoms_of].
  rewrite !bind_Ok. by rewrite sum_all_sq_centered, mean0_centroid.
Qed.

Lemma sum0_moved (rot : Mat3) (t : Vec3) (a : list Vec3) :
  Np.sum0 (move rot t <$> a)
  = Np.vadd (Np.dot_v_m (Np.sum0 a) rot) (Np.vscale (INR (length a)) t).
Proof.
  induction a as [|p a IH].
  - destruct rot as [[] [] []], t. unfold Np.sum0. cbn [fmap list_fmap foldr length INR].
    np_unfold. f_equal; ring.
  - change (Np.sum0 (move rot t <$> p :: a))
      with (Np.vadd (move rot t p) (Np.sum0 (move rot t <$> a))).
    change (Np.sum0 (p :: a)) with (Np.vadd p (Np.sum0 a)).
    rewrite IH. change (length (p :: a)) with (S (length a)). rewrite S_INR.
    destruct rot as [[] [] []], t, p, (Np.sum0 a). unfold move. np_unfold.
    f_equal; ring.
Qed.

Lemma centroid_moved (rot : Mat3) (t : Vec3) (a : list Vec3) :
  a ≠ [] → centroid (move rot t <$> a) = move rot t (centroid a).
Proof.
  intros Hne. pose proof (INR_length_pos a Hne) as HN.
  rewrite <- !mean0_centroid. unfold Np.mean0.
  rewrite sum0_moved, length_fmap.
  destruct rot as [[] [] []], t, (Np.sum0 a). unfold move. np_unfold.
  f_equal; field; lra.
Qed.

(** X11.  The unweighted radius of gyration of a frame of [N >= 1] atoms does
    not change when the frame is moved by a transformation with an
    orthogonal rotation. *)
Theorem gyration_rigid_invariant (rot : Mat3) (t : Vec3) (a : list Vec3) :
  orthogonal rot → a ≠ [] →
  ∃ a' v,
    _applyTransformation (transformation rot t) a = Ok a'
    ∧ calcRadiusOfGyration (Frame a') None = Ok v
    ∧ calcRadiusOfGyration (Frame a) None = Ok v.
Proof.
  intros Hrot Hne. do 2 eexists. split; [apply move_rows|]. split.
  - rewrite gyration_unweighted, length_fmap, centroid_moved by done.
    rewrite (bigsum_ext _ _ (λ i, sqdist (at3 a i) (centroid a))); [done|].
    intros i Hi. rewrite at3_move by done. by apply move_keeps_sqdist.
  - apply gyration_unweighted.
Qed.

Lemma gyration_rigid_invariant_witness :
  orthogonal quarter_turn ∧ two_points ≠ []
  ∧ ∃ a' v,
      _applyTransformation (transformation quarter_turn shift_2_3_0) two_points = Ok a'
      ∧ calcRadiusOfGyration (Frame a') None = Ok v
      ∧ calcRadiusOfGyration (Frame two_points) None = Ok v.
Proof.
  assert (two_points ≠ []) as H1 by discriminate.
  split; [exact orthogonal_quarter_turn|]. split; [exact H1|].
  exact (gyration_rigid_invariant quarter_turn shift_2_3_0 two_points
           orthogonal_quarter_turn H1).
Defined.

Lemma for_each_append {A B : Type} (f : A → result B) (g : A → B)
    (l : list A) (acc : list B) :
  (∀ x, x ∈ l → f x = Ok (g x)) →
  for_each (λ x acc, y ← f x; Ok (acc ++ [y])) l acc = Ok (acc ++ (g <$> l)).
Proof.
  revert acc. induction l as [|x l IH]; intros acc Hf.
  - by rewrite app_nil_r.
  - cbn [for_each]. rewrite Hf by (by left). rewrite !bind_Ok.
    rewrite IH by (intros y Hy; apply Hf; by right).
    by rewrite <- app_assoc.
Qed.

(** X12.  For a stack of [M] frames with the same number of atoms and no
    weights, [calcRadiusOfGyration] returns [M] numbers, the [i]-th
    being what it returns for frame [i] alone. *)
Theorem gyration_stack_per_frame (frames : list (list Vec3)) (n : nat) :
  Forall (λ a, length a = n) frames →
  ∃ xs, calcRadiusOfGyration (Stack frames) None = Ok (Array1 xs)
        ∧ length xs = length frames
        ∧ ∀ i a, frames !! i = Some a →
            ∃ x, xs !! i = Some x
                 ∧ calcRadiusOfGyration (Frame a) None = Ok (Scalar x).
Proof.
  intros Hrect.
  assert (frames ≠ [] → n_atoms_of (Stack frames) = n) as Hn.
  { destruct frames as [|a0 frames]; [done|]. intros _. simpl. by inversion Hrect. }
  eexists. split; [|split].
  - unfold calcRadiusOfGyration. rewrite bind_Ok.
    rewrite (for_each_append _
               (λ a, Np.sum_all (Np.sq (Np.sub_row a (Np.mean0 a))))) by done.
    rewrite bind_Ok. reflexivity.
  - cbn [app]. by rewrite !length_fmap.
  - intros i a Ha. eexists. split.
    + cbn [app]. rewrite !list_lookup_fmap, Ha. reflexivity.
    + assert (frames ≠ []) as Hne by (intros ->; done).
      rewrite (Hn Hne). cbn [app].
      pose proof (Forall_lookup_1 _ _ _ _ Hrect Ha) as Hlen. cbv beta in Hlen.
      unfold calcRadiusOfGyration, _gyration_d2sum. cbn [n_atoms_of].
      rewrite !bind_Ok. by rewrite Hlen.
Qed.

Lemma gyration_stack_per_frame_witness :
  Forall (λ a, length a = 2%nat) [two_points; spread_pair]
  ∧ ∃ xs, calcRadiusOfGyration (Stack [two_points; spread_pair]) None = Ok (Array1 xs)
          ∧ length xs = 2%nat
          ∧ ∀ i a, [two_points; spread_pair] !! i = Some a →
              ∃ x, xs !! i = Some x
                   ∧ calcRadiusOfGyration (Frame a) None = Ok (Scalar x).
Proof.
  assert (Forall (λ a, length a = 2%nat) [two_points; spread_pair]) as H1
    by (by repeat constructor).
  split; [exact H1|].
  exact (gyration_stack_per_frame [two_points; spread_pair] 2 H1).
Defined.

(** * The solver: centres, proper rotations, flat inputs *)

Lemma move_onto_centre (rot : Mat3) (mc tc : Vec3) :
  move rot (Np.vsub tc (Np.dot_v_m mc rot)) mc = tc.
Proof. destruct rot as [[] [] []], mc, tc. unfold move. np_unfold. f_equal; ring. Qed.

Lemma sum0_weighted_moved (rot : Mat3) (t : Vec3) (a : list Vec3) (w : list R) :
  length w = length a →
  Np.sum0 (zip_with (λ r k, Np.vscale k r) (move rot t <$> a) w)
  = Np.vadd (Np.dot_v_m (Np.sum0 (zip_with (λ r k, Np.vscale k r) a w)) rot)
            (Np.vscale (Np.sum w) t).
Proof.
  revert w. induction a as [|p a IH]; intros [|k w] Hlen; try done.
  - destruct rot as [[] [] []], t. unfold Np.sum0, Np.sum. cbn [fmap list_fmap zip_with foldr].
    np_unfold. f_equal; ring.
  - injection Hlen as Hlen.
    change (Np.sum0 (zip_with (λ r k, Np.vscale k r) (move rot t <$> p :: a) (k :: w)))
      with (Np.vadd (Np.vscale k (move rot t p))
              (Np.sum0 (zip_with (λ r k, Np.vscale k r) (move rot t <$> a) w))).
    change (Np.sum0 (zip_with (λ r k, Np.vscale k r) (p :: a) (k :: w)))
      with (Np.vadd (Np.vscale k p) (Np.sum0 (zip_with (λ r k, Np.vscale k r) a w))).
    change (Np.sum (k :: w)) with (k + Np.sum w).
    rewrite (IH w Hlen).
    destruct rot as [[] [] []], t, p, (Np.sum0 (zip_with (λ r k, Np.vscale k r) a w)).
    unfold move. np_unfold. f_equal; ring.
Qed.

Lemma weighted_centroid_moved (rot : Mat3) (t : Vec3) (a : list Vec3) (w : list R) :
  length w = length a → Np.sum w ≠ 0 →
  weighted_centroid w (move rot t <$> a) = move rot t (weighted_centroid w a).
Proof.
  intros Hlen Hw.
  rewrite <- !weighted_mean_centroid by (by rewrite ?length_fmap).
  rewrite sum0_weighted_moved by done.
  destruct rot as [[] [] []], t, (Np.sum0 (zip_with (λ r k, Np.vscale k r) a w)).
  unfold move. np_unfold. f_equal; field; done.
Qed.

(** X13.  [calcTransformation] brings the centre of the mobile frame onto the
    centre of the target, whatever rotation [linalg.svd] leads to: for
    two frames of the same [N >= 1] atoms, the frame that
    [applyTransformation] makes of [mobile] has the mean of the target;
    with weights (one per atom, their sum not zero) the same holds for
    the weighted means. *)
Theorem calcTransformation_aligns_centres
    (svd : Mat3 → Mat3 * Vec3 * Mat3) (mobile target : list Vec3)
    (weights : option (list R)) :
  length mobile = length target →
  match weights with
  | None => mobile ≠ []
  | Some w => length w = length mobile ∧ Np.sum w ≠ 0
  end →
  ∃ T moved,
    calcTransformation svd mobile target weights = Ok T
    ∧ applyTransformation T mobile = Ok moved
    ∧ length moved = length mobile
    ∧ centre_of weights moved = centre_of weights target.
Proof.
  intros Hlen Hw. unfold calcTransformation, applyTransformation.
  rewrite decide_False by (intros ?; done).
  destruct weights as [w|].
  - destruct Hw as [Hwlen Hsum].
    rewrite decide_False by (intros ?; done).
    unfold _calcTransformation. rewrite matrix_weighted by done.
    rewrite bind_Ok, init_transformation.
    do 2 eexists. split; [done|]. split; [apply move_rows|].
    split; [by rewrite length_fmap|]. cbn [centre_of].
    rewrite weighted_centroid_moved by done. apply move_onto_centre.
  - unfold _calcTransformation. rewrite matrix_unweighted by done.
    rewrite bind_Ok, init_transformation.
    do 2 eexists. split; [done|]. split; [apply move_rows|].
    split; [by rewrite length_fmap|]. cbn [centre_of].
    rewrite centroid_moved by done. apply move_onto_centre.
Qed.

Lemma sum_middle_weights : Np.sum middle_weights ≠ 0.
Proof. unfold Np.sum, middle_weights. cbn [foldr]. lra. Qed.

Lemma calcTransformation_aligns_centres_witness :
  length line_frame = length bent_target
  ∧ (length middle_weights = length line_frame ∧ Np.sum middle_weights ≠ 0)
  ∧ ∃ T moved,
      calcTransformation svd_diag line_frame bent_target (Some middle_weights) = Ok T
      ∧ applyTransformation T line_frame = Ok moved
      ∧ length moved = length line_frame
      ∧ centre_of (Some middle_weights) moved
        = centre_of (Some middle_weights) bent_target.
Proof.
  split; [reflexivity|]. split; [exact (conj eq_refl sum_middle_weights)|].
  exact (calcTransformation_aligns_centres svd_diag line_frame bent_target
           (Some middle_weights) eq_refl (conj eq_refl sum_middle_weights)).
Defined.

(** ** Determinants and orthogonal matrices *)

Lemma det_dot_m_m (a b : Mat3) : Np.det (Np.dot_m_m a b) = Np.det a * Np.det b.
Proof.
  destruct a as [[] [] []], b as [[] [] []]. unfold Np.det. np_unfold. ring.
Qed.

Lemma det_transpose (a : Mat3) : Np.det (Np.transpose a) = Np.det a.
Proof. destruct a as [[] [] []]. unfold Np.det. np_unfold. ring. Qed.

Lemma det_identity3 : Np.det identity3 = 1.
Proof. unfold Np.det, identity3. ring. Qed.

Lemma det_diag3 (s : Vec3) : Np.det (diag3 s) = vx s * vy s * vz s.
Proof. destruct s. unfold Np.det, diag3. cbn [vx vy vz]. ring. Qed.

Lemma det_diag11 (d : R) : Np.det (diag11 d) = d.
Proof. unfold Np.det, diag11. ring. Qed.

Lemma transpose_transpose (a : Mat3) : Np.transpose (Np.transpose a) = a.
Proof. by destruct a as [[] [] []]. Qed.

Lemma transpose_dot_m_m (a b : Mat3) :
  Np.transpose (Np.dot_m_m a b) = Np.dot_m_m (Np.transpose b) (Np.transpose a).
Proof.
  destruct a as [[] [] []], b as [[] [] []]. np_unfold. f_equal; f_equal; ring.
Qed.

Lemma dot_m_m_assoc (a b c : Mat3) :
  Np.dot_m_m (Np.dot_m_m a b) c = Np.dot_m_m a (Np.dot_m_m b c).
Proof.
  destruct a as [[] [] []], b as [[] [] []], c as [[] [] []]. np_unfold.
  f_equal; f_equal; ring.
Qed.

Lemma dot_m_m_identity_l (a : Mat3) : Np.dot_m_m identity3 a = a.
Proof. destruct a as [[] [] []]. unfold identity3. np_unfold. f_equal; f_equal; ring. Qed.

Lemma orthogonal_det (a : Mat3) : orthogonal a → Np.det a = 1 ∨ Np.det a = -1.
Proof.
  intros [H _]. apply (f_equal Np.det) in H.
  rewrite det_dot_m_m, det_transpose, det_identity3 in H.
  assert ((Np.det a - 1) * (Np.det a + 1) = 0) as H0 by lra.
  apply Rmult_integral in H0 as [?|?]; [left | right]; lra.
Qed.

Lemma orthogonal_transpose (a : Mat3) : orthogonal a → orthogonal (Np.transpose a).
Proof. intros [H1 H2]. split; by rewrite transpose_transpose. Qed.

Lemma orthogonal_dot_m_m (a b : Mat3) :
  orthogonal a → orthogonal b → orthogonal (Np.dot_m_m a b).
Proof.
  intros [Ha1 Ha2] [Hb1 Hb2]. split; rewrite transpose_dot_m_m.
  - rewrite dot_m_m_assoc, <- (dot_m_m_assoc b), Hb1, dot_m_m_identity_l. done.
  - rewrite dot_m_m_assoc, <- (dot_m_m_assoc (Np.transpose a)), Ha2,
      dot_m_m_identity_l. done.
Qed.

Lemma orthogonal_diag11 (d : R) : d = 1 ∨ d = -1 → orthogonal (diag11 d).
Proof.
  intros Hd. assert (d * d = 1) as Hdd by (destruct Hd as [-> | ->]; lra).
  unfold orthogonal, diag11, identity3. np_unfold.
  split; f_equal; f_equal; lra.
Qed.

Lemma orthogonal_identity3 : orthogonal identity3.
Proof. unfold orthogonal, identity3. np_unfold. split; f_equal; f_equal; lra. Qed.

Lemma rotation_of_kabsch (svd : Mat3 → Mat3 * Vec3 * Mat3) (m : Mat3) :
  rotation_of svd m
  = kabsch_rotation (svd m).1.1 (svd m).2 (Np.sign (Np.det m)).
Proof. unfold rotation_of. by destruct (svd m) as [[U s] Vh]. Qed.

(** X14.  If [linalg.svd] keeps its contract on the matrix [H] the solver
    hands it, and [H] is not singular, the rotation of the
    transformation that [calcTransformation] returns is a proper one:
    orthogonal, with determinant [+1], also where the best orthogonal
    fit [Vhᵀ · Uᵀ] would be a reflection. *)
Theorem calcTransformation_rotation_is_proper
    (svd : Mat3 → Mat3 * Vec3 * Mat3) (mobile target : list Vec3) :
  length mobile = length target →
  svd_decomposes svd (cross_covariance mobile target) →
  Np.det (cross_covariance mobile target) ≠ 0 →
  ∃ rot t,
    calcTransformation svd mobile target None = Ok (transformation rot t)
    ∧ orthogonal rot ∧ Np.det rot = 1.
Proof.
  intros Hlen (Hm & HU & HVh & H0 & H1 & H2) Hdet.
  unfold calcTransformation. rewrite decide_False by (intros ?; done).
  unfold _calcTransformation. rewrite matrix_unweighted by done.
  rewrite bind_Ok, init_transformation. do 2 eexists. split; [done|].
  rewrite rotation_of_kabsch.
  set (H := cross_covariance mobile target) in *.
  destruct (svd H) as [[U s] Vh]. cbn [fst snd] in *.
  assert (Np.det H = Np.det U * (vx s * vy s * vz s) * Np.det Vh) as HdetH.
  { rewrite Hm at 1. rewrite !det_dot_m_m, det_diag3. ring. }
  assert (0 <= vx s * vy s * vz s) as Hprod
    by (apply Rmult_le_pos; [apply Rmult_le_pos|]; done).
  assert (0 < vx s * vy s * vz s) as Hpos.
  { destruct Hprod as [?|Hz]; [done|]. rewrite HdetH, <- Hz in Hdet. lra. }
  assert (Np.sign (Np.det H) = Np.det U * Np.det Vh
          ∧ (Np.sign (Np.det H) = 1 ∨ Np.sign (Np.det H) = -1)) as [Hsign Hone].
  { rewrite HdetH.
    destruct (orthogonal_det U HU) as [-> | ->],
             (orthogonal_det Vh HVh) as [-> | ->].
    - rewrite sign_pos by lra. split; [lra | by left].
    - rewrite sign_neg by lra. split; [lra | by right].
    - rewrite sign_neg by lra. split; [lra | by right].
    - rewrite sign_pos by lra. split; [lra | by left]. }
  unfold kabsch_rotation. split.
  - apply orthogonal_dot_m_m; [by apply orthogonal_transpose|].
    apply orthogonal_dot_m_m; [by apply orthogonal_diag11|].
    by apply orthogonal_transpose.
  - rewrite !det_dot_m_m, !det_transpose, det_diag11, Hsign.
    destruct (orthogonal_det U HU) as [-> | ->],
             (orthogonal_det Vh HVh) as [-> | ->]; lra.
Qed.

Lemma centroid_tetrahedron : centroid tetrahedron = Np.vzero.
Proof.
  unfold centroid, vec_of, at3, tetrahedron, Np.vzero. simpl. f_equal; lra.
Qed.

Lemma covariance_tetrahedron :
  cross_covariance tetrahedron tetrahedron
  = mkMat3 (mkVec3 4 0 0) (mkVec3 0 4 0) (mkVec3 0 0 4).
Proof.
  unfold cross_covariance. rewrite centroid_tetrahedron.
  unfold centered, mat_of, vec_of, at3, tetrahedron, Np.vzero. simpl.
  f_equal; f_equal; lra.
Qed.

Lemma svd_diag_decomposes (a b c : R) :
  0 <= a → 0 <= b → 0 <= c →
  svd_decomposes svd_diag (mkMat3 (mkVec3 a 0 0) (mkVec3 0 b 0) (mkVec3 0 0 c)).
Proof.
  intros Ha Hb Hc. unfold svd_decomposes, svd_diag. cbn [fst snd].
  split; [|split; [apply orthogonal_identity3|split; [apply orthogonal_identity3|]]].
  - unfold diagonal, diag3, identity3. np_unfold. f_equal; f_equal; ring.
  - unfold diagonal. cbn [vx vy vz row0 row1 row2]. done.
Qed.

Lemma calcTransformation_rotation_is_proper_witness :
  length tetrahedron = length tetrahedron
  ∧ svd_decomposes svd_diag (cross_covariance tetrahedron tetrahedron)
  ∧ Np.det (cross_covariance tetrahedron tetrahedron) ≠ 0
  ∧ ∃ rot t,
      calcTransformation svd_diag tetrahedron tetrahedron None
      = Ok (transformation rot t)
      ∧ orthogonal rot ∧ Np.det rot = 1.
Proof.
  assert (svd_decomposes svd_diag (cross_covariance tetrahedron tetrahedron)) as H1.
  { rewrite covariance_tetrahedron. apply svd_diag_decomposes; lra. }
  assert (Np.det (cross_covariance tetrahedron tetrahedron) ≠ 0) as H2.
  { rewrite covariance_tetrahedron. unfold Np.det. lra. }
  split; [reflexivity|]. split; [exact H1|]. split; [exact H2|].
  exact (calcTransformation_rotation_is_proper svd_diag tetrahedron tetrahedron
           eq_refl H1 H2).
Defined.

(** ** Flat inputs *)

Lemma bigsum_zero (n : nat) (f : nat → R) :
  (∀ i, (i < n)%nat → f i = 0) → bigsum n f = 0.
Proof.
  intros H. rewrite (bigsum_ext _ _ (λ _, 0) H), bigsum_const. lra.
Qed.

Lemma flat_centered (a : list Vec3) (z0 : R) (i : nat) :
  Forall (λ p, vz p = z0) a → (i < length a)%nat →
  centered a (centroid a) Z i = 0.
Proof.
  intros Hflat Hi.
  assert (∀ j, (j < length a)%nat → coord Z (at3 a j) = z0) as Hz.
  { intros j Hj. destruct (lookup_lt_is_Some_2 a j Hj) as [p Hp].
    rewrite (at3_lookup _ _ _ Hp). exact (Forall_lookup_1 _ _ _ _ Hflat Hp). }
  unfold centered, centroid. rewrite coord_vec_of, (Hz i Hi).
  rewrite (bigsum_ext _ _ (λ _, z0) Hz), bigsum_const.
  assert (0 < INR (length a)) by (apply lt_0_INR; lia).
  field. lra.
Qed.

Lemma det_zero_row (m : Mat3) :
  (∀ c, entry m Z c = 0) → Np.det m = 0.
Proof.
  intros H. pose proof (H X) as HX. pose proof (H Y) as HY. pose proof (H Z) as HZ.
  destruct m as [[] [] []]. cbn in HX, HY, HZ. subst. unfold Np.det. ring.
Qed.

Lemma det_zero_column (m : Mat3) :
  (∀ r, entry m r Z = 0) → Np.det m = 0.
Proof.
  intros H. pose proof (H X) as HX. pose proof (H Y) as HY. pose proof (H Z) as HZ.
  destruct m as [[] [] []]. cbn in HX, HY, HZ. subst. unfold Np.det. ring.
Qed.

Lemma flat_covariance_singular (mobile target : list Vec3) (z0 : R) :
  length mobile = length target →
  Forall (λ p, vz p = z0) target ∨ Forall (λ p, vz p = z0) mobile →
  Np.det (cross_covariance mobile target) = 0.
Proof.
  intros Hlen [Hflat|Hflat].
  - apply det_zero_row. intros c. unfold cross_covariance. rewrite entry_mat_of.
    apply bigsum_zero. intros i Hi.
    rewrite (flat_centered target z0 i Hflat) by lia. ring.
  - apply det_zero_column. intros r. unfold cross_covariance. rewrite entry_mat_of.
    apply bigsum_zero. intros i Hi.
    rewrite (flat_centered mobile z0 i Hflat) by lia. ring.
Qed.

(** X15.  When all atoms of the target, or all atoms of the mobile frame, have
    the same third coordinate (a frame lying in a plane [z = z0]), the
    matrix that [calcTransformation] returns as the rotation has
    determinant 0, for every [linalg.svd]: the matrix given to it is
    singular, [np.sign] of its determinant is 0, and the third singular
    direction is dropped from the product instead of being kept or
    negated. *)
Theorem calcTransformation_flat_is_singular
    (svd : Mat3 → Mat3 * Vec3 * Mat3) (mobile target : list Vec3) (z0 : R) :
  length mobile = length target →
  Forall (λ p, vz p = z0) target ∨ Forall (λ p, vz p = z0) mobile →
  ∃ rot t,
    calcTransformation svd mobile target None = Ok (transformation rot t)
    ∧ Np.det rot = 0.
Proof.
  intros Hlen Hflat.
  unfold calcTransformation. rewrite decide_False by (intros ?; done).
  unfold _calcTransformation. rewrite matrix_unweighted by done.
  rewrite bind_Ok, init_transformation. do 2 eexists. split; [done|].
  rewrite rotation_of_kabsch, (flat_covariance_singular _ _ z0 Hlen Hflat), sign_zero.
  unfold kabsch_rotation. rewrite !det_dot_m_m, det_diag11. ring.
Qed.

Lemma calcTransformation_flat_is_singular_witness :
  length line_frame = length bent_target
  ∧ (Forall (λ p, vz p = 0) bent_target ∨ Forall (λ p, vz p = 0) line_frame)
  ∧ ∃ rot t,
      calcTransformation svd_diag line_frame bent_target None
      = Ok (transformation rot t)
      ∧ Np.det rot = 0.
Proof.
  assert (Forall (λ p, vz p = 0) bent_target) as H by (by repeat constructor).
  split; [reflexivity|]. split; [exact (or_introl H)|].
  exact (calcTransformation_flat_is_singular svd_diag line_frame bent_target 0
           eq_refl (or_introl H)).
Defined.

(** ** [_superpose] with a buffer of its own *)

Section Buffer.

Variable svd : Mat3 → Mat3 * Vec3 * Mat3.

Lemma superpose_buffer_loop (tar : list Vec3) (n k : nat)
    (mobs buf : list (list Vec3)) :
  (k + n)%nat = length mobs →
  length buf = length mobs →
  Forall (λ m, length m = length tar) mobs →
  for_each (_superpose_frame svd (Np.mean0 tar) (Np.sub_row tar (Np.mean0 tar)))
           (seq k n) (mobs, Some buf)
  = Ok (mobs, Some (take k buf
                    ++ zip_with (moved_along svd tar) (drop k mobs) (drop k buf))).
Proof.
  revert k buf. induction n as [|n IH]; intros k buf Hk Hbuf Hall; simpl.
  - rewrite !drop_ge by lia. rewrite take_ge by lia. by rewrite app_nil_r.
  - destruct (lookup_lt_is_Some_2 mobs k) as [mob Hmob]; [lia|].
    destruct (lookup_lt_is_Some_2 buf k) as [mov Hmov]; [lia|].
    assert (length mob = length tar) as Hlen
      by (by eapply (Forall_lookup_1 _ _ _ _ Hall)).
    unfold getitem. rewrite Hmob, bind_Ok.
    rewrite dot_T_centered by done. rewrite !bind_Ok.
    rewrite Hmov, !bind_Ok.
    fold (moved_along svd tar mob mov). rewrite IH.
    + do 3 f_equal.
      rewrite (take_S_r _ _ (moved_along svd tar mob mov))
        by (apply list_lookup_insert_eq; lia).
      rewrite take_insert_ge by lia. rewrite drop_insert_lt by lia.
      rewrite <- app_assoc. f_equal.
      by rewrite (drop_S _ _ _ Hmob), (drop_S _ _ _ Hmov).
    + lia.
    + rewrite length_insert. lia.
    + done.
Qed.

End Buffer.

(** X16.  Given a buffer [movs] with one frame for each frame of [mobs],
    [_superpose] leaves [mobs] as it is and replaces [movs[i]] by what
    [applyTransformation] makes of it under the transformation that
    [calcTransformation] finds for [mobs[i]] and the target; the frames
    of [movs] may have any number of atoms. *)
Theorem superpose_moves_the_buffer
    (svd : Mat3 → Mat3 * Vec3 * Mat3) (mobs movs : list (list Vec3))
    (tar : list Vec3) (weights : option (list R)) :
  Forall (λ m, length m = length tar) mobs →
  length movs = length mobs →
  ∃ out,
    _superpose svd mobs tar weights (Some movs) = Ok (mobs, Some out)
    ∧ length out = length movs
    ∧ ∀ i mob mov, mobs !! i = Some mob → movs !! i = Some mov →
        ∃ T x, calcTransformation svd mob tar None = Ok T
               ∧ applyTransformation T mov = Ok x
               ∧ out !! i = Some x.
Proof.
  intros Hall Hlen. eexists. split; [|split].
  - unfold _superpose. rewrite superpose_buffer_loop by done.
    by rewrite take_0, !drop_0.
  - cbn [app]. rewrite length_zip_with. lia.
  - intros i mob mov Hmob Hmov.
    assert (length mob = length tar) as Hm
      by (by eapply (Forall_lookup_1 _ _ _ _ Hall)).
    unfold calcTransformation, applyTransformation.
    rewrite decide_False by (intros ?; done).
    unfold _calcTransformation. rewrite matrix_unweighted by done.
    rewrite bind_Ok, init_transformation. do 2 eexists.
    split; [done|]. split; [apply apply_transformation|].
    cbn [app]. rewrite lookup_zip_with, Hmob. cbn. rewrite Hmov. cbn.
    unfold moved_along. by rewrite !mean0_centroid.
Qed.

Lemma superpose_moves_the_buffer_witness :
  Forall (λ m, length m = length bent_target) [line_frame]
  ∧ length [two_points] = length [line_frame]
  ∧ ∃ out,
      _superpose svd_diag [line_frame] bent_target None (Some [two_points])
      = Ok ([line_frame], Some out)
      ∧ length out = length [two_points]
      ∧ ∀ i mob mov, [line_frame] !! i = Some mob → [two_points] !! i = Some mov →
          ∃ T x, calcTransformation svd_diag mob bent_target None = Ok T
                 ∧ applyTransformation T mov = Ok x
                 ∧ out !! i = Some x.
Proof.
  assert (Forall (λ m, length m = length bent_target) [line_frame]) as H
    by (by repeat constructor).
  split; [exact H|]. split; [reflexivity|].
  exact (superpose_moves_the_buffer svd_diag [line_frame] [two_points] bent_target
           None H eq_refl).
Defined.

(** * What [calcTransformation] accepts *)

(** X17.  [calcTransformation] raises [ValueError] whenever the two frames
    differ in their number of atoms or the weights, if given, do not
    number one per atom.  When the shapes fit and the centres are
    defined (at least one atom and, with weights, a weight sum that is
    not zero, so that no division by zero occurs), it returns a
    transformation, a rotation of shape [(3,3)] and a translation of
    length 3: nothing past the checks raises, and the constructor
    accepts what was computed. *)
Theorem calcTransformation_checks_shapes
    (svd : Mat3 → Mat3 * Vec3 * Mat3) (mobile target : list Vec3)
    (weights : option (list R)) :
  let fits := length mobile = length target
              ∧ match weights with
                | None => True
                | Some w => length w = length mobile
                end in
  let centres_defined := mobile ≠ []
                         ∧ match weights with
                           | None => True
                           | Some w => Np.sum w ≠ 0
                           end in
  (fits → centres_defined →
   ∃ rot t, calcTransformation svd mobile target weights
            = Ok (transformation rot t))
  ∧ (¬ fits → calcTransformation svd mobile target weights = Raise ValueError).
Proof.
  cbv zeta. unfold calcTransformation. split.
  - intros [Hlen Hw] _. rewrite decide_False by (intros ?; done).
    destruct weights as [w|].
    + rewrite decide_False by (intros ?; done).
      unfold _calcTransformation. rewrite matrix_weighted by done.
      rewrite bind_Ok, init_transformation. by do 2 eexists.
    + unfold _calcTransformation. rewrite matrix_unweighted by done.
      rewrite bind_Ok, init_transformation. by do 2 eexists.
  - intros Hno. case_decide as Hlen; [done|].
    destruct weights as [w|]; [|tauto].
    case_decide as Hw; [done|]. tauto.
Qed.

Lemma calcTransformation_checks_shapes_witness :
  (∃ rot t, calcTransformation svd_diag line_frame bent_target (Some middle_weights)
            = Ok (transformation rot t))
  ∧ calcTransformation svd_diag line_frame two_points (Some middle_weights)
    = Raise ValueError
  ∧ calcTransformation svd_diag line_frame bent_target (Some [1; 1])
    = Raise ValueError.
Proof.
  split; [|split].
  - apply (proj1 (calcTransformation_checks_shapes svd_diag line_frame bent_target
                    (Some middle_weights))).
    + split; reflexivity.
    + split; [discriminate | exact sum_middle_weights].
  - apply (proj2 (calcTransformation_checks_shapes svd_diag line_frame two_points
                    (Some middle_weights))).
    intros [H _]. discriminate H.
  - apply (proj2 (calcTransformation_checks_shapes svd_diag line_frame bent_target
                    (Some [1; 1]))).
    intros [_ H]. discriminate H.
Defined.

(** * The principal axes, atom after atom *)

Section ChainLoop.

Variable eigh : Mat3 → Vec3 * Mat3.

Lemma adp_chain_loop (todo pre_an : list anisou) (pre : list Mat3) (prev : Mat3)
    (pre_vars : list Vec3) :
  length pre_an = S (length pre) → length pre_vars = S (length pre) →
  for_each (_adp_step eigh (pre_an ++ todo))
           (seq (S (length pre)) (length todo))
           (pre ++ prev :: replicate (length todo) Np.mzero,
            pre_vars ++ replicate (length todo) Np.vzero)
  = Ok (pre ++ prev :: adp_chain eigh prev todo,
        pre_vars ++ ((λ a, clamp (eigh (element_of a)).1) <$> todo)).
Proof.
  revert pre_an pre prev pre_vars.
  induction todo as [|a todo IH]; intros pre_an pre prev pre_vars Han Hvars.
  - done.
  - cbn [length seq for_each replicate].
    rewrite (adp_step_ok eigh _ _ _ _ a prev).
    + rewrite bind_Ok. fold (next_block eigh prev a).
      rewrite insert_app_r_alt by lia.
      replace (S (length pre) - length pre)%nat with 1%nat by lia.
      rewrite insert_app_r_alt by lia.
      replace (S (length pre) - length pre_vars)%nat with 0%nat by lia.
      cbn [insert list_insert].
      rewrite (cons_middle a pre_an todo), (cons_middle prev pre), !app_assoc.
      rewrite (cons_middle (clamp _) pre_vars), !app_assoc.
      replace (S (S (length pre))) with (S (length (pre ++ [prev])))
        by (rewrite length_app; simpl; lia).
      rewrite IH.
      * by rewrite <- !app_assoc.
      * rewrite !length_app. simpl. lia.
      * rewrite !length_app. simpl. lia.
    + rewrite lookup_app_r by lia.
      by replace (S (length pre) - length pre_an)%nat with 0%nat by lia.
    + replace (S (length pre) - 1)%nat with (length pre) by lia.
      rewrite lookup_app_r by lia. by rewrite Nat.sub_diag.
Qed.

(** The arrays the loop leaves for at least one atom. *)
Lemma adp_decompose_chain (a0 : anisou) (rest : list anisou) :
  _adp_decompose eigh (a0 :: rest)
  = Ok (first_block eigh a0 :: adp_chain eigh (first_block eigh a0) rest,
        (λ a, clamp (eigh (element_of a)).1) <$> a0 :: rest).
Proof.
  unfold _adp_decompose. cbn [getitem lookup list_lookup].
  rewrite bind_Ok. unfold first_block.
  destruct (eigh (element_of a0)) as [vals vecs] eqn:E0. cbn [fst snd].
  cbn [length replicate insert list_insert].
  replace (S (length rest) - 1)%nat with (length rest) by lia.
  pose proof (adp_chain_loop rest [a0] []
                (Np.mul_cols (Np.vmap sqrt (clamp vals)) vecs) [clamp vals]
                eq_refl eq_refl) as H.
  cbn [app length] in H. rewrite H. cbn [fmap list_fmap]. by rewrite E0.
Qed.

Lemma calcADPAxes_chain (a0 : anisou) (rest : list anisou) :
  calcADPAxes eigh (Some (a0 :: rest)) ∅
  = Ok (Np.mrev_cols <$> first_block eigh a0
                         :: adp_chain eigh (first_block eigh a0) rest).
Proof.
  unfold calcADPAxes. by rewrite adp_decompose_chain, bind_Ok, adp_torf_no_filter.
Qed.

End ChainLoop.

Lemma Ok_inj {A : Type} (x y : A) : @Ok A x = Ok y → x = y.
Proof. by intros [= ->]. Qed.

Lemma mrev_cols_mul_cols (v : Vec3) (m : Mat3) :
  Np.mrev_cols (Np.mul_cols v m) = Np.mul_cols (Np.vrev v) (Np.mrev_cols m).
Proof. by destruct v, m as [[] [] []]. Qed.

Lemma vrev_vmap (f : R → R) (v : Vec3) : Np.vrev (Np.vmap f v) = Np.vmap f (Np.vrev v).
Proof. by destruct v. Qed.

Lemma vrev_clamp (v : Vec3) : Np.vrev (clamp v) = clamp (Np.vrev v).
Proof. by destruct v. Qed.

Lemma mul_cols_vmul (s g : Vec3) (m : Mat3) :
  Np.mul_cols (Np.vmul s g) m = Np.mul_cols g (Np.mul_cols s m).
Proof. destruct s, g, m as [[] [] []]. np_unfold. f_equal; f_equal; ring. Qed.

Lemma is_sign_sign (x : R) : is_sign (Np.sign x).
Proof.
  unfold is_sign, Np.sign. destruct (total_order_T x 0) as [[?|?]|?]; auto.
Qed.

Lemma column_of_mrev_cols (c : axis) (m : Mat3) :
  column_of (mirrored c) (Np.mrev_cols m) = column_of c m.
Proof. by destruct c, m as [[] [] []]. Qed.

Lemma column_of_mask (b : bool) (c : axis) (m : Mat3) :
  column_of c m = Np.vzero → column_of c (mask b m) = Np.vzero.
Proof.
  destruct b; [by rewrite mask_true|]. rewrite mask_false. intros _. by destruct c.
Qed.

Lemma sqrt_clamp_nonpos (x : R) :
  x <= 0 → sqrt (if decide (x < 0) then 0 else x) = 0.
Proof.
  intros Hx. case_decide; [apply sqrt_0|].
  replace x with 0 by lra. apply sqrt_0.
Qed.

Lemma sign_of_zero_dot (a b c : R) : Np.sign (a * 0 + (b * 0 + c * 0)) = 0.
Proof. replace (a * 0 + (b * 0 + c * 0)) with 0 by ring. apply sign_zero. Qed.

Section ChainFacts.

Variable eigh : Mat3 → Vec3 * Mat3.

Lemma axes_of_first_block (a : anisou) :
  axes_of eigh a = Np.mrev_cols (first_block eigh a).
Proof. unfold axes_of, first_block. by destruct (eigh (element_of a)). Qed.

Lemma next_block_signed (prev : Mat3) (a : anisou) :
  next_block eigh prev a
  = Np.mul_cols (Np.vmap Np.sign (Np.col_dots (eigh (element_of a)).2 prev))
                (first_block eigh a).
Proof. unfold next_block, first_block. apply mul_cols_vmul. Qed.

Lemma first_block_nonpositive (a : anisou) (k : axis) :
  coord k (eigh (element_of a)).1 <= 0 →
  column_of k (first_block eigh a) = Np.vzero.
Proof.
  unfold first_block. destruct (eigh (element_of a)) as [[v0 v1 v2] [[] [] []]].
  cbn [fst snd]. unfold clamp.
  destruct k; cbn [coord vx vy vz]; intros H; np_unfold;
    unfold column_of, vec_of, entry; cbn [coord vx vy vz row0 row1 row2];
    rewrite (sqrt_clamp_nonpos _ H); f_equal; ring.
Qed.

Lemma next_block_nonpositive (prev : Mat3) (a : anisou) (k : axis) :
  coord k (eigh (element_of a)).1 <= 0 →
  column_of k (next_block eigh prev a) = Np.vzero.
Proof.
  intros H. pose proof (first_block_nonpositive a k H) as H0.
  rewrite next_block_signed. revert H0.
  destruct (first_block eigh a) as [[] [] []],
    (Np.vmap Np.sign (Np.col_dots (eigh (element_of a)).2 prev)) as [g0 g1 g2].
  unfold column_of, vec_of, entry. np_unfold.
  destruct k; cbn [coord vx vy vz row0 row1 row2]; intros [= -> -> ->];
    f_equal; ring.
Qed.

Lemma next_block_zero_column (prev : Mat3) (a : anisou) (c : axis) :
  column_of c prev = Np.vzero → column_of c (next_block eigh prev a) = Np.vzero.
Proof.
  unfold next_block.
  destruct (eigh (element_of a)) as [vals [[] [] []]]. cbn [fst snd].
  destruct (Np.vmap sqrt (clamp vals)) as [s0 s1 s2].
  destruct prev as [[] [] []].
  unfold column_of, vec_of, entry, Np.col_dots. np_unfold.
  destruct c; cbn [coord vx vy vz row0 row1 row2]; intros [= -> -> ->];
    rewrite sign_of_zero_dot; f_equal; ring.
Qed.

Lemma chain_zero_column (prev : Mat3) (l : list anisou) (c : axis) :
  column_of c prev = Np.vzero →
  Forall (λ m, column_of c m = Np.vzero) (adp_chain eigh prev l).
Proof.
  revert prev. induction l as [|a l IH]; intros prev H; cbn [adp_chain]; [done|].
  pose proof (next_block_zero_column prev a c H). constructor; [done|]. by apply IH.
Qed.

Lemma chain_erased (prev : Mat3) (l : list anisou) (i : nat) (a : anisou) (k : axis) :
  l !! i = Some a → coord k (eigh (element_of a)).1 <= 0 →
  ∀ j m, (i ≤ j)%nat → adp_chain eigh prev l !! j = Some m →
         column_of k m = Np.vzero.
Proof.
  revert prev i. induction l as [|b l IH]; intros prev i Hi Hk j m Hj Hm; [done|].
  cbn [adp_chain] in Hm. destruct i as [|i].
  - injection Hi as ->. pose proof (next_block_nonpositive prev a k Hk) as H0.
    destruct j as [|j]; [by injection Hm as <-|].
    exact (Forall_lookup_1 _ _ _ _ (chain_zero_column _ l k H0) Hm).
  - destruct j as [|j]; [lia|].
    apply (IH (next_block eigh prev b) i Hi Hk j m); [lia|done].
Qed.

Lemma blocks_erased (a0 : anisou) (rest : list anisou) (i : nat) (a : anisou)
    (k : axis) :
  (a0 :: rest) !! i = Some a → coord k (eigh (element_of a)).1 <= 0 →
  ∀ j m, (i ≤ j)%nat →
    (first_block eigh a0 :: adp_chain eigh (first_block eigh a0) rest) !! j = Some m →
    column_of k m = Np.vzero.
Proof.
  intros Hi Hk j m Hj Hm. destruct i as [|i].
  - injection Hi as ->. pose proof (first_block_nonpositive a k Hk) as H0.
    destruct j as [|j]; [by injection Hm as <-|].
    exact (Forall_lookup_1 _ _ _ _ (chain_zero_column _ rest k H0) Hm).
  - destruct j as [|j]; [lia|].
    apply (chain_erased (first_block eigh a0) rest i a k Hi Hk j m); [lia|done].
Qed.

Lemma chain_length (prev : Mat3) (l : list anisou) :
  length (adp_chain eigh prev l) = length l.
Proof. revert prev. induction l as [|a l IH]; intros prev; simpl; [done|]. by rewrite IH. Qed.

Lemma chain_lookup (prev : Mat3) (l : list anisou) (i : nat) (a : anisou) :
  l !! i = Some a →
  ∃ prev', adp_chain eigh prev l !! i = Some (next_block eigh prev' a).
Proof.
  revert prev i. induction l as [|b l IH]; intros prev i Hi; [done|].
  destruct i as [|i].
  - injection Hi as ->. by exists prev.
  - cbn [adp_chain]. apply (IH _ i Hi).
Qed.

Lemma next_block_same (a : anisou) :
  next_block eigh (first_block eigh a) a = first_block eigh a.
Proof.
  unfold next_block, first_block.
  destruct (eigh (element_of a)) as [vals vecs]. cbn [fst snd].
  destruct (clamp_roots_nonneg vals) as (H0 & H1 & H2).
  destruct (Np.vmap sqrt (clamp vals)) as [s0 s1 s2].
  destruct vecs as [[a0 b0 c0] [a1 b1 c1] [a2 b2 c2]]. cbn [vx vy vz] in *.
  unfold Np.col_dots. np_unfold. f_equal; f_equal; apply keep_direction; auto.
Qed.

Lemma chain_same (a : anisou) (n : nat) :
  adp_chain eigh (first_block eigh a) (replicate n a)
  = replicate n (first_block eigh a).
Proof.
  induction n as [|n IH]; [done|]. cbn [replicate adp_chain].
  rewrite next_block_same. by rewrite IH.
Qed.

End ChainFacts.

(** X18.  Without a filter, the block [calcADPAxes] returns for each atom is
    the block of that atom alone (its eigenvectors, scaled by the roots
    of the clamped eigenvalues, largest first) with every column
    multiplied by -1, 0 or 1; for the first atom the block is returned
    as it is.  There are as many blocks as atoms. *)
Theorem calcADPAxes_blocks_are_signed_axes
    (eigh : Mat3 → Vec3 * Mat3) (a0 : anisou) (rest : list anisou) :
  ∃ out,
    calcADPAxes eigh (Some (a0 :: rest)) ∅ = Ok out
    ∧ length out = length (a0 :: rest)
    ∧ out !! 0%nat = Some (axes_of eigh a0)
    ∧ ∀ i a, (a0 :: rest) !! i = Some a →
        ∃ sg, is_sign (vx sg) ∧ is_sign (vy sg) ∧ is_sign (vz sg)
              ∧ out !! i = Some (Np.mul_cols sg (axes_of eigh a)).
Proof.
  eexists. split; [apply calcADPAxes_chain|]. split; [|split].
  - rewrite length_fmap. cbn [length]. by rewrite chain_length.
  - cbn [fmap list_fmap lookup list_lookup]. by rewrite axes_of_first_block.
  - intros i a Hi. destruct i as [|i].
    + injection Hi as ->. exists (mkVec3 1 1 1).
      unfold is_sign. cbn [vx vy vz]. repeat split; auto.
      cbn [fmap list_fmap lookup list_lookup]. rewrite axes_of_first_block.
      f_equal. destruct (first_block eigh a) as [[] [] []]. np_unfold.
      f_equal; f_equal; ring.
    + cbn [lookup list_lookup] in Hi.
      destruct (chain_lookup eigh (first_block eigh a0) rest i a Hi) as [prev Hp].
      exists (Np.vrev (Np.vmap Np.sign (Np.col_dots (eigh (element_of a)).2 prev))).
      destruct (Np.col_dots (eigh (element_of a)).2 prev) as [d0 d1 d2] eqn:Hd.
      cbn [Np.vrev Np.vmap vx vy vz].
      repeat split; try apply is_sign_sign.
      rewrite list_lookup_fmap.
      change ((first_block eigh a0 :: adp_chain eigh (first_block eigh a0) rest)
                !! S i)
        with (adp_chain eigh (first_block eigh a0) rest !! i).
      rewrite Hp. cbn [fmap option_fmap option_map]. f_equal.
      rewrite next_block_signed, Hd, mrev_cols_mul_cols, axes_of_first_block. done.
Qed.

(** X19.  The block of the first atom is made of what [calcADPs] returns for
    it: its eigenvectors, largest eigenvalue first, each scaled by the
    root of its eigenvalue, a negative eigenvalue counting as 0. *)
Theorem calcADPAxes_first_block_from_calcADPs
    (eigh : Mat3 → Vec3 * Mat3) (a : anisou) (rest : list anisou) :
  ∃ vals vecs out,
    calcADPs eigh (Some a) = Ok (vals, vecs)
    ∧ calcADPAxes eigh (Some (a :: rest)) ∅ = Ok out
    ∧ out !! 0%nat = Some (Np.mul_cols (Np.vmap sqrt (clamp vals)) vecs).
Proof.
  exists (Np.vrev (eigh (element_of a)).1), (Np.mrev_cols (eigh (element_of a)).2).
  eexists. split; [|split; [apply calcADPAxes_chain|]].
  - unfold calcADPs. by destruct (eigh (element_of a)) as [vals vecs].
  - reflexivity.
Qed.

(** X20.  An eigenvalue that is zero or negative erases its axis from there
    on: if eigenvalue [k] (in the ascending order of [linalg.eigh]) of
    atom [i] is not positive, the matching column of the block of atom
    [i] and of the block of every atom after it is zero, whatever
    their own tensors are and whichever filter is asked for. *)
Theorem calcADPAxes_erased_axis_stays_erased
    (eigh : Mat3 → Vec3 * Mat3) (anisous : list anisou) (kwargs : gmap string R)
    (out : list Mat3) (i : nat) (a : anisou) (k : axis) :
  calcADPAxes eigh (Some anisous) kwargs = Ok out →
  anisous !! i = Some a →
  coord k (eigh (element_of a)).1 <= 0 →
  ∀ j m, (i ≤ j)%nat → out !! j = Some m →
         column_of (mirrored k) m = Np.vzero.
Proof.
  intros Hout Hi Hk j m Hj Hm.
  destruct anisous as [|a0 rest]; [done|].
  unfold calcADPAxes in Hout. rewrite adp_decompose_chain, bind_Ok in Hout.
  pose proof (blocks_erased eigh a0 rest i a k Hi Hk) as Hraw.
  set (raw := first_block eigh a0 :: adp_chain eigh (first_block eigh a0) rest) in *.
  destruct (_adp_torf _ _) as [[torf|]|e]; [| |done]; rewrite bind_Ok in Hout;
    apply Ok_inj in Hout; subst out.
  - rewrite lookup_zip_with, list_lookup_fmap in Hm.
    destruct (raw !! j) as [blk|] eqn:Hr; [|done].
    cbn in Hm. destruct (torf !! j) as [b|]; [|done]. cbn in Hm.
    injection Hm as <-. apply column_of_mask.
    rewrite column_of_mrev_cols. by apply (Hraw j).
  - rewrite list_lookup_fmap in Hm.
    destruct (raw !! j) as [blk|] eqn:Hr; [|done].
    cbn in Hm. injection Hm as <-.
    rewrite column_of_mrev_cols. by apply (Hraw j).
Qed.

(** X21.  For a run of atoms with one and the same tensor, every block is the
    block of that tensor: no axis is flipped or lost along the way. *)
Theorem calcADPAxes_equal_records
    (eigh : Mat3 → Vec3 * Mat3) (a : anisou) (n : nat) :
  calcADPAxes eigh (Some (replicate (S n) a)) ∅
  = Ok (replicate (S n) (axes_of eigh a)).
Proof.
  cbn [replicate]. rewrite calcADPAxes_chain, chain_same, axes_of_first_block.
  change (first_block eigh a :: replicate n (first_block eigh a))
    with (replicate (S n) (first_block eigh a)).
  by rewrite fmap_replicate.
Qed.

Lemma calcADPAxes_erased_axis_stays_erased_witness :
  calcADPAxes eigh_diag (Some [indefinite_atom; definite_atom]) ∅
  = Ok (Np.mrev_cols <$> first_block eigh_diag indefinite_atom
          :: adp_chain eigh_diag (first_block eigh_diag indefinite_atom)
               [definite_atom])
  ∧ [indefinite_atom; definite_atom] !! 0%nat = Some indefinite_atom
  ∧ coord X (eigh_diag (element_of indefinite_atom)).1 <= 0
  ∧ ∀ j m, (0 ≤ j)%nat →
      (Np.mrev_cols <$> first_block eigh_diag indefinite_atom
         :: adp_chain eigh_diag (first_block eigh_diag indefinite_atom)
              [definite_atom]) !! j = Some m →
      column_of (mirrored X) m = Np.vzero.
Proof.
  assert (coord X (eigh_diag (element_of indefinite_atom)).1 <= 0) as H.
  { change (eigh_diag (element_of indefinite_atom)) with (mkVec3 (-1) 1 4, identity3).
    cbn [fst coord vx]. lra. }
  split; [apply calcADPAxes_chain|]. split; [reflexivity|]. split; [exact H|].
  exact (calcADPAxes_erased_axis_stays_erased eigh_diag
           [indefinite_atom; definite_atom] ∅ _ 0 indefinite_atom X
           (calcADPAxes_chain eigh_diag indefinite_atom [definite_atom])
           eq_refl H).
Defined.

(** ** The fraction filter and the outcomes of [calcADPAxes] *)

(** X22.  Called with [fract] set to a threshold in [(0.33, 1)] (whatever
    other keywords are given), [calcADPAxes] returns for every atom
    whose clamped eigenvalues do not all vanish the axes it returns
    without a filter if the largest variance is more than the fraction
    [fract] of their sum, and three zero axes otherwise. *)
Theorem calcADPAxes_fraction_filter
    (eigh : Mat3 → Vec3 * Mat3) (anisous : list anisou)
    (kwargs : gmap string R) (fract : R) :
  anisous ≠ [] →
  kwargs !! "fract"%string = Some fract →
  33 / 100 < fract < 1 →
  ∃ unfiltered filtered,
    calcADPAxes eigh (Some anisous) ∅ = Ok unfiltered
    ∧ calcADPAxes eigh (Some anisous) kwargs = Ok filtered
    ∧ length filtered = length anisous
    ∧ ∀ i a, anisous !! i = Some a →
        let v := variances_of eigh a in
        0 < Np.vsum v →
        filtered !! i
        = if decide (fract < vx v / Np.vsum v)
          then unfiltered !! i
          else Some Np.mzero.
Proof.
  intros Hne Hf Hr.
  destruct (adp_decompose_ok eigh anisous Hne)
    as (axes & vars & Hrun & Ha & Hv & Hvars).
  exists (Np.mrev_cols <$> axes).
  exists (zip_with (λ m b, mask b m) (Np.mrev_cols <$> axes)
            ((λ v, quotient_gt (vx v) (Np.vsum v) fract) <$> (Np.vrev <$> vars))).
  split; [|split; [|split]].
  - unfold calcADPAxes. by rewrite Hrun, bind_Ok, adp_torf_no_filter.
  - unfold calcADPAxes. by rewrite Hrun, bind_Ok, (adp_torf_fract _ fract).
  - rewrite length_zip_with, !length_fmap. lia.
  - intros i a Hia v Hpos.
    destruct (lookup_lt_is_Some_2 axes i) as [m Hm].
    { rewrite Ha. by eapply lookup_lt_Some. }
    rewrite lookup_zip_with, !list_lookup_fmap, Hm, (Hvars i a Hia).
    cbn [fmap option_fmap option_map mbind option_bind].
    fold (variances_of eigh a). fold v.
    rewrite quotient_gt_defined by done.
    destruct (decide (fract < vx v / Np.vsum v)) as [Hlt|Hge].
    + by rewrite bool_decide_eq_true_2, mask_true.
    + by rewrite bool_decide_eq_false_2, mask_false.
Qed.

Lemma calcADPAxes_fraction_filter_witness :
  [definite_atom; isotropic_atom] ≠ []
  ∧ ({["fract"%string := 1 / 2]} : gmap string R) !! "fract"%string = Some (1 / 2)
  ∧ 33 / 100 < 1 / 2 < 1
  ∧ ∃ unfiltered filtered,
      calcADPAxes eigh_diag (Some [definite_atom; isotropic_atom]) ∅ = Ok unfiltered
      ∧ calcADPAxes eigh_diag (Some [definite_atom; isotropic_atom])
          {["fract"%string := 1 / 2]} = Ok filtered
      ∧ length filtered = length [definite_atom; isotropic_atom]
      ∧ ∀ i a, [definite_atom; isotropic_atom] !! i = Some a →
          let v := variances_of eigh_diag a in
          0 < Np.vsum v →
          filtered !! i
          = if decide (1 / 2 < vx v / Np.vsum v)
            then unfiltered !! i
            else Some Np.mzero.
Proof.
  assert ([definite_atom; isotropic_atom] ≠ []) as H1 by discriminate.
  assert (({["fract"%string := 1 / 2]} : gmap string R) !! "fract"%string
          = Some (1 / 2)) as H2 by apply lookup_singleton_eq.
  assert (33 / 100 < 1 / 2 < 1) as H3 by lra.
  split; [exact H1|]. split; [exact H2|]. split; [exact H3|].
  exact (calcADPAxes_fraction_filter eigh_diag [definite_atom; isotropic_atom]
           {["fract"%string := 1 / 2]} (1 / 2) H1 H2 H3).
Defined.

Lemma adp_torf_outcomes (kwargs : gmap string R) (variances : list Vec3) :
  (∃ torf, _adp_torf kwargs variances = Ok torf
           ∧ ∀ bs, torf = Some bs → length bs = length variances)
  ∨ _adp_torf kwargs variances = Raise AssertionError.
Proof.
  unfold _adp_torf.
  destruct (kwargs !! "fract"%string) as [fract|].
  { case_decide; [left|by right]. eexists. split; [done|].
    intros bs [= <-]. by rewrite !length_fmap. }
  destruct (kwargs !! "ratio2"%string) as [ratio|].
  { case_decide; [left|by right]. eexists. split; [done|].
    intros bs [= <-]. by rewrite !length_fmap. }
  destruct (kwargs !! "ratio"%string) as [ratio|].
  { case_decide; [left|by right]. eexists. split; [done|].
    intros bs [= <-]. by rewrite !length_fmap. }
  destruct (kwargs !! "ratio3"%string) as [ratio|].
  { case_decide; [left|by right]. eexists. split; [done|].
    intros bs [= <-]. by rewrite !length_fmap. }
  left. by eexists.
Qed.

(** X23.  What a call of [calcADPAxes] can come to: [ValueError] when the
    factors are not set, [IndexError] when there is no atom, and for at
    least one atom either one block per atom or, when the keyword that
    is read is out of its range, [AssertionError]; never anything
    else, whatever the keywords and the tensors are. *)
Theorem calcADPAxes_outcomes
    (eigh : Mat3 → Vec3 * Mat3) (kwargs : gmap string R)
    (a0 : anisou) (rest : list anisou) :
  calcADPAxes eigh None kwargs = Raise ValueError
  ∧ calcADPAxes eigh (Some []) kwargs = Raise IndexError
  ∧ ((∃ out, calcADPAxes eigh (Some (a0 :: rest)) kwargs = Ok out
             ∧ length out = length (a0 :: rest))
     ∨ calcADPAxes eigh (Some (a0 :: rest)) kwargs = Raise AssertionError).
Proof.
  split; [done|]. split; [done|].
  unfold calcADPAxes. rewrite adp_decompose_chain, bind_Ok.
  set (raw := first_block eigh a0 :: adp_chain eigh (first_block eigh a0) rest).
  assert (length raw = S (length rest)) as Hraw
    by (subst raw; cbn [length]; by rewrite chain_length).
  destruct (adp_torf_outcomes kwargs
              ((λ a, clamp (eigh (element_of a)).1) <$> a0 :: rest))
    as [(torf & -> & Hlen) | ->]; [|by right].
  left. rewrite bind_Ok. destruct torf as [bs|].
  - eexists. split; [done|].
    rewrite length_zip_with, length_fmap, (Hlen bs eq_refl), length_fmap, Hraw.
    cbn [length]. lia.
  - eexists. split; [done|]. rewrite length_fmap, Hraw. done.
Qed.

(** ** [calcADPs] *)

Lemma orthogonal_mrev_cols (m : Mat3) : orthogonal m → orthogonal (Np.mrev_cols m).
Proof.
  intros H.
  assert (Np.mrev_cols m = Np.dot_m_m m (Np.mrev_cols identity3)) as ->.
  { destruct m as [[] [] []]. unfold identity3. np_unfold. f_equal; f_equal; ring. }
  apply orthogonal_dot_m_m; [done|].
  unfold orthogonal, identity3. np_unfold. split; f_equal; f_equal; ring.
Qed.

(** X24.  If [linalg.eigh] returns the eigenvalues of the tensor in ascending
    order with their eigenvectors as columns, [calcADPs] returns them in
    descending order, every eigenvector still in the column of its
    eigenvalue, and orthonormal columns stay orthonormal. *)
Theorem calcADPs_keeps_eigenpairs (eigh : Mat3 → Vec3 * Mat3) (a : anisou) :
  eigenpairs (element_of a) (eigh (element_of a)).1 (eigh (element_of a)).2 →
  vx (eigh (element_of a)).1 <= vy (eigh (element_of a)).1 →
  vy (eigh (element_of a)).1 <= vz (eigh (element_of a)).1 →
  ∃ vals vecs,
    calcADPs eigh (Some a) = Ok (vals, vecs)
    ∧ eigenpairs (element_of a) vals vecs
    ∧ vz vals <= vy vals ∧ vy vals <= vx vals
    ∧ (orthogonal (eigh (element_of a)).2 → orthogonal vecs).
Proof.
  intros Hpairs H01 H12.
  exists (Np.vrev (eigh (element_of a)).1), (Np.mrev_cols (eigh (element_of a)).2).
  split; [|split; [|split; [|split]]].
  - unfold calcADPs. by destruct (eigh (element_of a)).
  - revert Hpairs. unfold eigenpairs.
    destruct (element_of a) as [[] [] []] eqn:E.
    destruct (eigh _) as [[v0 v1 v2] [[] [] []]]. cbn [fst snd].
    np_unfold. intros [= H00 H01' H02 H10 H11 H12' H20 H21 H22].
    f_equal; f_equal; assumption.
  - by destruct (eigh (element_of a)) as [[] ?].
  - by destruct (eigh (element_of a)) as [[] ?].
  - apply orthogonal_mrev_cols.
Qed.

Lemma calcADPs_keeps_eigenpairs_witness :
  eigenpairs (element_of definite_atom) (eigh_diag (element_of definite_atom)).1
    (eigh_diag (element_of definite_atom)).2
  ∧ vx (eigh_diag (element_of definite_atom)).1
    <= vy (eigh_diag (element_of definite_atom)).1
  ∧ vy (eigh_diag (element_of definite_atom)).1
    <= vz (eigh_diag (element_of definite_atom)).1
  ∧ ∃ vals vecs,
      calcADPs eigh_diag (Some definite_atom) = Ok (vals, vecs)
      ∧ eigenpairs (element_of definite_atom) vals vecs
      ∧ vz vals <= vy vals ∧ vy vals <= vx vals
      ∧ (orthogonal (eigh_diag (element_of definite_atom)).2 → orthogonal vecs).
Proof.
  assert (eigenpairs (element_of definite_atom)
            (eigh_diag (element_of definite_atom)).1
            (eigh_diag (element_of definite_atom)).2) as H1.
  { change (eigh_diag (element_of definite_atom)) with (mkVec3 1 4 9, identity3).
    unfold eigenpairs, element_of, definite_atom, identity3. cbn [fst snd].
    cbn [a_xx a_yy a_zz a_xy a_xz a_yz]. np_unfold. f_equal; f_equal; ring. }
  assert (vx (eigh_diag (element_of definite_atom)).1
          <= vy (eigh_diag (element_of definite_atom)).1) as H2.
  { change (eigh_diag (element_of definite_atom)) with (mkVec3 1 4 9, identity3).
    cbn [fst vx vy]. lra. }
  assert (vy (eigh_diag (element_of definite_atom)).1
          <= vz (eigh_diag (element_of definite_atom)).1) as H3.
  { change (eigh_diag (element_of definite_atom)) with (mkVec3 1 4 9, identity3).
    cbn [fst vy vz]. lra. }
  split; [exact H1|]. split; [exact H2|]. split; [exact H3|].
  exact (calcADPs_keeps_eigenpairs eigh_diag definite_atom H1 H2 H3).
Defined.

(** * [buildADPMatrix] *)

Lemma set_entry_square (n : nat) (m : list (list R)) (r c : nat) (x : R) :
  square n m → square n (set_entry m r c x).
Proof.
  intros [Hlen Hrows]. unfold set_entry. split; [rewrite length_alter; exact Hlen|].
  apply Forall_alter; [done|]. intros row _ Hrow. by rewrite length_insert.
Qed.

Lemma entry2_set_entry (n : nat) (m : list (list R)) (r c r' c' : nat) (x : R) :
  square n m → (r < n)%nat → (c < n)%nat →
  entry2 (set_entry m r c x) r' c'
  = if decide (r' = r ∧ c' = c) then x else entry2 m r' c'.
Proof.
  intros [Hlen Hrows] Hr Hc. unfold entry2, set_entry.
  destruct (lookup_lt_is_Some_2 m r) as [row Hrow]; [lia|].
  pose proof (Forall_lookup_1 _ _ _ _ Hrows Hrow) as Hl. cbv beta in Hl.
  case_decide as Hd.
  - destruct Hd as [-> ->]. rewrite list_lookup_alter_eq, Hrow.
    change (default 0 ((<[c:=x]> row) !! c) = x).
    by rewrite list_lookup_insert_eq by lia.
  - destruct (decide (r' = r)) as [->|Hr'].
    + rewrite list_lookup_alter_eq, Hrow.
      change (default 0 ((<[c:=x]> row) !! c') = default 0 (row !! c')).
      rewrite list_lookup_insert_ne; [done|]. intros ->. tauto.
    + by rewrite list_lookup_alter_ne by done.
Qed.

Lemma set_block3_square (n : nat) (m : list (list R)) (r c : nat) (b : Mat3) :
  square n m → square n (set_block3 m r c b).
Proof.
  intros H. unfold set_block3, set_row3. by repeat apply set_entry_square.
Qed.

Lemma entry2_set_block3 (n : nat) (m : list (list R)) (k : nat) (b : Mat3)
    (i j : nat) (r c : axis) :
  square n m → (k * 3 + 3 ≤ n)%nat →
  entry2 (set_block3 m (k * 3) (k * 3) b)
         (i * 3 + index_of r) (j * 3 + index_of c)
  = if decide (i = k ∧ j = k) then entry b r c
    else entry2 m (i * 3 + index_of r) (j * 3 + index_of c).
Proof.
  intros Hsq Hk. unfold set_block3, set_row3.
  repeat (rewrite (entry2_set_entry n);
          [|repeat apply set_entry_square; assumption | lia | lia]).
  destruct r, c; cbn [index_of entry coord];
    repeat case_decide; first [lia | reflexivity].
Qed.

Lemma zeros2_square (n : nat) : square n (zeros2 n n).
Proof.
  unfold zeros2. split; [by rewrite length_replicate|].
  apply Forall_replicate. by rewrite length_replicate.
Qed.

Lemma entry2_zeros2 (n m r c : nat) : entry2 (zeros2 n m) r c = 0.
Proof.
  unfold entry2, zeros2. destruct (decide (r < n)%nat) as [Hr|Hr].
  - rewrite lookup_replicate_2 by done. cbn [mbind option_bind].
    destruct (decide (c < m)%nat) as [Hc|Hc].
    + by rewrite lookup_replicate_2.
    + by rewrite lookup_ge_None_2 by (rewrite length_replicate; lia).
  - by rewrite lookup_ge_None_2 by (rewrite length_replicate; lia).
Qed.

Lemma buildADPMatrix_loop (anisous : list anisou) (n k : nat) (adp : list (list R)) :
  (k + n)%nat = length anisous →
  square (length anisous * 3) adp →
  ∃ adp',
    for_each (λ i adp,
                anisou ← getitem anisous i;
                Ok (set_block3 adp (i * 3) (i * 3) (element_of anisou)))
             (seq k n) adp = Ok adp'
    ∧ square (length anisous * 3) adp'
    ∧ ∀ i j r c,
        entry2 adp' (i * 3 + index_of r) (j * 3 + index_of c)
        = match anisous !! i with
          | Some a =>
              if decide (i = j ∧ (k ≤ i)%nat) then entry (element_of a) r c
              else entry2 adp (i * 3 + index_of r) (j * 3 + index_of c)
          | None => entry2 adp (i * 3 + index_of r) (j * 3 + index_of c)
          end.
Proof.
  revert k adp. induction n as [|n IH]; intros k adp Hk Hsq.
  - exists adp. split; [done|]. split; [done|]. intros i j r c.
    destruct (anisous !! i) as [a|] eqn:Ha; [|done].
    apply lookup_lt_Some in Ha. rewrite decide_False by lia. done.
  - cbn [seq for_each].
    destruct (lookup_lt_is_Some_2 anisous k) as [a Ha]; [lia|].
    unfold getitem. rewrite Ha, !bind_Ok.
    destruct (IH (S k) (set_block3 adp (k * 3) (k * 3) (element_of a)))
      as (adp' & Hrun & Hsq' & Hent); [lia | by apply set_block3_square |].
    exists adp'. split; [exact Hrun|]. split; [done|]. intros i j r c.
    rewrite Hent. destruct (anisous !! i) as [b|] eqn:Hb.
    + rewrite (entry2_set_block3 (length anisous * 3)) by (done || lia).
      destruct (decide (i = k)) as [->|Hne].
      * rewrite Ha in Hb. injection Hb as <-.
        repeat case_decide; first [lia | reflexivity].
      * repeat case_decide; first [lia | reflexivity].
    + apply lookup_ge_None in Hb.
      rewrite (entry2_set_block3 (length anisous * 3)) by (done || lia).
      rewrite decide_False by lia. done.
Qed.

Lemma element_of_symmetric (a : anisou) (r c : axis) :
  entry (element_of a) r c = entry (element_of a) c r.
Proof. by destruct r, c. Qed.

(** X25.  [buildADPMatrix] returns an array of [3N] rows of [3N] entries
    which is block diagonal and symmetric: the [(3,3)] block at rows
    [3i..3i+2] and columns [3j..3j+2] is the tensor of atom [i] when
    [i = j], and zero otherwise.  When the factors are not set it
    raises [ValueError]. *)
Theorem buildADPMatrix_is_block_diagonal (anisous : list anisou) :
  buildADPMatrix None = Raise ValueError
  ∧ ∃ adp,
      buildADPMatrix (Some anisous) = Ok adp
      ∧ square (length anisous * 3) adp
      ∧ (∀ i j a r c, anisous !! i = Some a →
           entry2 adp (i * 3 + index_of r) (j * 3 + index_of c)
           = if decide (i = j) then entry (element_of a) r c else 0)
      ∧ (∀ i j r c,
           entry2 adp (i * 3 + index_of r) (j * 3 + index_of c)
           = entry2 adp (j * 3 + index_of c) (i * 3 + index_of r)).
Proof.
  split; [done|].
  destruct (buildADPMatrix_loop anisous (length anisous) 0
              (zeros2 (length anisous * 3) (length anisous * 3)))
    as (adp & Hrun & Hsq & Hent); [done | apply zeros2_square |].
  exists adp. split; [exact Hrun|]. split; [exact Hsq|].
  assert (∀ i j a r c, anisous !! i = Some a →
            entry2 adp (i * 3 + index_of r) (j * 3 + index_of c)
            = if decide (i = j) then entry (element_of a) r c else 0) as Hdiag.
  { intros i j a r c Ha. rewrite Hent, Ha, entry2_zeros2.
    repeat case_decide; first [lia | reflexivity]. }
  split; [exact Hdiag|]. intros i j r c.
  destruct (anisous !! i) as [a|] eqn:Ha.
  - rewrite (Hdiag i j a r c Ha). destruct (decide (i = j)) as [<-|Hne].
    + rewrite (Hdiag i i a c r Ha), decide_True by done.
      apply element_of_symmetric.
    + destruct (anisous !! j) as [b|] eqn:Hb.
      * by rewrite (Hdiag j i b c r Hb), decide_False by done.
      * by rewrite (Hent j i c r), Hb, entry2_zeros2.
  - rewrite (Hent i j r c), Ha, entry2_zeros2.
    destruct (anisous !! j) as [b|] eqn:Hb.
    + rewrite (Hdiag j i b c r Hb), decide_False; [done|].
      intros <-. by rewrite Ha in Hb.
    + by rewrite (Hent j i c r), Hb, entry2_zeros2.
Qed.

(** * [calcDeformVector] *)

Lemma unflatten_flatten (d : list Vec3) : unflatten (flatten d) = d.
Proof.
  induction d as [|[x y z] d IH]; [done|].
  change (flatten (mkVec3 x y z :: d)) with (x :: y :: z :: flatten d).
  cbn [unflatten]. by rewrite IH.
Qed.

Lemma length_flatten (d : list Vec3) : length (flatten d) = (3 * length d)%nat.
Proof.
  induction d as [|v d IH]; [done|].
  change (flatten (v :: d)) with (vx v :: vy v :: vz v :: flatten d).
  cbn [length]. rewrite IH. lia.
Qed.

Lemma add_difference (a b : list Vec3) :
  length a = length b → zip_with Np.vadd a (zip_with Np.vsub b a) = b.
Proof.
  revert b. induction a as [|p a IH]; intros [|q b] Hlen; try done.
  injection Hlen as Hlen. cbn [zip_with]. rewrite (IH b Hlen). f_equal.
  destruct p, q. np_unfold. f_equal; ring.
Qed.

(** X26.  For two sets of the same number [N] of atoms, [calcDeformVector]
    makes a vector of [3N] numbers which, read three by three and added
    to the coordinates of [from_atoms], gives the coordinates of
    [to_atoms]; the name it gives the vector is never longer than 30
    characters. *)
Theorem calcDeformVector_leads_to_target (from_atoms to_atoms : atoms_t) :
  length (atoms_coordinates from_atoms) = length (atoms_coordinates to_atoms) →
  ∃ array name,
    calcDeformVector from_atoms to_atoms = Ok (array, name)
    ∧ length array = (3 * length (atoms_coordinates from_atoms))%nat
    ∧ (String.length name ≤ 30)%nat
    ∧ zip_with Np.vadd (atoms_coordinates from_atoms) (unflatten array)
      = atoms_coordinates to_atoms.
Proof.
  intros Hlen. unfold calcDeformVector, Np.sub.
  rewrite bcast0_same by done. rewrite bind_Ok.
  do 2 eexists. split; [reflexivity|]. split; [|split].
  - rewrite length_flatten, length_zip_with. lia.
  - case_decide; [cbn; lia | lia].
  - rewrite unflatten_flatten. by apply add_difference.
Qed.

Lemma calcDeformVector_leads_to_target_witness :
  length (atoms_coordinates (mk_atoms "A" line_frame))
  = length (atoms_coordinates (mk_atoms "B" bent_target))
  ∧ ∃ array name,
      calcDeformVector (mk_atoms "A" line_frame) (mk_atoms "B" bent_target)
      = Ok (array, name)
      ∧ length array = (3 * length (atoms_coordinates (mk_atoms "A" line_frame)))%nat
      ∧ (String.length name ≤ 30)%nat
      ∧ zip_with Np.vadd (atoms_coordinates (mk_atoms "A" line_frame))
          (unflatten array)
        = atoms_coordinates (mk_atoms "B" bent_target).
Proof.
  split; [reflexivity|].
  exact (calcDeformVector_leads_to_target (mk_atoms "A" line_frame)
           (mk_atoms "B" bent_target) eq_refl).
Defined.
